(** * The wallet address pool (wallet/addresspool.go)

    A shallow embedding of the per-branch address cache of the wallet's
    default account, and the properties of allocation, commit and rollback.

    The pool is a Go struct mutated in place by its methods; every method
    is embedded as a function from the pool (or the wallet holding both
    pools) and the state of the wallet's collaborators to the result, the
    pool after the call, the collaborators after the call and the calls that
    were made, in order.  The address manager ([w.Manager]), the chain
    client ([w.chainSvr]) and the address codec live in other packages:
    they appear here as an interface ([Services]) over an abstract state. *)

From Stdlib Require Import ZArith List String Bool Lia DecimalString.
From Stdlib.Strings Require Import Byte.
Import ListNotations.

#[local] Open Scope string_scope.
#[local] Open Scope list_scope.
#[local] Open Scope Z_scope.

(** ** Go values *)

(** [uint32] arithmetic wraps modulo [2^32]. *)
Definition uint32 (z : Z) : Z := z mod 2 ^ 32.

(** [len(s)] of a slice, as a Go [int]. *)
Definition len {A : Type} (s : list A) : Z := Z.of_nat (List.length s).

(** [s[i]]: the element, or nothing when the index is out of range (where
    the Go runtime panics). *)
Definition at_index {A : Type} (s : list A) (i : Z) : option A :=
  if (i <? 0) || (len s <=? i) then None else nth_error s (Z.to_nat i).

(** A call either returns or panics at run time. *)
Inductive outcome (A : Type) : Type :=
  | Returned (v : A)
  | Panicked (why : string).
Arguments Returned {A} v.
Arguments Panicked {A} why.

(** ** Addresses and errors *)

(** A [dcrutil.Address] is seen by the pool through two of its methods
    only: [EncodeAddress()] and [Hash160()] (a 20 byte array). *)
Record Address : Type := mkAddress {
  EncodeAddress : string;
  Hash160 : list byte
}.

(** A [waddrmgr.ManagedAddress] is seen through [Address()] only. *)
Record ManagedAddress : Type := mkManaged {
  maAddress : Address
}.

(** [*lsaH160 == *thisH160]: comparison of the two byte arrays. *)
Definition hash160_eqb (h1 h2 : list byte) : bool :=
  if list_eq_dec byte_eq_dec h1 h2 then true else false.

Inductive ErrorCode : Type :=
  | ErrAddressNotFound
  | ErrCode (n : nat).

(** Go [error] values: a [waddrmgr.ManagerError] with its code, a
    [fmt.Errorf] of this file with its format and arguments, or any other
    error of a collaborator. *)
Inductive error : Type :=
  | ManagerError (code : ErrorCode)
  | Errorf (format : string) (args : list Z)
  | OtherError (msg : string).

(** Modelled from the spec: the two branch identifiers and the default
    account number are constants of package waddrmgr, which is not part of
    the sources at hand; the branches are the two distinct values
    External and Internal, the account is the default one. *)
Definition ExternalBranch : Z := 0.
Definition InternalBranch : Z := 1.
Definition DefaultAccountNum : Z := 0.

(** addressPoolBuffer is the number of addresses to fetch when the address
    pool runs out of new addresses to use. *)
Definition addressPoolBuffer : Z := 20.

(** ** The collaborators *)

(** The methods of [w.Manager], [w.chainSvr] and [w] that the pool calls,
    over the state [W] of those collaborators.  Each returns what the Go
    method returns (a value and an [error], either of which may be nil)
    together with the state after the call.  Nothing is assumed about
    them here; what a theorem needs of them is stated where it is used. *)
Class Services (W : Type) : Type := {
  NextToUseAddresses :
    W -> option Address * option Address * option error * W;
  LastExternalAddress : Z -> W -> Z * option error * W;
  LastInternalAddress : Z -> W -> Z * option error * W;
  GetAddress : Z -> Z -> Z -> W -> option Address * option error * W;
  NextExternalAddresses :
    Z -> Z -> W -> list ManagedAddress * option error * W;
  NextInternalAddresses :
    Z -> Z -> W -> list ManagedAddress * option error * W;
  StoreNextToUseAddresses :
    option Address -> option Address -> W -> option error * W;
  existsAddressOnChain : option Address -> W -> bool * option error * W;
  NotifyReceived : list (option Address) -> W -> option error * W;
  (** [dcrutil.DecodeAddress(s, w.chainParams)]; the caller drops the
      error, so a failure is the nil address. *)
  DecodeAddress : string -> option Address
}.

Inductive PoolId : Type := ExternalPool | InternalPool.

(** What a method does to the outside, in the order it does it. *)
Inductive Event : Type :=
  | CallNextToUseAddresses
  | CallLastAddress (branch account : Z)
  | CallGetAddress (index account branch : Z)
      (addr : option Address) (err : option error)
  | CallExistsAddressOnChain (addr : option Address)
  | CallNextAddresses (branch account count : Z)
      (addrs : list ManagedAddress) (err : option error)
  | CallStoreNextToUseAddresses (ext int : option Address)
      (err : option error)
  | CallNotifyReceived (addrs : list (option Address)) (err : option error)
  | LogInfof (format : string)
  | LogErrorf (format : string)
  | MutexLock (p : PoolId)
  | MutexUnlock (p : PoolId).

(** ** The pool *)

Inductive Mutex : Type := NewMutex.

(** The struct [addressPool].  Its [wallet] pointer gives access to the
    collaborators, which are passed to every method here; [cursor] is a Go
    [int], [branch] and [index] are [uint32]. *)
Record addressPool : Type := mkPool {
  addresses : list string;
  cursor : Z;
  branch : Z;
  index : Z;
  started : bool;
  mutex : option Mutex
}.

Definition set_addresses (a : addressPool) (s : list string) : addressPool :=
  mkPool s (cursor a) (branch a) (index a) (started a) (mutex a).
Definition set_cursor (a : addressPool) (c : Z) : addressPool :=
  mkPool (addresses a) c (branch a) (index a) (started a) (mutex a).
Definition set_branch (a : addressPool) (b : Z) : addressPool :=
  mkPool (addresses a) (cursor a) b (index a) (started a) (mutex a).
Definition set_index (a : addressPool) (i : Z) : addressPool :=
  mkPool (addresses a) (cursor a) (branch a) i (started a) (mutex a).
Definition set_started (a : addressPool) (b : bool) : addressPool :=
  mkPool (addresses a) (cursor a) (branch a) (index a) b (mutex a).
Definition set_mutex (a : addressPool) (m : option Mutex) : addressPool :=
  mkPool (addresses a) (cursor a) (branch a) (index a) (started a) m.

(** NewAddressPool creates a new address pool for the wallet default
    account: every field has its zero value. *)
Definition NewAddressPool : addressPool :=
  mkPool [] 0 0 0 false None.

(** The fields of [Wallet] that this file reads. *)
Record Wallet : Type := mkWallet {
  externalPool : option addressPool;
  internalPool : option addressPool;
  addressReuse : bool
}.

Section Pool.

Context {W : Type} `{Services W}.

(** *** getLastAddressIndex *)

Definition getLastAddressIndex (branch : Z) (w : W)
  : Z * option error * W * list Event :=
  let lastAddrFunc :=
    if branch =? InternalBranch then Some LastInternalAddress
    else if branch =? ExternalBranch then Some LastExternalAddress
    else None in
  match lastAddrFunc with
  | None =>
      (0, Some (Errorf
        "unknown branch for last address index in address pool" []), w, [])
  | Some f =>
      let '(lastIndex, err, w1) := f DefaultAccountNum w in
      let ev := [CallLastAddress branch DefaultAccountNum] in
      match err with
      | Some (ManagerError ErrAddressNotFound) => (0, None, w1, ev)
      | Some e => (0, Some e, w1, ev)
      | None => (uint32 lastIndex, None, w1, ev)
      end
  end.

(** *** initialize *)

(** How the backward walk of [initialize] ends: the loop is left (by its
    condition or by [break]), a call fails, or a nil address is used. *)
Inductive walked : Type :=
  | WalkLeft (actualLastIndex : Z) (window : list string)
  | WalkFailed (e : error) (window : list string)
  | WalkPanicked (window : list string).

(** The loop
    [for actualLastIndex != 0 && traversed != addressPoolBuffer],
    with [remaining] the number of iterations left before [traversed]
    reaches [addressPoolBuffer]. *)
Fixpoint walk (reuse : bool) (lastSavedAddr : option Address) (branch : Z)
    (remaining : nat) (actualLastIndex : Z) (window : list string) (w : W)
  : walked * W * list Event :=
  match remaining with
  | O => (WalkLeft actualLastIndex window, w, [])
  | S remaining' =>
    if actualLastIndex =? 0 then (WalkLeft actualLastIndex window, w, [])
    else
      let '(addr, err, w1) :=
        GetAddress actualLastIndex DefaultAccountNum branch w in
      let ev1 :=
        [CallGetAddress actualLastIndex DefaultAccountNum branch addr err] in
      match err with
      | Some e => (WalkFailed e window, w1, ev1)
      | None =>
        (* what the rest of the body does once the address is kept *)
        let keep (w2 : W) (ev2 : list Event) :=
          match addr with
          | None => (WalkPanicked window, w2, ev2)
          | Some this =>
              let '(r, w3, ev3) :=
                walk reuse lastSavedAddr branch remaining'
                     (actualLastIndex - 1)
                     (EncodeAddress this :: window) w2 in
              (r, w3, ev2 ++ ev3)
          end in
        if negb reuse then
          match lastSavedAddr with
          | Some lsa =>
              match addr with
              | None => (WalkPanicked window, w1, ev1)
              | Some this =>
                  if hash160_eqb (Hash160 lsa) (Hash160 this)
                  then (WalkLeft actualLastIndex
                          (EncodeAddress this :: window), w1, ev1)
                  else keep w1 ev1
              end
          | None => keep w1 ev1
          end
        else
          let '(exists_, err2, w2) := existsAddressOnChain addr w1 in
          let ev2 := ev1 ++ [CallExistsAddressOnChain addr] in
          match err2 with
          | Some e => (WalkFailed e window, w2, ev2)
          | None =>
              if exists_ then (WalkLeft actualLastIndex window, w2, ev2)
              else keep w2 ev2
          end
      end
  end.

(** The end of [initialize] once the walk is over: a failed lookup or
    chain query is returned, the use of a nil address panics, and otherwise
    the index is set to the last index the walk stood at, the cursor to 0
    and the pool is started. *)
Definition afterWalk (a : addressPool) (r : walked)
  : outcome (option error) * addressPool * list Event :=
  match r with
  | WalkFailed e window => (Returned (Some e), set_addresses a window, [])
  | WalkPanicked window =>
      (Panicked "nil pointer dereference", set_addresses a window, [])
  | WalkLeft actualLastIndex window =>
      (Returned None,
       set_started
         (set_cursor (set_index (set_addresses a window) actualLastIndex) 0)
         true,
       [LogInfof "Last actual index on pool branch %v start: %v"])
  end.

(** [initialize] from "Get the last managed address for the account and
    branch" on, with the stored next-to-use address of the branch at
    hand. *)
Definition loadWindow (a : addressPool) (lastSavedAddr : option Address)
    (branch : Z) (reuse : bool) (w1 : W)
  : outcome (option error) * addressPool * W * list Event :=
  let '(lastIndex, err, w2, ev2) := getLastAddressIndex branch w1 in
  match lastIndex =? 0, err with
  | true, None =>
      (* Handle the case that the wallet is newly initialized. *)
      (Returned None, set_started (set_cursor (set_index a 0) 0) true,
       w2, ev2)
  | _, _ =>
      let '(r, w3, ev3) :=
        walk reuse lastSavedAddr branch (Z.to_nat addressPoolBuffer)
             lastIndex [] w2 in
      let '(res, a', ev4) := afterWalk a r in
      (res, a', w3, ev2 ++ ev3 ++ ev4)
  end.

(** initialize initializes an address pool for usage by loading the latest
    unused address from the blockchain itself. *)
Definition initialize (a : addressPool) (branch : Z) (wl : Wallet) (w : W)
  : outcome (option error) * addressPool * W * list Event :=
  (* Do not reinitialize an address pool that was already started. *)
  if started a then (Returned None, a, w, [])
  else
    let a := set_branch (set_mutex (set_addresses a []) (Some NewMutex))
                        branch in
    (* Retrieve the next to use addresses from wallet closing and storing. *)
    let '(lastExtAddr, lastIntAddr, err, w1) := NextToUseAddresses w in
    match err with
    | Some e => (Returned (Some e), a, w1, [CallNextToUseAddresses])
    | None =>
      let lastSaved :=
        if branch =? ExternalBranch then Some lastExtAddr
        else if branch =? InternalBranch then Some lastIntAddr
        else None in
      match lastSaved with
      | None =>
          (Returned (Some (Errorf
             "unknown branch %v for wallet default account given" [branch])),
           a, w1, [CallNextToUseAddresses])
      | Some lastSavedAddr =>
          let '(res, a', w', ev) :=
            loadWindow a lastSavedAddr branch (addressReuse wl) w1 in
          (res, a', w', CallNextToUseAddresses :: ev)
      end
    end.

(** *** GetNewAddress *)

(** The replenishment block of [GetNewAddress]:
    [if a.cursor == len(a.addresses)-1 || len(a.addresses) == 0 { ... }].
    Gives the error the block returns with, if any. *)
Definition needsReplenish (a : addressPool) : bool :=
  (cursor a =? len (addresses a) - 1) || (len (addresses a) =? 0).

Definition replenish (a : addressPool) (w : W)
  : option error * addressPool * W * list Event :=
  if needsReplenish a then
    let nextAddrFunc :=
      if branch a =? InternalBranch then Some NextInternalAddresses
      else if branch a =? ExternalBranch then Some NextExternalAddresses
      else None in
    match nextAddrFunc with
    | None =>
        (Some (Errorf "unknown default account branch %v" [branch a]),
         a, w, [])
    | Some f =>
        let '(addrs, err, w1) := f DefaultAccountNum addressPoolBuffer w in
        let ev :=
          [CallNextAddresses (branch a) DefaultAccountNum addressPoolBuffer
                             addrs err] in
        match err with
        | Some e => (Some e, a, w1, ev)
        | None =>
            (None,
             set_addresses a
               (addresses a ++
                map (fun addr => EncodeAddress (maAddress addr)) addrs),
             w1, ev)
        end
    end
  else (None, a, w, []).

(** GetNewAddress must be run as many times as necessary with the address
    pool mutex locked.  Each time, it returns a single new address.  If the
    address pool runs out of addresses, it generates more from the address
    manager.

    [a.cursor++] cannot overflow: it follows the bounds-checked read
    [a.addresses[a.cursor]], so [cursor < len(addresses)]. *)
Definition GetNewAddress (a : addressPool) (w : W)
  : outcome (option Address + error) * addressPool * W * list Event :=
  if negb (started a) then
    (Returned (inr (Errorf "failed to GetNewAddress; pool not started" [])),
     a, w, [])
  else
    let '(err, a1, w1, ev1) := replenish a w in
    match err with
    | Some e => (Returned (inr e), a1, w1, ev1)
    | None =>
      match at_index (addresses a1) (cursor a1) with
      | None => (Panicked "index out of range", a1, w1, ev1)
      | Some curAddressStr =>
          let curAddress := DecodeAddress curAddressStr in
          let a2 := set_index (set_cursor a1 (cursor a1 + 1))
                              (uint32 (index a1 + 1)) in
          let ev2 :=
            ev1 ++ [LogInfof "Get new address for branch %v returned %s (idx %v)"] in
          let '(err, w2) := NotifyReceived [curAddress] w1 in
          let ev3 := ev2 ++ [CallNotifyReceived [curAddress] err] in
          match err with
          | Some e => (Returned (inr e), a2, w2, ev3)
          | None => (Returned (inl curAddress), a2, w2, ev3)
          end
      end
    end.

(** *** BatchFinish *)

(** BatchFinish must be run after every successful series of usages of
    GetNewAddress to purge the addresses from the unused map.  It has no
    result. *)
Definition BatchFinish (a : addressPool) (w : W)
  : outcome unit * addressPool * W * list Event :=
  if len (addresses a) <=? cursor a then
    (Returned tt, set_cursor (set_addresses a []) 0, w, [])
  else
    let '(addr, err, w1) :=
      GetAddress (uint32 (index a + 1)) DefaultAccountNum (branch a) w in
    let ev1 :=
      CallGetAddress (uint32 (index a + 1)) DefaultAccountNum (branch a)
                     addr err ::
      match err with
      | Some _ =>
          [LogErrorf "Encountered unexpected error when trying to get the next to use address for branch %v, index %v"]
      | None => []
      end in
    let '(w2, ev2) :=
      if branch a =? ExternalBranch then
        let '(err, w2) := StoreNextToUseAddresses addr None w1 in
        (w2,
         CallStoreNextToUseAddresses addr None err ::
         match err with
         | Some _ =>
             [LogErrorf "Failed to store next to use address for external pool in the manager on batch finish: %v"]
         | None => []
         end)
      else if branch a =? InternalBranch then
        let '(err, w2) := StoreNextToUseAddresses None addr w1 in
        (w2,
         CallStoreNextToUseAddresses None addr err ::
         match err with
         | Some _ =>
             [LogErrorf "Failed to store next to use address for internal pool in the manager on batch finish: %v"]
         | None => []
         end)
      else (w1, []) in
    if cursor a <? 0 then
      (Panicked "slice bounds out of range", a, w2, ev1 ++ ev2)
    else
      (Returned tt,
       set_cursor
         (set_addresses a (skipn (Z.to_nat (cursor a)) (addresses a))) 0,
       w2, ev1 ++ ev2).

(** *** BatchRollback *)

(** BatchRollback must be run after every unsuccessful series of usages of
    GetNewAddress to restore the cursor to the original position in the
    slice, thus marking all addresses unused again. *)
Definition BatchRollback (a : addressPool)
  : addressPool * list Event :=
  (set_cursor (set_index a (uint32 (index a - uint32 (cursor a)))) 0,
   [LogInfof "Batch rollback for branch %v to idx %v"]).

(** *** CloseAddressPools *)

(** The two deferred unlocks, in the order they run. *)
Definition deferredUnlocks : list Event :=
  [MutexUnlock ExternalPool; MutexUnlock InternalPool].

(** CloseAddressPools grabs one last new address for both internal and
    external acounts.  Then it inserts them into the address manager
    database, so that the address manager can be used upon startup to
    restore the cursor position in the address pool. *)
Definition CloseAddressPools (wl : Wallet) (w : W)
  : outcome unit * Wallet * W * list Event :=
  match internalPool wl, externalPool wl with
  | None, _ => (Returned tt, wl, w, [])
  | _, None => (Returned tt, wl, w, [])
  | Some ip, Some ep =>
    if negb (started ip) || negb (started ep) then (Returned tt, wl, w, [])
    else
      match mutex ip, mutex ep with
      | None, _ => (Returned tt, wl, w, [])
      | _, None => (Returned tt, wl, w, [])
      | Some _, Some _ =>
        let ev0 := [MutexLock InternalPool; MutexLock ExternalPool] in
        let '(r1, ep1, w1, ev1) := GetNewAddress ep w in
        let wl1 := mkWallet (Some ep1) (Some ip) (addressReuse wl) in
        match r1 with
        | Panicked why =>
            (Panicked why, wl1, w1, ev0 ++ ev1 ++ deferredUnlocks)
        | Returned (inr _) =>
            (Returned tt, wl1, w1,
             ev0 ++ ev1 ++
             [LogErrorf "Failed to get next to use address for address pool external: %v"] ++
             deferredUnlocks)
        | Returned (inl nextExtAddr) =>
          let '(r2, ip2, w2, ev2) := GetNewAddress ip w1 in
          let wl2 := mkWallet (Some ep1) (Some ip2) (addressReuse wl) in
          match r2 with
          | Panicked why =>
              (Panicked why, wl2, w2, ev0 ++ ev1 ++ ev2 ++ deferredUnlocks)
          | Returned (inr _) =>
              (Returned tt, wl2, w2,
               ev0 ++ ev1 ++ ev2 ++
               [LogErrorf "Failed to get next to use address for address pool internal: %v"] ++
               deferredUnlocks)
          | Returned (inl nextIntAddr) =>
            let '(err, w3) :=
              StoreNextToUseAddresses nextExtAddr nextIntAddr w2 in
            (Returned tt, wl2, w3,
             ev0 ++ ev1 ++ ev2 ++
             CallStoreNextToUseAddresses nextExtAddr nextIntAddr err ::
             match err with
             | Some _ =>
                 [LogErrorf "Failed to store next to use addresses for address pools in the manager: %v"]
             | None => []
             end ++ deferredUnlocks)
          end
        end
      end
  end.

(** GetNewAddressExternal is the exported function that gets a new
    external address for the default account from the external address
    mempool. *)
Definition GetNewAddressExternal (wl : Wallet) (w : W)
  : outcome (option Address + error) * Wallet * W * list Event :=
  match externalPool wl with
  | None => (Panicked "nil pointer dereference", wl, w, [])
  | Some ep =>
    match mutex ep with
    | None => (Panicked "nil pointer dereference", wl, w, [])
    | Some _ =>
        let '(r, ep1, w1, ev) := GetNewAddress ep w in
        (r, mkWallet (Some ep1) (internalPool wl) (addressReuse wl), w1,
         [MutexLock ExternalPool] ++ ev ++ [MutexUnlock ExternalPool])
    end
  end.

(** GetNewAddressInternal is the exported function that gets a new
    internal address for the default account from the internal address
    mempool. *)
Definition GetNewAddressInternal (wl : Wallet) (w : W)
  : outcome (option Address + error) * Wallet * W * list Event :=
  match internalPool wl with
  | None => (Panicked "nil pointer dereference", wl, w, [])
  | Some ip =>
    match mutex ip with
    | None => (Panicked "nil pointer dereference", wl, w, [])
    | Some _ =>
        let '(r, ip1, w1, ev) := GetNewAddress ip w in
        (r, mkWallet (externalPool wl) (Some ip1) (addressReuse wl), w1,
         [MutexLock InternalPool] ++ ev ++ [MutexUnlock InternalPool])
    end
  end.

(** ** Runs of a pool *)

(** One call on a pool.  Between two calls the collaborators may have been
    used by others (the other pool, the rest of the wallet), so every call
    comes with the state it finds them in. *)
Inductive Op : Type :=
  | DoInitialize (branch : Z) (wl : Wallet) (w : W)
  | DoGetNewAddress (w : W)
  | DoBatchFinish (w : W)
  | DoBatchRollback.

(** The pool after one call, the address the call returned to its caller
    (for a [GetNewAddress] that succeeds) and the events of the call. *)
Definition exec1 (a : addressPool) (op : Op)
  : addressPool * list (option Address) * list Event :=
  match op with
  | DoInitialize br wl w =>
      let '(_, a1, _, ev) := initialize a br wl w in (a1, [], ev)
  | DoGetNewAddress w =>
      let '(r, a1, _, ev) := GetNewAddress a w in
      (a1, match r with Returned (inl x) => [x] | _ => [] end, ev)
  | DoBatchFinish w =>
      let '(_, a1, _, ev) := BatchFinish a w in (a1, [], ev)
  | DoBatchRollback =>
      let '(a1, ev) := BatchRollback a in (a1, [], ev)
  end.

Fixpoint exec (a : addressPool) (ops : list Op)
  : addressPool * list (option Address) * list Event :=
  match ops with
  | [] => (a, [], [])
  | op :: ops' =>
      let '(a1, got1, ev1) := exec1 a op in
      let '(a2, got2, ev2) := exec a1 ops' in
      (a2, got1 ++ got2, ev1 ++ ev2)
  end.

(** A batch of calls of [GetNewAddress] that all succeed: the addresses
    returned, in order, the pool after the last call and the events of the
    batch; nothing if one of the calls fails or panics. *)
Fixpoint allocate (a : addressPool) (ws : list W)
  : option (list (option Address) * addressPool * list Event) :=
  match ws with
  | [] => Some ([], a, [])
  | w :: ws' =>
      match GetNewAddress a w with
      | (Returned (inl x), a1, _, ev1) =>
          match allocate a1 ws' with
          | Some (got, a2, ev2) => Some (x :: got, a2, ev1 ++ ev2)
          | None => None
          end
      | _ => None
      end
  end.

(** The pools a program can hold: a new pool, and what the methods make
    of it. *)
Inductive reachable : addressPool -> Prop :=
  | reachable_new : reachable NewAddressPool
  | reachable_step a op : reachable a -> reachable (fst (fst (exec1 a op))).

(** The address strings the manager handed over in answer to the
    replenishment requests among the events. *)
Fixpoint delivered (ev : list Event) : list string :=
  match ev with
  | [] => []
  | CallNextAddresses _ _ _ addrs None :: ev' =>
      map (fun addr => EncodeAddress (maAddress addr)) addrs ++ delivered ev'
  | _ :: ev' => delivered ev'
  end.

End Pool.

(** ** Reading the events *)

Definition isReplenishment (e : Event) : bool :=
  match e with CallNextAddresses _ _ _ _ _ => true | _ => false end.

Definition isFailedCall (e : Event) : bool :=
  match e with
  | CallGetAddress _ _ _ _ (Some _) => true
  | CallNextAddresses _ _ _ _ (Some _) => true
  | CallStoreNextToUseAddresses _ _ (Some _) => true
  | CallNotifyReceived _ (Some _) => true
  | _ => false
  end.

Definition isLogErrorf (e : Event) : bool :=
  match e with LogErrorf _ => true | _ => false end.

Definition isStore (e : Event) : bool :=
  match e with CallStoreNextToUseAddresses _ _ _ => true | _ => false end.

Definition isNotify (e : Event) : bool :=
  match e with CallNotifyReceived _ _ => true | _ => false end.

(** The derivation indices looked up by [GetAddress], in order. *)
Fixpoint visited (ev : list Event) : list Z :=
  match ev with
  | [] => []
  | CallGetAddress i _ _ _ _ :: ev' => i :: visited ev'
  | _ :: ev' => visited ev'
  end.

(** ** Locks *)

Inductive LockAction : Type :=
  | Acquire (p : PoolId)
  | Release (p : PoolId).

(** What a call does to the two pool mutexes, in order. *)
Fixpoint lockActions (ev : list Event) : list LockAction :=
  match ev with
  | [] => []
  | MutexLock p :: ev' => Acquire p :: lockActions ev'
  | MutexUnlock p :: ev' => Release p :: lockActions ev'
  | _ :: ev' => lockActions ev'
  end.

Definition PoolId_eqb (p q : PoolId) : bool :=
  match p, q with
  | ExternalPool, ExternalPool | InternalPool, InternalPool => true
  | _, _ => false
  end.

(** Goroutines running calls of this file side by side: what each still
    has to do to the mutexes, and which goroutine holds which mutex. *)
Record Goroutines : Type := mkGoroutines {
  todo : nat -> list LockAction;
  holder : PoolId -> option nat
}.

Definition advance (g : Goroutines) (i : nat) (rest : list LockAction)
    (p : PoolId) (h : option nat) : Goroutines :=
  mkGoroutines
    (fun j => if Nat.eqb j i then rest else todo g j)
    (fun q => if PoolId_eqb q p then h else holder g q).

(** [Lock] proceeds when the mutex is free, and blocks otherwise;
    [Unlock] is done by the goroutine that holds the mutex. *)
Inductive lockStep : Goroutines -> Goroutines -> Prop :=
  | step_Lock g i p rest :
      todo g i = Acquire p :: rest ->
      holder g p = None ->
      lockStep g (advance g i rest p (Some i))
  | step_Unlock g i p rest :
      todo g i = Release p :: rest ->
      holder g p = Some i ->
      lockStep g (advance g i rest p None).

Inductive lockSteps : Goroutines -> Goroutines -> Prop :=
  | lockSteps_refl g : lockSteps g g
  | lockSteps_step g1 g2 g3 :
      lockSteps g1 g2 -> lockStep g2 g3 -> lockSteps g1 g3.

(** Goroutines are stuck when one of them has something left to do and
    none can move. *)
Definition deadlocked (g : Goroutines) : Prop :=
  (exists i, todo g i <> []) /\ forall g', ~ lockStep g g'.

(** ** A reference wallet *)

Module Ref.

(** Modelled from the spec: the Address Derivation Source, the Chain Usage
    Oracle and the Notification Sink are collaborators outside the sources
    at hand.  Derivation is deterministic: an address is fixed by its
    branch and derivation index, the source derives the indices of a branch
    in increasing order and remembers how many it has derived, it fails
    when the key store is locked, it keeps the next-to-use pair, of which a
    nil side is left unchanged by a store, and the sink records what it is
    told to watch. *)
Record World : Type := mkWorld {
  derivedExt : Z;
  derivedInt : Z;
  nextExt : option Address;
  nextInt : option Address;
  onChain : list string;
  watched : list (option Address);
  locked : bool;
  readOnly : bool;
  offline : bool
}.

(** The address that a string encodes; its hash is the bytes of the
    string, so that two addresses have the same hash only when they are
    the same. *)
Definition addressOf (s : string) : Address :=
  mkAddress s (list_byte_of_string s).

(** The address at a derivation index of a branch: [E] or [I] followed by
    the index. *)
Definition addressAt (branch i : Z) : Address :=
  addressOf ((if branch =? ExternalBranch then "E" else "I") ++
             NilZero.string_of_int (Z.to_int i)).

(** [count] addresses of a branch, from index [from] on. *)
Definition derive (branch from count : Z) : list ManagedAddress :=
  map (fun k => mkManaged (addressAt branch (from + Z.of_nat k)))
      (seq 0 (Z.to_nat count)).

(** The index of the last address derived, or [ErrAddressNotFound] when
    there is none. *)
Definition lastAddress (derived : Z) (w : World)
  : Z * option error * World :=
  if derived =? 0 then (0, Some (ManagerError ErrAddressNotFound), w)
  else (derived - 1, None, w).

(** A nil side of a store leaves the stored side as it is. *)
Definition keep (new old : option Address) : option Address :=
  match new with Some _ => new | None => old end.

(** Modelled from the spec: the consumed capabilities of the pool
    (derive the next addresses of a branch, last derived index, address at
    an index, next-to-use pair and its store, chain history of an address,
    watch notification), none of which is part of the sources at hand. *)
#[export] Instance services : Services World := {
  NextToUseAddresses w := (nextExt w, nextInt w, None, w);
  LastExternalAddress _ w := lastAddress (derivedExt w) w;
  LastInternalAddress _ w := lastAddress (derivedInt w) w;
  GetAddress i _ br w :=
    if locked w then (None, Some (ManagerError (ErrCode 1)), w)
    else (Some (addressAt br i), None, w);
  NextExternalAddresses _ n w :=
    if locked w then ([], Some (ManagerError (ErrCode 1)), w)
    else (derive ExternalBranch (derivedExt w) n, None,
          mkWorld (derivedExt w + n) (derivedInt w) (nextExt w) (nextInt w)
                  (onChain w) (watched w) (locked w) (readOnly w)
                  (offline w));
  NextInternalAddresses _ n w :=
    if locked w then ([], Some (ManagerError (ErrCode 1)), w)
    else (derive InternalBranch (derivedInt w) n, None,
          mkWorld (derivedExt w) (derivedInt w + n) (nextExt w) (nextInt w)
                  (onChain w) (watched w) (locked w) (readOnly w)
                  (offline w));
  StoreNextToUseAddresses ext int w :=
    if readOnly w then (Some (OtherError "store is read-only"), w)
    else (None,
          mkWorld (derivedExt w) (derivedInt w) (keep ext (nextExt w))
                  (keep int (nextInt w)) (onChain w) (watched w) (locked w)
                  (readOnly w) (offline w));
  existsAddressOnChain addr w :=
    (match addr with
     | Some x => existsb (String.eqb (EncodeAddress x)) (onChain w)
     | None => false
     end, None, w);
  NotifyReceived addrs w :=
    if offline w then (Some (OtherError "chain server is offline"), w)
    else (None,
          mkWorld (derivedExt w) (derivedInt w) (nextExt w) (nextInt w)
                  (onChain w) (watched w ++ addrs) (locked w) (readOnly w)
                  (offline w));
  DecodeAddress s := Some (addressOf s)
}.

(** A wallet that has derived [ext] external and [int] internal addresses
    and whose stored next-to-use pair is [ne], [ni]. *)
Definition world (ext int : Z) (ne ni : option Address) : World :=
  mkWorld ext int ne ni [] [] false false false.

(** A started, empty pool of a branch, as [initialize] leaves it on a new
    wallet. *)
Definition freshPool (br : Z) : addressPool :=
  mkPool [] 0 br 0 true (Some NewMutex).

Definition wallet (ep ip : addressPool) : Wallet :=
  mkWallet (Some ep) (Some ip) false.

End Ref.

(** * Wallet setup (walletsetup.go)

    The functions that create a wallet: one-shot sequences of calls to the
    operating system, the prompts, the legacy key store, the wallet
    loader, the wallet database and the managers.  All of these are
    collaborators outside the sources at hand; they appear as an
    interface over an abstract state, as for the pool, and every function
    gives back what it returns, the state afterwards and what it did, in
    order.  Handles of opened objects are opaque. *)

Module Setup.

Inductive Handle : Type := handle (id : Z).

(** The fields of [chaincfg.Params] that this file reads. *)
Record Params : Type := mkParams {
  Name : string;
  Net : Z;
  GenesisHash : string
}.

Record BlockStamp : Type := mkBlockStamp {
  Height : Z;
  Hash : string
}.

(** An active address of the legacy key store, by its dynamic type: a
    [keystore.PubKeyAddress] with what [PrivKey()] gives, a
    [keystore.ScriptAddress] with its script, or any other type. *)
Inductive WalletAddress : Type :=
  | PubKeyAddress (addr : string) (privKey : string + error)
  | ScriptAddress (addr : string) (script : string)
  | UnknownAddress (addr : string).

(** What [os.Stat] gives: file information, an error for which
    [os.IsNotExist] holds, or another error. *)
Inductive StatResult : Type :=
  | StatOk (isDir : bool)
  | StatNotExist (e : error)
  | StatError (e : error).

(** The fields of [config] that this file reads in the functions embedded
    here. *)
Record config : Type := mkConfig {
  DataDir : string;
  WalletPass : string;
  UnsafeMainNet : bool
}.

(** Namespace keys and the simulation passphrase. *)
Definition waddrmgrNamespaceKey : string := "waddrmgr".
Definition wtxmgrNamespaceKey : string := "wtxmgr".
Definition wstakemgrNamespaceKey : string := "wstakemgr".
Definition simulationPassphrase : string := "password".

(** The collaborators of the setup functions over their state [S], with
    the constants of other packages and files that the functions use
    ([wire.TestNet], [wallet.InsecurePubPassphrase],
    [hdkeychain.RecommendedSeedLen], [keystore.Filename], [walletDbName])
    and the active network. *)
Class Services (S : Type) : Type := {
  TestNet : Z;
  InsecurePubPassphrase : string;
  RecommendedSeedLen : Z;
  keystoreFilename : string;
  walletDbName : string;
  activeNet : Params;
  (* path/filepath, strings, os, io/ioutil, bufio *)
  Join : string -> string -> string;
  TrimSpace : string -> string;
  Stat : string -> S -> StatResult * S;
  Remove : string -> S -> option error * S;
  WriteFile : string -> string -> Z -> S -> option error * S;
  ReadString : S -> string * option error * S;
  (* the legacy key store *)
  OpenDir : string -> S -> Handle * option error * S;
  KeystoreNet : Handle -> Params;
  ActiveAddresses : Handle -> S -> list WalletAddress;
  KeystoreUnlock : Handle -> string -> S -> option error * S;
  KeystoreLock : Handle -> S -> S;
  (* dcrutil, hdkeychain, pgpwordlist *)
  NewWIF : string -> Params -> string + error;
  GenerateSeed : Z -> S -> string * option error * S;
  ToStringChecksum : string -> string * option error;
  (* the prompts *)
  PrivatePass : option Handle -> S -> string * option error * S;
  PublicPass : string -> string -> string -> S -> string * option error * S;
  Seed : S -> string * bool * option error * S;
  (* the loader and the wallet it creates *)
  RunAfterLoad : S -> S;
  CreateNewWallet :
    string -> string -> string -> S -> Handle * option error * S;
  ManagerClose : Handle -> S -> S;
  ManagerUnlock : Handle -> string -> S -> option error * S;
  ManagerLock : Handle -> S -> S;
  ImportPrivateKey : Handle -> string -> BlockStamp -> S -> option error * S;
  ImportScript : Handle -> string -> BlockStamp -> S -> option error * S;
  (* walletdb, waddrmgr, wstakemgr *)
  DbCreate : string -> string -> S -> Handle * option error * S;
  DbClose : Handle -> S -> S;
  DbNamespace : Handle -> string -> S -> Handle * option error * S;
  MgrCreate :
    Handle -> string -> string -> string -> Params -> bool -> S ->
    Handle * option error * S;
  MgrCreateWatchOnly :
    Handle -> string -> string -> Params -> S -> Handle * option error * S;
  StakeCreate : Handle -> Handle -> Params -> S -> Handle * option error * S;
  StakeClose : Handle -> S -> S
}.

(** What a setup function does, in order. *)
Inductive Did : Type :=
  | Printed (s : string)
  | Stated (path : string)
  | OpenedKeystore (dir : string) (err : option error)
  | AskedPrivatePass (legacy : bool) (err : option error)
  | AskedPublicPass (err : option error)
  | AskedSeed (err : option error)
  | AskedPublicKey (err : option error)
  | UnlockedKeystore (err : option error)
  | LockedKeystore
  | MadeLoader (dbDir : string)
  | RegisteredImport (keystorePath : string)
  | CreatedWallet (pubPass privPass seed : string) (err : option error)
  | ClosedWalletManager
  | UnlockedManager (err : option error)
  | LockedManager
  | ImportedPrivateKey (addr : string) (stamp : BlockStamp)
      (err : option error)
  | ImportedScript (addr : string) (stamp : BlockStamp) (err : option error)
  | Removed (path : string) (err : option error)
  | GeneratedSeed (len : Z) (err : option error)
  | WroteFile (path content : string) (perm : Z) (err : option error)
  | CreatedDb (path : string) (err : option error)
  | ClosedDb
  | OpenedNamespace (key : string) (err : option error)
  | CreatedManager (seed pubPass privPass : string) (err : option error)
  | CreatedWatchOnlyManager (pubKey pubPass : string) (err : option error)
  | ClosedManager
  | CreatedStakeStore (err : option error)
  | ClosedStakeStore.

Section Functions.

Context {S : Type} `{Services S}.

(** networkDir returns the directory name of a network directory to hold
    wallet files. *)
Definition networkDir (dataDir : string) (chainParams : Params) : string :=
  let netname :=
    if Net chainParams =? TestNet then "testnet" else Name chainParams in
  Join dataDir netname.

(** The body of the loop of [convertLegacyKeystore] for one address: the
    event of the import it attempts, if it gets that far, and the warning
    it prints when a step fails. *)
Definition convertAddress (manager : Handle) (netParams : Params)
    (blockStamp : BlockStamp) (walletAddr : WalletAddress) (s : S)
  : S * list Did :=
  match walletAddr with
  | PubKeyAddress addr privKey =>
      match privKey with
      | inr _ =>
          (s, [Printed "WARN: Failed to obtain private key for address %v: %v\n"])
      | inl key =>
          match NewWIF key netParams with
          | inr _ =>
              (s, [Printed "WARN: Failed to create wallet import format for address %v: %v\n"])
          | inl wif =>
              let '(err, s1) := ImportPrivateKey manager wif blockStamp s in
              (s1,
               ImportedPrivateKey addr blockStamp err ::
               match err with
               | Some _ =>
                   [Printed "WARN: Failed to import private key for address %v: %v\n"]
               | None => []
               end)
          end
      end
  | ScriptAddress addr script =>
      let '(err, s1) := ImportScript manager script blockStamp s in
      (s1,
       ImportedScript addr blockStamp err ::
       match err with
       | Some _ =>
           [Printed "WARN: Failed to import pay-to-script-hash script for address %v: %v\n"]
       | None => []
       end)
  | UnknownAddress _ =>
      (s, [Printed "WARN: Skipping unrecognized legacy keystore type: %T\n"])
  end.

Fixpoint convertAddresses (manager : Handle) (netParams : Params)
    (blockStamp : BlockStamp) (addrs : list WalletAddress) (s : S)
  : S * list Did :=
  match addrs with
  | [] => (s, [])
  | walletAddr :: addrs' =>
      let '(s1, ev1) :=
        convertAddress manager netParams blockStamp walletAddr s in
      let '(s2, ev2) :=
        convertAddresses manager netParams blockStamp addrs' s1 in
      (s2, ev1 ++ ev2)
  end.

(** convertLegacyKeystore converts all of the addresses in the passed
    legacy key store to the new waddrmgr.Manager format. *)
Definition convertLegacyKeystore (legacyKeyStore manager : Handle) (s : S)
  : option error * S * list Did :=
  let netParams := KeystoreNet legacyKeyStore in
  let blockStamp := mkBlockStamp 0 (GenesisHash netParams) in
  let '(s1, ev) :=
    convertAddresses manager netParams blockStamp
                     (ActiveAddresses legacyKeyStore s) s in
  (None, s1, ev).

(** The function that [createWallet] hands to [loader.RunAfterLoad], with
    the key store, the passphrase and the path it captures; [manager] is
    the manager of the wallet it is run on. *)
Definition importLegacyKeys (legacyKeyStore : Handle) (privPass : string)
    (keystorePath : string) (manager : Handle) (s : S) : S * list Did :=
  let ev0 := [Printed "Importing addresses from existing wallet..."] in
  let '(err, s1) := ManagerUnlock manager privPass s in
  match err with
  | Some _ =>
      (KeystoreLock legacyKeyStore s1,
       ev0 ++ [UnlockedManager err;
               Printed "ERR: Failed to unlock new wallet during old wallet key import: %v";
               LockedKeystore])
  | None =>
      let '(err2, s2, ev2) := convertLegacyKeystore legacyKeyStore manager s1 in
      match err2 with
      | Some _ =>
          (KeystoreLock legacyKeyStore (ManagerLock manager s2),
           ev0 ++ [UnlockedManager None] ++ ev2 ++
           [Printed "ERR: Failed to import keys from old wallet format: %v";
            LockedManager; LockedKeystore])
      | None =>
          (* Remove the legacy key store. *)
          let '(err3, s3) := Remove keystorePath s2 in
          (KeystoreLock legacyKeyStore (ManagerLock manager s3),
           ev0 ++ [UnlockedManager None] ++ ev2 ++
           Removed keystorePath err3 ::
           match err3 with
           | Some _ =>
               [Printed "WARN: Failed to remove legacy wallet from'%s'\n"]
           | None => []
           end ++ [LockedManager; LockedKeystore])
      end
  end.

(** createWallet prompts the user for information needed to generate a
    new wallet and generates the wallet accordingly.  The bool passed back
    gives whether or not the wallet was restored from seed, while the
    []byte passed (nil on an error) is the private password. *)
Definition createWallet (cfg : config) (s : S)
  : bool * option string * option error * S * list Did :=
  let createWalletError (e : error) (s' : S) (ev : list Did) :=
    (false, None, Some e, s', ev) in
  let dbDir := networkDir (DataDir cfg) activeNet in
  let ev0 := [MadeLoader dbDir] in
  let netDir := networkDir (DataDir cfg) activeNet in
  let keystorePath := Join netDir keystoreFilename in
  let '(st, s1) := Stat keystorePath s in
  let ev1 := ev0 ++ [Stated keystorePath] in
  (* everything after the legacy key store was looked for *)
  let continue (legacyKeyStore : option Handle) (s2 : S) (ev2 : list Did) :=
    let '(privPass, err, s3) := PrivatePass legacyKeyStore s2 in
    let ev3 :=
      ev2 ++ [AskedPrivatePass
                match legacyKeyStore with Some _ => true | None => false end
                err] in
    match err with
    | Some e => createWalletError e s3 ev3
    | None =>
      let unlocked :=
        match legacyKeyStore with
        | None => (None, s3, ev3)
        | Some ks =>
            let '(err, s4) := KeystoreUnlock ks privPass s3 in
            match err with
            | Some e => (Some e, s4, ev3 ++ [UnlockedKeystore err])
            | None =>
                (None, RunAfterLoad s4,
                 ev3 ++ [UnlockedKeystore None;
                         RegisteredImport keystorePath])
            end
        end in
      let '(err, s5, ev5) := unlocked in
      match err with
      | Some e => createWalletError e s5 ev5
      | None =>
        let '(pubPass, err, s6) :=
          PublicPass privPass InsecurePubPassphrase (WalletPass cfg) s5 in
        let ev6 := ev5 ++ [AskedPublicPass err] in
        match err with
        | Some e => createWalletError e s6 ev6
        | None =>
          let '(seed, restored, err, s7) := Seed s6 in
          let ev7 := ev6 ++ [AskedSeed err] in
          match err with
          | Some e => createWalletError e s7 ev7
          | None =>
            let '(w, err, s8) := CreateNewWallet pubPass privPass seed s7 in
            let ev8 :=
              ev7 ++ [Printed "Creating the wallet...";
                      CreatedWallet pubPass privPass seed err] in
            match err with
            | Some e => createWalletError e s8 ev8
            | None =>
                (restored, Some privPass, None, ManagerClose w s8,
                 ev8 ++ [ClosedWalletManager;
                         Printed "The wallet has been created successfully."])
            end
          end
        end
      end
    end in
  match st with
  | StatError e => createWalletError e s1 ev1
  | StatOk _ =>
      (* Keystore file exists. *)
      let '(ks, err, s2) := OpenDir netDir s1 in
      let ev2 := ev1 ++ [OpenedKeystore netDir err] in
      match err with
      | Some e => createWalletError e s2 ev2
      | None => continue (Some ks) s2 ev2
      end
  | StatNotExist _ => continue None s1 ev1
  end.

(** createSimulationWallet is intended to be called from the rpcclient and
    used to create a wallet for actors involved in simulations.  The
    deferred [Close] calls run, last first, on every return that follows
    them. *)
Definition createSimulationWallet (cfg : config) (s : S)
  : option error * S * list Did :=
  let privPass := simulationPassphrase in
  let pubPass := InsecurePubPassphrase in
  let '(seed, err, s1) := GenerateSeed RecommendedSeedLen s in
  let ev1 := [GeneratedSeed RecommendedSeedLen err] in
  match err with
  | Some e => (Some e, s1, ev1)
  | None =>
    let netDir := networkDir (DataDir cfg) activeNet in
    let '(seedStr, err) := ToStringChecksum seed in
    match err with
    | Some e => (Some e, s1, ev1)
    | None =>
      let '(err, s2) := WriteFile (Join netDir "seed") seedStr 420 s1 in
      let ev2 := ev1 ++ [WroteFile (Join netDir "seed") seedStr 420 err] in
      match err with
      | Some e => (Some e, s2, ev2)
      | None =>
        let dbPath := Join netDir walletDbName in
        let '(db, err, s3) := DbCreate "bdb" dbPath s2 in
        let ev3 :=
          ev2 ++ [Printed "Creating the wallet..."; CreatedDb dbPath err] in
        match err with
        | Some e => (Some e, s3, ev3)
        | None =>
          let '(ns, err, s4) := DbNamespace db waddrmgrNamespaceKey s3 in
          let ev4 := ev3 ++ [OpenedNamespace waddrmgrNamespaceKey err] in
          match err with
          | Some e => (Some e, DbClose db s4, ev4 ++ [ClosedDb])
          | None =>
            let '(manager, err, s5) :=
              MgrCreate ns seed pubPass privPass activeNet
                        (UnsafeMainNet cfg) s4 in
            let ev5 := ev4 ++ [CreatedManager seed pubPass privPass err] in
            match err with
            | Some e => (Some e, DbClose db s5, ev5 ++ [ClosedDb])
            | None =>
              let '(ns2, err, s6) :=
                DbNamespace db wstakemgrNamespaceKey s5 in
              let ev6 := ev5 ++ [OpenedNamespace wstakemgrNamespaceKey err] in
              match err with
              | Some e =>
                  (Some e, DbClose db (ManagerClose manager s6),
                   ev6 ++ [ClosedManager; ClosedDb])
              | None =>
                let '(stakeStore, err, s7) :=
                  StakeCreate ns2 manager activeNet s6 in
                let ev7 := ev6 ++ [CreatedStakeStore err] in
                match err with
                | Some e =>
                    (Some e, DbClose db (ManagerClose manager s7),
                     ev7 ++ [ClosedManager; ClosedDb])
                | None =>
                    (None,
                     DbClose db
                       (ManagerClose manager (StakeClose stakeStore s7)),
                     ev7 ++
                     [Printed "The wallet has been created successfully.";
                      ClosedStakeStore; ClosedManager; ClosedDb])
                end
              end
            end
          end
        end
      end
    end
  end.

(** promptHDPublicKey prompts the user for an extended public key.  Its
    loop is left in its first iteration, by one of the two returns. *)
Definition promptHDPublicKey (s : S)
  : string * option error * S * list Did :=
  let '(keyString, err, s1) := ReadString s in
  let ev := [Printed "Enter HD wallet public key: "; AskedPublicKey err] in
  match err with
  | Some e => ("", Some e, s1, ev)
  | None => (TrimSpace keyString, None, s1, ev)
  end.

(** createWatchingOnlyWallet creates a watching only wallet using the
    passed extended public key. *)
Definition createWatchingOnlyWallet (cfg : config) (s : S)
  : option error * S * list Did :=
  let '(pubKeyString, err, s1, ev1) := promptHDPublicKey s in
  match err with
  | Some e => (Some e, s1, ev1)
  | None =>
    let '(pubPass, err, s2) :=
      PublicPass "" InsecurePubPassphrase (WalletPass cfg) s1 in
    let ev2 := ev1 ++ [AskedPublicPass err] in
    match err with
    | Some e => (Some e, s2, ev2)
    | None =>
      let netDir := networkDir (DataDir cfg) activeNet in
      let dbPath := Join netDir walletDbName in
      let '(db, err, s3) := DbCreate "bdb" dbPath s2 in
      let ev3 :=
        ev2 ++ [Printed "Creating the wallet..."; CreatedDb dbPath err] in
      match err with
      | Some e => (Some e, s3, ev3)
      | None =>
        let '(ns, err, s4) := DbNamespace db waddrmgrNamespaceKey s3 in
        let ev4 := ev3 ++ [OpenedNamespace waddrmgrNamespaceKey err] in
        match err with
        | Some e => (Some e, DbClose db s4, ev4 ++ [ClosedDb])
        | None =>
          let '(manager, err, s5) :=
            MgrCreateWatchOnly ns pubKeyString pubPass activeNet s4 in
          let ev5 := ev4 ++ [CreatedWatchOnlyManager pubKeyString pubPass err] in
          match err with
          | Some e => (Some e, DbClose db s5, ev5 ++ [ClosedDb])
          | None =>
            let '(ns2, err, s6) := DbNamespace db wstakemgrNamespaceKey s5 in
            let ev6 := ev5 ++ [OpenedNamespace wstakemgrNamespaceKey err] in
            match err with
            | Some e =>
                (Some e, DbClose db (ManagerClose manager s6),
                 ev6 ++ [ClosedManager; ClosedDb])
            | None =>
              let '(stakeStore, err, s7) :=
                StakeCreate ns2 manager activeNet s6 in
              let ev7 := ev6 ++ [CreatedStakeStore err] in
              match err with
              | Some e =>
                  (Some e, DbClose db (ManagerClose manager s7),
                   ev7 ++ [ClosedManager; ClosedDb])
              | None =>
                  (None,
                   DbClose db
                     (ManagerClose manager (StakeClose stakeStore s7)),
                   ev7 ++
                   [Printed "The watching only wallet has been created successfully.";
                    ClosedStakeStore; ClosedManager; ClosedDb])
              end
            end
          end
        end
      end
    end
  end.

End Functions.

End Setup.

(** * Properties *)

(** The four components of what a method gives back. *)
Definition result_of {A B C D : Type} (x : A * B * C * D) : A :=
  fst (fst (fst x)).
Definition pool_of {A B C D : Type} (x : A * B * C * D) : B :=
  snd (fst (fst x)).
Definition world_of {A B C D : Type} (x : A * B * C * D) : C :=
  snd (fst x).
Definition events_of {A B C D : Type} (x : A * B * C * D) : D :=
  snd x.

(** The pool once a batch is committed: the consumed prefix
    [addresses[0..cursor)] is gone and the cursor is back at 0. *)
Definition committed (a : addressPool) : addressPool :=
  set_cursor (set_addresses a (skipn (Z.to_nat (cursor a)) (addresses a))) 0.

(** [0 <= cursor <= len(addresses)] *)
Definition cursorInWindow (a : addressPool) : Prop :=
  0 <= cursor a <= len (addresses a).

(** ** The vocabulary of the properties *)

(** What the methods keep true of a pool: the cursor is inside the
    window, and a pool that is not started has not moved its cursor. *)
Definition poolInv (a : addressPool) : Prop :=
  cursorInWindow a /\ (started a = false -> cursor a = 0).

(** The derivation indices [lo], [lo+1], ..., [hi]. *)
Definition indices (lo hi : Z) : list Z :=
  map (fun k => lo + Z.of_nat k) (seq 0 (Z.to_nat (hi - lo + 1))).

Definition window_of (r : walked) : list string :=
  match r with
  | WalkLeft _ window | WalkFailed _ window | WalkPanicked window => window
  end.

(** The lookup made at index [j] of branch [br], answered by [addr]. *)
Definition lookup (br : Z) (addrAt : Z -> Address) (j : Z) : Event :=
  CallGetAddress j DefaultAccountNum br (Some (addrAt j)) None.

(** What [CloseAddressPools] does to the mutexes when it gets to them. *)
Definition closeLocks : list LockAction :=
  [Acquire InternalPool; Acquire ExternalPool;
   Release ExternalPool; Release InternalPool].

(** Every stage a goroutine running a call of this file can be at: what
    is left of the lock actions of [CloseAddressPools],
    [GetNewAddressExternal] or [GetNewAddressInternal]. *)
Definition stages : list (list LockAction) :=
  [ [];
    closeLocks;
    [Acquire ExternalPool; Release ExternalPool; Release InternalPool];
    [Release ExternalPool; Release InternalPool];
    [Release InternalPool];
    [Acquire ExternalPool; Release ExternalPool];
    [Release ExternalPool];
    [Acquire InternalPool; Release InternalPool] ].

Definition isAcquire (p : PoolId) (x : LockAction) : bool :=
  match x with Acquire q => PoolId_eqb q p | Release _ => false end.

Definition isRelease (p : PoolId) (x : LockAction) : bool :=
  match x with Release q => PoolId_eqb q p | Acquire _ => false end.

(** A goroutine is inside the critical section of [p] when it still has
    to release [p] and no longer has to acquire it. *)
Definition inside (l : list LockAction) (p : PoolId) : bool :=
  existsb (isRelease p) l && negb (existsb (isAcquire p) l).

Definition locksInv (g : Goroutines) : Prop :=
  (forall i, In (todo g i) stages) /\
  (forall i p, holder g p = Some i <-> inside (todo g i) p = true).

(** The mutexes taken, in the order they are taken. *)
Fixpoint acquired (l : list LockAction) : list PoolId :=
  match l with
  | [] => []
  | Acquire p :: l' => p :: acquired l'
  | Release _ :: l' => acquired l'
  end.

(** The window that would leave the matched address out: the addresses at
    the indices strictly above [m], up to [lastIndex]. *)
Definition windowAbove (addrAt : Z -> Address) (m lastIndex : Z)
  : list string :=
  map (fun j => EncodeAddress (addrAt j)) (indices (m + 1) lastIndex).

(** Whether a list of strings has no string twice. *)
Fixpoint distinct (l : list string) : bool :=
  match l with
  | [] => true
  | s :: l' => negb (existsb (String.eqb s) l') && distinct l'
  end.

Section Vocabulary.

Context {W : Type} `{Services W}.

(** The manager answers a request for [n] addresses with [n] addresses
    or with an error. *)
Definition deliversRequested : Prop :=
  forall (acct n : Z) (w w1 : W) (addrs : list ManagedAddress),
    0 <= n ->
    NextInternalAddresses acct n w = (addrs, None, w1) \/
    NextExternalAddresses acct n w = (addrs, None, w1) ->
    len addrs = n.

(** No lookup is made at derivation index 0, and every string of the
    window is the encoding of an address that was looked up. *)
Definition noIndexZero (br : Z)
    (x : outcome (option error) * addressPool * W * list Event) : Prop :=
  (forall j, In j (visited (events_of x)) -> j <> 0) /\
  (forall s, In s (addresses (pool_of x)) ->
     exists j addr,
       j <> 0 /\
       In (CallGetAddress j DefaultAccountNum br (Some addr) None)
          (events_of x) /\
       s = EncodeAddress addr).

(** The lock actions of a call of one of the three functions of this file
    that take a pool mutex. *)
Definition lockingCall (l : list LockAction) : Prop :=
  exists wl w,
    l = lockActions (events_of (CloseAddressPools wl w)) \/
    l = lockActions (events_of (GetNewAddressExternal wl w)) \/
    l = lockActions (events_of (GetNewAddressInternal wl w)).

(** What a call of [GetNewAddress] that got as far as reading the window
    has done. *)
Record allocated (a : addressPool) (w : W) (s : string) : Prop := {
  allocated_started : started a = true;
  allocated_read :
    at_index (addresses a ++ delivered (events_of (GetNewAddress a w)))
             (cursor a) = Some s;
  allocated_pool :
    pool_of (GetNewAddress a w) =
    set_index
      (set_cursor
         (set_addresses a
            (addresses a ++ delivered (events_of (GetNewAddress a w))))
         (cursor a + 1))
      (uint32 (index a + 1));
  allocated_notified :
    exists err,
      filter isNotify (events_of (GetNewAddress a w)) =
      [CallNotifyReceived [DecodeAddress s] err] /\
      result_of (GetNewAddress a w) =
      Returned (match err with
                | Some e => inr e
                | None => inl (DecodeAddress s)
                end)
}.

End Vocabulary.

(** ** Sample wallets and pools *)

Module Examples.

Import Ref.

(** A new wallet, nothing derived and nothing stored. *)
Definition w0 : World := world 0 0 None None.

(** A wallet that has derived the external addresses 0 to 3 and stored the
    one at index 2 as the next to use. *)
Definition w4 : World := world 4 0 (Some (addressAt ExternalBranch 2)) None.

Definition noReuse : Wallet := mkWallet None None false.

(** The external pool in the middle of a batch: [E0] and [E1] handed out. *)
Definition midBatch : addressPool :=
  mkPool ["E0"; "E1"; "E2"; "E3"] 2 ExternalBranch 2 true (Some NewMutex).

(** A goroutine that takes both mutexes, the external pool's first. *)
Definition externalFirst : list LockAction :=
  [Acquire ExternalPool; Acquire InternalPool;
   Release InternalPool; Release ExternalPool].

(** [CloseAddressPools] in goroutine 0 and such a caller in goroutine 1. *)
Definition twoCallers : Goroutines :=
  mkGoroutines
    (fun i => match i with
              | O => closeLocks
              | S O => externalFirst
              | _ => []
              end)
    (fun _ => None).

End Examples.

Import Examples.

#[local] Existing Instance Ref.services.

(** ** Further vocabulary *)

(** The events that are calls of a collaborator of the pool. *)
Definition isCollaboratorCall (e : Event) : bool :=
  match e with
  | CallNextToUseAddresses
  | CallLastAddress _ _
  | CallGetAddress _ _ _ _ _
  | CallExistsAddressOnChain _
  | CallNextAddresses _ _ _ _ _
  | CallStoreNextToUseAddresses _ _ _
  | CallNotifyReceived _ _ => true
  | LogInfof _ | LogErrorf _ | MutexLock _ | MutexUnlock _ => false
  end.

(** The [k] derivation indices [i], [i-1], ... *)
Definition descending (i : Z) (k : nat) : list Z :=
  map (fun t => i - Z.of_nat t) (seq 0 k).

(** The index at the last batch boundary: the index without the
    advancement of the batch in progress. *)
Definition committedIndex (a : addressPool) : Z :=
  uint32 (index a - cursor a).

(** What [CloseAddressPools] checks before it takes the mutexes. *)
Definition closable (wl : Wallet) (ep ip : addressPool) : Prop :=
  externalPool wl = Some ep /\ internalPool wl = Some ip /\
  started ep = true /\ started ip = true /\
  mutex ep <> None /\ mutex ip <> None.

(** What a walk of at most [n] iterations from index [i] has done when
    it ends with [r] and the events [ev]: it looked up [k] consecutive
    indices from [i] downwards, none of them 0, and put at most [k]
    addresses in front of the window; when the loop was left, it was left
    at most [k] below [i], with as many addresses added as indices passed,
    or one more. *)
Definition walkBound (n : nat) (i : Z) (window : list string) (r : walked)
    (ev : list Event) : Prop :=
  exists (k : nat) (added : list string),
    (k <= n)%nat /\ Z.of_nat k <= i /\
    visited ev = descending i k /\
    window_of r = added ++ window /\
    (List.length added <= k)%nat /\
    forall j win, r = WalkLeft j win ->
      i - Z.of_nat k <= j <= i /\
      i - j <= Z.of_nat (List.length added) <= i - j + 1.

(** The lookup and the chain query made at index [j] under reuse. *)
Definition queried (br : Z) (addrAt : Z -> Address) (j : Z) : list Event :=
  [lookup br addrAt j; CallExistsAddressOnChain (Some (addrAt j))].

(** The mutexes held after lock actions done one after the other by one
    goroutine, from those held before; there is none when a mutex that is
    held is locked again (the goroutine would block for ever) or a mutex
    that is free is unlocked (a fatal error of the Go runtime). *)
Fixpoint holding (held : list PoolId) (l : list LockAction)
  : option (list PoolId) :=
  match l with
  | [] => Some held
  | Acquire p :: l' =>
      if existsb (PoolId_eqb p) held then None
      else holding (p :: held) l'
  | Release p :: l' =>
      if existsb (PoolId_eqb p) held
      then holding (filter (fun q => negb (PoolId_eqb p q)) held) l'
      else None
  end.

(** Both pools of a wallet, as far as they are set, have their cursor
    inside their window. *)
Definition poolsInv (wl : Wallet) : Prop :=
  (forall ep, externalPool wl = Some ep -> poolInv ep) /\
  (forall ip, internalPool wl = Some ip -> poolInv ip).

(** What a wallet keeps from one call to the next: the pools that are
    set have their cursor inside their window, and a wallet with both
    pools started on their mutexes stays one, each pool on its branch. *)
Definition keeps (wl wl' : Wallet) : Prop :=
  (poolsInv wl -> poolsInv wl') /\
  addressReuse wl' = addressReuse wl /\
  forall ep ip, closable wl ep ip ->
    exists ep' ip',
      closable wl' ep' ip' /\
      branch ep' = branch ep /\ branch ip' = branch ip.

Section Sessions.

Context {W : Type} `{Services W}.

(** What a call of [initialize] has looked up and kept: [k] lookups, at
    most [addressPoolBuffer], at consecutive indices from [top] downwards,
    at most [k] addresses in the window, and when the call returned nil an
    index at most [k] below [top] with as many addresses in the window as
    there are indices from the index to [top], or one more. *)
Definition boundedWalk {A : Type}
    (x : outcome (option error) * addressPool * A * list Event)
    (top : Z) (k : nat) : Prop :=
  (k <= Z.to_nat addressPoolBuffer)%nat /\ Z.of_nat k <= top /\
  visited (events_of x) = descending top k /\
  (List.length (addresses (pool_of x)) <= k)%nat /\
  (result_of x = Returned None ->
   top - Z.of_nat k <= index (pool_of x) <= top /\
   top - index (pool_of x) <= len (addresses (pool_of x))
     <= top - index (pool_of x) + 1).

(** At index [j] the walk finds the address [addrAt j] and nothing to stop
    at: with reuse, the address has no history on the chain; without, it
    is not the stored next-to-use address (or none is stored).  The
    collaborators are left as they are. *)
Definition goesOn (reuse : bool) (lsa : option Address) (br : Z)
    (addrAt : Z -> Address) (w : W) (j : Z) : Prop :=
  GetAddress j DefaultAccountNum br w = (Some (addrAt j), None, w) /\
  if reuse
  then existsAddressOnChain (Some (addrAt j)) w = (false, None, w)
  else match lsa with
       | Some l => Hash160 (addrAt j) <> Hash160 l
       | None => True
       end.

(** A call of one of the three functions of the wallet that take the
    mutexes of the pools, with the state it finds the collaborators in. *)
Inductive WalletCall : Type :=
  | GetExternal (w : W)
  | GetInternal (w : W)
  | ClosePools (w : W).

(** The wallet after one such call, whatever the call returned, and the
    events of the call. *)
Definition call1 (wl : Wallet) (c : WalletCall) : Wallet * list Event :=
  match c with
  | GetExternal w =>
      (pool_of (GetNewAddressExternal wl w),
       events_of (GetNewAddressExternal wl w))
  | GetInternal w =>
      (pool_of (GetNewAddressInternal wl w),
       events_of (GetNewAddressInternal wl w))
  | ClosePools w =>
      (pool_of (CloseAddressPools wl w), events_of (CloseAddressPools wl w))
  end.

(** Such calls one after the other. *)
Fixpoint callAll (wl : Wallet) (cs : list WalletCall) : Wallet * list Event :=
  match cs with
  | [] => (wl, [])
  | c :: cs' =>
      let '(wl1, ev1) := call1 wl c in
      let '(wl2, ev2) := callAll wl1 cs' in
      (wl2, ev1 ++ ev2)
  end.

(** The last known index of a branch as [initialize] learns it: what
    [getLastAddressIndex] answers after the next-to-use addresses were
    read. *)
Definition lastKnownIndex (br : Z) (w : W) : Z :=
  let '(_, _, _, w1) := NextToUseAddresses w in
  let '(lastIndex, _, _, _) := getLastAddressIndex br w1 in
  lastIndex.

Definition isInitialize (op : @Op W) : bool :=
  match op with DoInitialize _ _ _ => true | _ => false end.

Definition isAllocation (op : @Op W) : bool :=
  match op with DoGetNewAddress _ => true | _ => false end.

(** The calls of a caller that keeps to the batch protocol and never
    rolls back: allocations and commits. *)
Inductive BatchCall : Type :=
  | Allocate (w : W)
  | Commit (w : W).

(** Such calls one after the other, as long as every allocation returns an
    address and no call panics: the addresses returned, in order, the pool
    at the end and the events. *)
Fixpoint session (a : addressPool) (calls : list BatchCall)
  : option (list (option Address) * addressPool * list Event) :=
  match calls with
  | [] => Some ([], a, [])
  | Allocate w :: calls' =>
      match GetNewAddress a w with
      | (Returned (inl x), a1, _, ev1) =>
          match session a1 calls' with
          | Some (got, a2, ev2) => Some (x :: got, a2, ev1 ++ ev2)
          | None => None
          end
      | _ => None
      end
  | Commit w :: calls' =>
      match BatchFinish a w with
      | (Returned tt, a1, _, ev1) =>
          match session a1 calls' with
          | Some (got, a2, ev2) => Some (got, a2, ev1 ++ ev2)
          | None => None
          end
      | _ => None
      end
  end.

End Sessions.

(** ** Further examples *)

Module FurtherExamples.

Import Ref.

(** The collaborators of the reference wallet over a database that
    answers the question for the last address of a branch with an error
    of its own, and an index. *)
Definition closedDatabase : Services World := {|
  NextToUseAddresses := @NextToUseAddresses World services;
  LastExternalAddress :=
    fun _ w => (7, Some (OtherError "database not open"), w);
  LastInternalAddress :=
    fun _ w => (7, Some (OtherError "database not open"), w);
  GetAddress := @GetAddress World services;
  NextExternalAddresses := @NextExternalAddresses World services;
  NextInternalAddresses := @NextInternalAddresses World services;
  StoreNextToUseAddresses := @StoreNextToUseAddresses World services;
  existsAddressOnChain := @existsAddressOnChain World services;
  NotifyReceived := @NotifyReceived World services;
  DecodeAddress := @DecodeAddress World services
|}.

(** A wallet with address reuse enabled. *)
Definition reuse : Wallet := mkWallet None None true.

(** A wallet that has derived the external addresses 0 to 4, of which the
    one at index 2 has history on the chain. *)
Definition w5 : World := mkWorld 5 0 None None ["E2"] [] false false false.

(** Whether the external address at an index has history in [w5]. *)
Definition usedIn5 (j : Z) : bool :=
  existsb (String.eqb (EncodeAddress (addressAt ExternalBranch j)))
          (onChain w5).

(** A wallet that has derived the external addresses 0 to 3 and stored
    nothing. *)
Definition w4' : World := world 4 0 None None.

(** What a call of [initialize] for the internal branch that failed may
    leave behind. *)
Definition leftOver : addressPool :=
  mkPool ["I9"] 0 InternalBranch 9 false (Some NewMutex).

End FurtherExamples.

Import FurtherExamples.

(** ** Vocabulary of the wallet setup *)

Module SetupWords.

Import Setup.

(** An attempted import, and a successful one. *)
Definition isImport (d : Did) : bool :=
  match d with
  | ImportedPrivateKey _ _ _ | ImportedScript _ _ _ => true
  | _ => false
  end.

Definition isImported (d : Did) : bool :=
  match d with
  | ImportedPrivateKey _ _ None | ImportedScript _ _ None => true
  | _ => false
  end.

Definition isPrinted (d : Did) : bool :=
  match d with Printed _ => true | _ => false end.

(** The address and the block stamp of an attempted import. *)
Definition importOf (d : Did) : option (string * BlockStamp) :=
  match d with
  | ImportedPrivateKey addr stamp _ | ImportedScript addr stamp _ =>
      Some (addr, stamp)
  | _ => None
  end.

(** The attempted imports of a run, in order. *)
Definition imports (ev : list Did) : list (string * BlockStamp) :=
  flat_map (fun d => match importOf d with Some x => [x] | None => [] end) ev.

Definition addressOf (a : WalletAddress) : string :=
  match a with
  | PubKeyAddress addr _ | ScriptAddress addr _ | UnknownAddress addr => addr
  end.

Definition isRemoved (d : Did) : bool :=
  match d with Removed _ _ => true | _ => false end.

Definition isLock (d : Did) : bool :=
  match d with LockedManager | LockedKeystore => true | _ => false end.

Definition isManagerUnlocked (d : Did) : bool :=
  match d with UnlockedManager None => true | _ => false end.

(** A question put to the user. *)
Definition isPrompt (d : Did) : bool :=
  match d with
  | AskedPrivatePass _ _ | AskedPublicPass _ | AskedSeed _
  | AskedPublicKey _ => true
  | _ => false
  end.

Definition isCreation (d : Did) : bool :=
  match d with
  | CreatedWallet _ _ _ _ | CreatedDb _ _ | CreatedManager _ _ _ _
  | CreatedWatchOnlyManager _ _ _ | CreatedStakeStore _
  | WroteFile _ _ _ _ | RegisteredImport _ => true
  | _ => false
  end.

(** The wallet is there: it was created, or its manager closed. *)
Definition isWalletStep (d : Did) : bool :=
  match d with
  | CreatedWallet _ _ _ None | ClosedWalletManager => true
  | _ => false
  end.

(** The objects that the simulation and watching-only setups open and
    have to close. *)
Inductive Resource : Type := Db | Manager | StakeStore.

Definition opened (d : Did) : list Resource :=
  match d with
  | CreatedDb _ None => [Db]
  | CreatedManager _ _ _ None | CreatedWatchOnlyManager _ _ None => [Manager]
  | CreatedStakeStore None => [StakeStore]
  | _ => []
  end.

Definition closed (d : Did) : list Resource :=
  match d with
  | ClosedDb => [Db]
  | ClosedManager => [Manager]
  | ClosedStakeStore => [StakeStore]
  | _ => []
  end.

Definition isClose (d : Did) : bool :=
  match d with
  | ClosedDb | ClosedManager | ClosedStakeStore => true
  | _ => false
  end.

Section Words.

Context {S : Type} `{Services S}.

(** An address that [convertLegacyKeystore] hands to the manager: a
    script address, or a public key address whose private key is at hand
    and has a wallet import format. *)
Definition importable (netParams : Params) (a : WalletAddress) : bool :=
  match a with
  | PubKeyAddress _ (inl key) =>
      match NewWIF key netParams with inl _ => true | inr _ => false end
  | PubKeyAddress _ (inr _) => false
  | ScriptAddress _ _ => true
  | UnknownAddress _ => false
  end.

(** The path of the legacy key store of a configuration. *)
Definition keystorePathOf (cfg : config) : string :=
  Join (networkDir (DataDir cfg) activeNet) keystoreFilename.

(** The legacy key store is there but cannot be examined or opened. *)
Definition keystoreTrouble (cfg : config) (s : S) : bool :=
  match Stat (keystorePathOf cfg) s with
  | (StatError _, _) => true
  | (StatOk _, s1) =>
      match OpenDir (networkDir (DataDir cfg) activeNet) s1 with
      | (_, Some _, _) => true
      | _ => false
      end
  | (StatNotExist _, _) => false
  end.

End Words.

End SetupWords.

(** A reference instance of the collaborators of the setup: a script of
    answers, read and never changed. *)
Module SetupRef.

Import Setup.

Record World : Type := mkWorld {
  stat : StatResult;
  openDir : option error;
  unlockKeystore : option error;
  unlockManager : option error;
  active : list WalletAddress;
  importError : string -> option error;
  remove : option error;
  privatePass : string * option error;
  publicPass : string * option error;
  seed : string * bool * option error;
  createDb : option error;
  namespace : string -> option error;
  createManager : option error;
  createStake : option error
}.

Definition net : Params := mkParams "simnet" 3 "genesis".

#[export] Instance services : Services World := {|
  TestNet := 1;
  InsecurePubPassphrase := "public";
  RecommendedSeedLen := 32;
  keystoreFilename := "wallet.bin";
  walletDbName := "wallet.db";
  activeNet := net;
  Join := fun a b => String.append a (String.append "/" b);
  TrimSpace := fun x => x;
  Stat := fun _ s => (stat s, s);
  Remove := fun _ s => (remove s, s);
  WriteFile := fun _ _ _ s => (None, s);
  ReadString := fun s => ("xpub", None, s);
  OpenDir := fun _ s => (handle 1, openDir s, s);
  KeystoreNet := fun _ => net;
  ActiveAddresses := fun _ s => active s;
  KeystoreUnlock := fun _ _ s => (unlockKeystore s, s);
  KeystoreLock := fun _ s => s;
  NewWIF := fun key _ => inl (String.append "wif:" key);
  GenerateSeed := fun _ s => ("seed", None, s);
  ToStringChecksum := fun x => (String.append "words of " x, None);
  PrivatePass := fun _ s => (privatePass s, s);
  PublicPass := fun _ _ _ s => (publicPass s, s);
  Seed := fun s => (seed s, s);
  RunAfterLoad := fun s => s;
  CreateNewWallet := fun _ _ _ s => (handle 2, None, s);
  ManagerClose := fun _ s => s;
  ManagerUnlock := fun _ _ s => (unlockManager s, s);
  ManagerLock := fun _ s => s;
  ImportPrivateKey := fun _ wif _ s => (importError s wif, s);
  ImportScript := fun _ script _ s => (importError s script, s);
  DbCreate := fun _ _ s => (handle 3, createDb s, s);
  DbClose := fun _ s => s;
  DbNamespace := fun _ key s => (handle 4, namespace s key, s);
  MgrCreate := fun _ _ _ _ _ _ s => (handle 5, createManager s, s);
  MgrCreateWatchOnly := fun _ _ _ _ s => (handle 5, createManager s, s);
  StakeCreate := fun _ _ _ s => (handle 6, createStake s, s);
  StakeClose := fun _ s => s
|}.

(** A directory with a legacy key store of three addresses, and a user
    who answers every prompt. *)
Definition legacy : World := {|
  stat := StatOk false;
  openDir := None;
  unlockKeystore := None;
  unlockManager := None;
  active := [PubKeyAddress "A1" (inl "k1");
             ScriptAddress "A2" "script2";
             PubKeyAddress "A3" (inr (OtherError "locked"))];
  importError := fun _ => None;
  remove := None;
  privatePass := ("private", None);
  publicPass := ("public", None);
  seed := ("seed", false, None);
  createDb := None;
  namespace := fun _ => None;
  createManager := None;
  createStake := None
|}.

Definition cfg : config := mkConfig "/data" "" false.

End SetupRef.

#[local] Existing Instance SetupRef.services.

Lemma uint32_range (z : Z) : 0 <= uint32 z < 2 ^ 32.
Proof. unfold uint32. apply Z.mod_pos_bound. lia. Qed.

Lemma uint32_small (z : Z) : 0 <= z < 2 ^ 32 -> uint32 z = z.
Proof. unfold uint32. intros Hz. now apply Z.mod_small. Qed.

Lemma uint32_sub_uint32 (x y : Z) : uint32 (x - uint32 y) = uint32 (x - y).
Proof. unfold uint32. now rewrite Zminus_mod_idemp_r. Qed.

Lemma uint32_uint32_sub (x y : Z) : uint32 (uint32 x - y) = uint32 (x - y).
Proof. unfold uint32. now rewrite Zminus_mod_idemp_l. Qed.

Lemma len_app {A : Type} (s t : list A) : len (s ++ t) = len s + len t.
Proof. unfold len. rewrite length_app. lia. Qed.

Lemma len_nonneg {A : Type} (s : list A) : 0 <= len s.
Proof. unfold len. lia. Qed.

Lemma at_index_Some {A : Type} (s : list A) (i : Z) (x : A) :
  at_index s i = Some x ->
  0 <= i < len s /\ nth_error s (Z.to_nat i) = Some x.
Proof.
  unfold at_index.
  destruct (i <? 0) eqn:Hlo; [discriminate |].
  destruct (len s <=? i) eqn:Hhi; [discriminate |].
  simpl. intros Hx. split; [lia | exact Hx].
Qed.

Lemma at_index_app {A : Type} (s t : list A) (i : Z) (x : A) :
  at_index s i = Some x -> at_index (s ++ t) i = Some x.
Proof.
  intros Hx. apply at_index_Some in Hx as [Hi Hx].
  unfold at_index. rewrite len_app.
  pose proof (len_nonneg t).
  destruct (i <? 0) eqn:Hlo; [lia |].
  destruct (len s + len t <=? i) eqn:Hhi; [lia |].
  simpl. rewrite nth_error_app1; [exact Hx |].
  unfold len in Hi. lia.
Qed.

Section Properties.

Context {W : Type} `{Services W}.

(** ** Commit *)

(** With the cursor not negative, [BatchFinish] returns and leaves the
    committed pool, in each of its branches. *)
Lemma BatchFinish_pool (a : addressPool) (w : W) :
  0 <= cursor a ->
  result_of (BatchFinish a w) = Returned tt /\
  pool_of (BatchFinish a w) = committed a /\
  delivered (events_of (BatchFinish a w)) = [].
Proof.
  intros Hc. unfold BatchFinish, result_of, pool_of, events_of, committed.
  destruct (len (addresses a) <=? cursor a) eqn:Hall; simpl.
  - repeat split.
    rewrite skipn_all2; [reflexivity |].
    unfold len in Hall. lia.
  - destruct (GetAddress _ _ _ w) as [[addr err] w1].
    assert (Hneg : (cursor a <? 0) = false) by lia.
    destruct (branch a =? ExternalBranch);
      [| destruct (branch a =? InternalBranch)];
      try destruct (StoreNextToUseAddresses _ _ w1) as [err2 w2];
      rewrite Hneg; simpl;
      destruct err; try destruct err2; simpl; repeat split.
Qed.

(** C5.  [BatchFinish] has no error to report and reports none: whatever
    the lookup of the next address and the store of the checkpoint answer,
    the call returns, the pool is the committed one (consumed prefix
    dropped, cursor 0), the index keeps the advancement of the batch, and
    every failed call is answered by one logged error and nothing else. *)
Theorem BatchFinish_failure_is_logged (a : addressPool) (w : W) :
  0 <= cursor a ->
  result_of (BatchFinish a w) = Returned tt /\
  pool_of (BatchFinish a w) = committed a /\
  index (pool_of (BatchFinish a w)) = index a /\
  List.length (filter isLogErrorf (events_of (BatchFinish a w))) =
  List.length (filter isFailedCall (events_of (BatchFinish a w))).
Proof.
  intros Hc. unfold BatchFinish, result_of, pool_of, events_of, committed.
  destruct (len (addresses a) <=? cursor a) eqn:Hall; simpl.
  - repeat split.
    rewrite skipn_all2; [reflexivity |].
    unfold len in Hall. lia.
  - destruct (GetAddress _ _ _ w) as [[addr err] w1].
    assert (Hneg : (cursor a <? 0) = false) by lia.
    destruct (branch a =? ExternalBranch);
      [| destruct (branch a =? InternalBranch)];
      try destruct (StoreNextToUseAddresses _ _ w1) as [err2 w2];
      rewrite Hneg; simpl;
      destruct err; try destruct err2; simpl; repeat split.
Qed.

(** ** Allocation *)

(** What the replenishment block leaves: only the window changes, by the
    addresses delivered, which are appended. *)
Lemma replenish_pool (a : addressPool) (w : W) :
  forall err a1 w1 ev1,
  replenish a w = (err, a1, w1, ev1) ->
  a1 = set_addresses a (addresses a ++ delivered ev1) /\
  (needsReplenish a = false -> err = None /\ w1 = w /\ ev1 = []) /\
  (needsReplenish a = true -> err = None ->
   exists addrs,
     ev1 = [CallNextAddresses (branch a) DefaultAccountNum addressPoolBuffer
                              addrs None] /\
     (NextInternalAddresses DefaultAccountNum addressPoolBuffer w =
        (addrs, None, w1) \/
      NextExternalAddresses DefaultAccountNum addressPoolBuffer w =
        (addrs, None, w1))) /\
  (forall e, err = Some e -> delivered ev1 = []) /\
  (forall br acct n addrs e,
     In (CallNextAddresses br acct n addrs (Some e)) ev1 -> err = Some e) /\
  filter isNotify ev1 = [].
Proof.
  intros err a1 w1 ev1. unfold replenish.
  assert (Hid : a = set_addresses a (addresses a)) by now destruct a.
  destruct (needsReplenish a).
  - destruct (branch a =? InternalBranch) eqn:Hint;
      [| destruct (branch a =? ExternalBranch) eqn:Hext].
    + destruct (NextInternalAddresses _ _ w) as [[addrs e] w'] eqn:Hcall.
      destruct e; intros [= <- <- <- <-]; simpl; rewrite ?app_nil_r;
        repeat split; try discriminate; eauto;
        intros ? ? ? ? ? [Heq | []]; congruence.
    + destruct (NextExternalAddresses _ _ w) as [[addrs e] w'] eqn:Hcall.
      destruct e; intros [= <- <- <- <-]; simpl; rewrite ?app_nil_r;
        repeat split; try discriminate; eauto;
        intros ? ? ? ? ? [Heq | []]; congruence.
    + intros [= <- <- <- <-]; simpl; rewrite ?app_nil_r.
      repeat split; try discriminate; auto.
      intros ? ? ? ? ? [].
  - intros [= <- <- <- <-]; simpl; rewrite ?app_nil_r.
    repeat split; try discriminate; auto.
    intros ? ? ? ? ? [].
Qed.

Lemma delivered_app (ev1 ev2 : list Event) :
  delivered (ev1 ++ ev2) = delivered ev1 ++ delivered ev2.
Proof.
  induction ev1 as [| e ev1 IH]; simpl; [reflexivity |].
  destruct e; simpl; try exact IH.
  destruct err; simpl; [exact IH |].
  now rewrite IH, app_assoc.
Qed.

Lemma filter_isNotify_app (ev1 ev2 : list Event) :
  filter isNotify (ev1 ++ ev2) = filter isNotify ev1 ++ filter isNotify ev2.
Proof. apply filter_app. Qed.

(** A call of [GetNewAddress] either ends before it reads the window,
    having notified nobody and returned no address, or has allocated. *)
Lemma GetNewAddress_allocated (a : addressPool) (w : W) :
  (filter isNotify (events_of (GetNewAddress a w)) = [] /\
   (forall x, result_of (GetNewAddress a w) <> Returned (inl x)) /\
   pool_of (GetNewAddress a w) =
     set_addresses a
       (addresses a ++ delivered (events_of (GetNewAddress a w)))) \/
  exists s, allocated a w s.
Proof.
  unfold GetNewAddress.
  destruct (started a) eqn:Hst; simpl.
  2: { left. split; [reflexivity |]. split; [discriminate |].
       unfold pool_of, events_of. simpl. rewrite app_nil_r.
       now destruct a. }
  destruct (replenish a w) as [[[err a1] w1] ev1] eqn:Hrep.
  destruct (replenish_pool _ _ _ _ _ _ Hrep)
    as (Ha1 & _ & _ & Hfail & _ & Hnot).
  destruct err as [e |]; simpl;
    [left; split; [exact Hnot | split; [discriminate | exact Ha1]] |].
  destruct (at_index (addresses a1) (cursor a1)) as [s |] eqn:Hat; simpl;
    [| left; split; [exact Hnot | split; [discriminate | exact Ha1]]].
  right. exists s.
  destruct (NotifyReceived [DecodeAddress s] w1) as [err w2] eqn:Hn.
  assert (Hg : GetNewAddress a w =
               (Returned (match err with
                          | Some e => inr e
                          | None => inl (DecodeAddress s)
                          end),
                set_index (set_cursor a1 (cursor a1 + 1))
                          (uint32 (index a1 + 1)),
                w2,
                (ev1 ++ [LogInfof "Get new address for branch %v returned %s (idx %v)"]) ++
                [CallNotifyReceived [DecodeAddress s] err])).
  { unfold GetNewAddress. rewrite Hst, Hrep. simpl. rewrite Hat, Hn.
    destruct err; reflexivity. }
  assert (Hd : delivered (events_of (GetNewAddress a w)) = delivered ev1).
  { rewrite Hg. unfold events_of. simpl. rewrite !delivered_app. simpl.
    now rewrite !app_nil_r. }
  subst a1. simpl in Hat.
  constructor; rewrite ?Hd.
  - exact Hst.
  - exact Hat.
  - rewrite Hg. reflexivity.
  - exists err. rewrite Hg. unfold events_of, result_of. simpl.
    rewrite !filter_isNotify_app, Hnot. simpl. split; reflexivity.
Qed.

(** C9.  A call of [GetNewAddress] in which the watch notification fails
    returns that error although the pool has moved: the pool was started,
    cursor and index are one further than at entry, what a replenishment
    of this call appended is still in the window; the rollback of the
    batch is what takes the advancement back. *)
Theorem GetNewAddress_notify_failure_keeps_advancement
    (a : addressPool) (w : W) (addrs : list (option Address)) (e : error) :
  In (CallNotifyReceived addrs (Some e)) (events_of (GetNewAddress a w)) ->
  started a = true /\
  result_of (GetNewAddress a w) = Returned (inr e) /\
  cursor (pool_of (GetNewAddress a w)) = cursor a + 1 /\
  index (pool_of (GetNewAddress a w)) = uint32 (index a + 1) /\
  (0 <= index a < 2 ^ 32 - 1 ->
   index (pool_of (GetNewAddress a w)) = index a + 1) /\
  addresses (pool_of (GetNewAddress a w)) =
    addresses a ++ delivered (events_of (GetNewAddress a w)) /\
  cursor (fst (BatchRollback (pool_of (GetNewAddress a w)))) = 0 /\
  index (fst (BatchRollback (pool_of (GetNewAddress a w)))) =
    uint32 (index a - cursor a).
Proof.
  intros Hin.
  assert (Hf : In (CallNotifyReceived addrs (Some e))
                  (filter isNotify (events_of (GetNewAddress a w))))
    by (apply filter_In; split; [exact Hin | reflexivity]).
  destruct (GetNewAddress_allocated a w) as [[Hnone _] | [s Hs]].
  - rewrite Hnone in Hf. destruct Hf.
  - destruct Hs as [Hst _ Hpool [err [Hnot Hres]]].
    rewrite Hnot in Hf. destruct Hf as [[= _ Herr] | []].
    subst err. rewrite Hpool. simpl.
    repeat split; try assumption.
    + intros Hr. apply uint32_small. lia.
    + rewrite uint32_sub_uint32, uint32_uint32_sub. f_equal. lia.
Qed.

Lemma needsReplenish_iff (a : addressPool) :
  needsReplenish a = true <->
  cursor a = len (addresses a) - 1 \/ len (addresses a) = 0.
Proof.
  unfold needsReplenish. rewrite orb_true_iff, !Z.eqb_eq. reflexivity.
Qed.

(** C3.  In a call of [GetNewAddress] that succeeds, the manager is asked
    for addresses exactly when [cursor == len(addresses)-1] or
    [len(addresses) == 0] held at entry; it is then asked once, for
    [addressPoolBuffer] addresses, and the 20 addresses it delivers are
    appended to the window; otherwise the window is left as it is.  When
    the derivation fails the call returns that error and nothing is
    appended. *)
Theorem replenishment_appends_addressPoolBuffer (a : addressPool) (w : W) :
  deliversRequested ->
  (forall x, result_of (GetNewAddress a w) = Returned (inl x) ->
     ((cursor a = len (addresses a) - 1 \/ len (addresses a) = 0) /\
      exists addrs,
        filter isReplenishment (events_of (GetNewAddress a w)) =
          [CallNextAddresses (branch a) DefaultAccountNum addressPoolBuffer
                             addrs None] /\
        len addrs = 20 /\
        addresses (pool_of (GetNewAddress a w)) =
          addresses a ++
          map (fun addr => EncodeAddress (maAddress addr)) addrs) \/
     (~ (cursor a = len (addresses a) - 1 \/ len (addresses a) = 0) /\
      filter isReplenishment (events_of (GetNewAddress a w)) = [] /\
      addresses (pool_of (GetNewAddress a w)) = addresses a)) /\
  (forall br acct n addrs e,
     In (CallNextAddresses br acct n addrs (Some e))
        (events_of (GetNewAddress a w)) ->
     result_of (GetNewAddress a w) = Returned (inr e) /\
     addresses (pool_of (GetNewAddress a w)) = addresses a).
Proof.
  intros Hcount. unfold GetNewAddress.
  destruct (started a) eqn:Hst; simpl;
    [| split; [discriminate | intros ? ? ? ? ? []]].
  destruct (replenish a w) as [[[err a1] w1] ev1] eqn:Hrep.
  destruct (replenish_pool _ _ _ _ _ _ Hrep)
    as (Ha1 & Hno & Hyes & Hfail & Herr & _).
  pose proof (needsReplenish_iff a) as Hiff.
  destruct err as [e |]; simpl.
  { split; [discriminate |].
    unfold events_of, result_of, pool_of; simpl.
    intros br acct n addrs e' Hin. apply Herr in Hin.
    injection Hin as <-. split; [reflexivity |].
    rewrite Ha1. simpl. rewrite (Hfail e eq_refl). apply app_nil_r. }
  assert (Hnever : forall br acct n addrs e' ev,
            filter isReplenishment ev = [] ->
            ~ In (CallNextAddresses br acct n addrs (Some e')) (ev1 ++ ev)).
  { intros br acct n addrs e' ev Hev Hin.
    apply in_app_or in Hin as [Hin | Hin].
    - apply Herr in Hin. discriminate.
    - assert (Hf : In (CallNextAddresses br acct n addrs (Some e'))
                      (filter isReplenishment ev))
        by (apply filter_In; split; [exact Hin | reflexivity]).
      rewrite Hev in Hf. destruct Hf. }
  destruct (at_index (addresses a1) (cursor a1)) as [s |] eqn:Hat; simpl.
  2: { split; [discriminate |].
       unfold events_of; simpl. intros br acct n addrs e' Hin.
       exfalso. apply (Hnever br acct n addrs e' []); [reflexivity |].
       now rewrite app_nil_r. }
  destruct (NotifyReceived [DecodeAddress s] w1) as [err w2].
  assert (Hres : forall ev,
            filter isReplenishment ev = [] ->
            (cursor a = len (addresses a) - 1 \/ len (addresses a) = 0) /\
            (exists addrs,
               filter isReplenishment (ev1 ++ ev) =
                 [CallNextAddresses (branch a) DefaultAccountNum
                                    addressPoolBuffer addrs None] /\
               len addrs = 20 /\
               addresses a1 =
                 addresses a ++
                 map (fun addr => EncodeAddress (maAddress addr)) addrs) \/
            ~ (cursor a = len (addresses a) - 1 \/ len (addresses a) = 0) /\
            filter isReplenishment (ev1 ++ ev) = [] /\
            addresses a1 = addresses a).
  { intros ev Hev. rewrite filter_app, Hev, app_nil_r.
    destruct (needsReplenish a) eqn:Hneed.
    - left. split; [now apply Hiff |].
      destruct (Hyes eq_refl eq_refl) as (addrs & -> & Hcall).
      exists addrs. split; [reflexivity |]. split.
      + apply (Hcount DefaultAccountNum addressPoolBuffer w w1 addrs);
          [unfold addressPoolBuffer; lia | exact Hcall].
      + rewrite Ha1. simpl. now rewrite app_nil_r.
    - right. split; [rewrite <- Hiff; congruence |].
      destruct (Hno eq_refl) as (_ & _ & ->).
      split; [reflexivity |]. rewrite Ha1. simpl. apply app_nil_r. }
  destruct err as [e |]; unfold events_of, result_of, pool_of; simpl.
  - split; [discriminate |].
    intros br acct n addrs e' Hin. exfalso.
    rewrite <- app_assoc in Hin.
    now apply (Hnever br acct n addrs e') in Hin.
  - split.
    + intros x _. rewrite <- app_assoc. now apply Hres.
    + intros br acct n addrs e' Hin. exfalso.
      rewrite <- app_assoc in Hin.
      now apply (Hnever br acct n addrs e') in Hin.
Qed.

(** ** The cursor stays inside the window *)

Ltac solve_poolInv :=
  unfold poolInv, cursorInWindow, len in *; simpl in *;
  try (split; [lia | intros; first [lia | discriminate]]).

Lemma loadWindow_poolInv (a : addressPool) (lsa : option Address) (br : Z)
    (reuse : bool) (w : W) :
  cursor a = 0 -> poolInv (pool_of (loadWindow a lsa br reuse w)).
Proof.
  intros Hz. unfold loadWindow, pool_of.
  generalize (Z.to_nat addressPoolBuffer). intros fuel.
  destruct (getLastAddressIndex br w) as [[[li err] w2] ev2].
  destruct (walk reuse lsa br fuel li [] w2) as [[r w3] ev3].
  destruct (li =? 0); destruct err; destruct r; simpl; solve_poolInv.
Qed.

Lemma initialize_poolInv (a : addressPool) (br : Z) (wl : Wallet) (w : W) :
  poolInv a -> poolInv (pool_of (initialize a br wl w)).
Proof.
  intros [Hc Hz]. unfold initialize.
  destruct (started a) eqn:Hst;
    [split; [exact Hc | unfold pool_of; simpl; intros; congruence] |].
  specialize (Hz eq_refl).
  destruct (NextToUseAddresses w) as [[[ext int] err] w1].
  destruct err; [unfold pool_of; simpl; solve_poolInv |].
  assert (Hgo : forall lsa,
            poolInv (pool_of
              (let '(res, a', w', ev) :=
                 loadWindow
                   (set_branch (set_mutex (set_addresses a [])
                                          (Some NewMutex)) br)
                   lsa br (addressReuse wl) w1 in
               (res, a', w', CallNextToUseAddresses :: ev)))).
  { intros lsa.
    pose proof (loadWindow_poolInv
                  (set_branch (set_mutex (set_addresses a [])
                                         (Some NewMutex)) br)
                  lsa br (addressReuse wl) w1 Hz) as Hl.
    destruct (loadWindow _ lsa br (addressReuse wl) w1)
      as [[[res a'] w'] ev].
    exact Hl. }
  destruct (br =? ExternalBranch); [apply Hgo |].
  destruct (br =? InternalBranch); [apply Hgo |].
  unfold pool_of; simpl; solve_poolInv.
Qed.

Lemma GetNewAddress_poolInv (a : addressPool) (w : W) :
  poolInv a -> poolInv (pool_of (GetNewAddress a w)).
Proof.
  intros [Hc Hz]. unfold GetNewAddress, pool_of.
  destruct (started a) eqn:Hst; simpl;
    [| split; [exact Hc | intros _; now apply Hz]].
  destruct (replenish a w) as [[[err a1] w1] ev1] eqn:Hrep.
  destruct (replenish_pool _ _ _ _ _ _ Hrep) as (Ha1 & _).
  assert (Hinv1 : poolInv a1).
  { subst a1. unfold poolInv, cursorInWindow in *. simpl.
    rewrite len_app. pose proof (len_nonneg (delivered ev1)).
    split; [lia | now rewrite Hst]. }
  destruct err; simpl; [exact Hinv1 |].
  destruct (at_index (addresses a1) (cursor a1)) as [s |] eqn:Hat; simpl;
    [| exact Hinv1].
  apply at_index_Some in Hat as [Hat _].
  destruct (NotifyReceived [DecodeAddress s] w1) as [err w2].
  assert (Hst1 : started a1 = true) by (subst a1; exact Hst).
  destruct err; simpl; unfold poolInv, cursorInWindow; simpl;
    (split; [lia | congruence]).
Qed.

Lemma BatchFinish_poolInv (a : addressPool) (w : W) :
  poolInv a -> poolInv (pool_of (BatchFinish a w)).
Proof.
  intros [Hc Hz].
  destruct (BatchFinish_pool a w) as (_ & -> & _); [apply Hc |].
  unfold committed. solve_poolInv.
Qed.

Lemma BatchRollback_poolInv (a : addressPool) :
  poolInv a -> poolInv (fst (BatchRollback a)).
Proof. intros _. unfold BatchRollback. simpl. solve_poolInv. Qed.

Lemma exec1_poolInv (a : addressPool) (op : Op) :
  poolInv a -> poolInv (fst (fst (exec1 a op))).
Proof.
  intros Hinv. destruct op as [br wl w | w | w |]; simpl.
  - pose proof (initialize_poolInv a br wl w Hinv) as Hi.
    unfold pool_of in Hi.
    destruct (initialize a br wl w) as [[[r a1] w1] ev]. exact Hi.
  - pose proof (GetNewAddress_poolInv a w Hinv) as Hi.
    unfold pool_of in Hi.
    destruct (GetNewAddress a w) as [[[r a1] w1] ev]. exact Hi.
  - pose proof (BatchFinish_poolInv a w Hinv) as Hi.
    unfold pool_of in Hi.
    destruct (BatchFinish a w) as [[[r a1] w1] ev]. exact Hi.
  - now apply BatchRollback_poolInv.
Qed.

Lemma reachable_poolInv (a : addressPool) : reachable a -> poolInv a.
Proof.
  induction 1 as [| a op _ IH].
  - unfold NewAddressPool. solve_poolInv.
  - now apply exec1_poolInv.
Qed.

(** C7.  [0 <= cursor <= len(addresses)] holds of the new pool and of every
    pool that [initialize], [GetNewAddress], [BatchFinish] and
    [BatchRollback] make of a pool a program can hold, whatever the
    collaborators answer. *)
Theorem cursor_in_window (a : addressPool) :
  reachable a ->
  0 <= cursor a <= len (addresses a) /\
  (forall br wl w,
     cursorInWindow (pool_of (initialize a br wl w))) /\
  (forall w, cursorInWindow (pool_of (GetNewAddress a w))) /\
  (forall w, cursorInWindow (pool_of (BatchFinish a w))) /\
  cursorInWindow (fst (BatchRollback a)).
Proof.
  intros Hr. apply reachable_poolInv in Hr.
  split; [apply Hr |].
  split; [intros; now apply initialize_poolInv |].
  split; [intros; now apply GetNewAddress_poolInv |].
  split; [intros; now apply BatchFinish_poolInv |].
  now apply BatchRollback_poolInv.
Qed.

(** ** Initialization *)

Lemma indices_single (i : Z) : indices i i = [i].
Proof.
  unfold indices. replace (i - i + 1) with 1 by lia. simpl.
  f_equal. lia.
Qed.

Lemma indices_snoc (lo hi : Z) :
  lo <= hi -> indices lo (hi + 1) = indices lo hi ++ [hi + 1].
Proof.
  intros Hle. unfold indices.
  replace (Z.to_nat (hi + 1 - lo + 1)) with (Z.to_nat (hi - lo + 1) + 1)%nat
    by lia.
  rewrite seq_app, map_app. simpl. do 2 f_equal. lia.
Qed.

(** The walk looks up indices from [i] downwards and never index 0, and
    what it puts in front of the window are encodings of addresses it
    looked up. *)
Lemma walk_visits (reuse : bool) (lsa : option Address) (br : Z) :
  forall (n : nat) (i : Z) (window : list string) (w : W) r w' ev,
  walk reuse lsa br n i window w = (r, w', ev) ->
  0 <= i ->
  (forall j, In j (visited ev) -> 0 < j <= i) /\
  exists added,
    window_of r = added ++ window /\
    forall s, In s added ->
      exists j addr,
        j <> 0 /\
        In (CallGetAddress j DefaultAccountNum br (Some addr) None) ev /\
        s = EncodeAddress addr.
Proof.
  induction n as [| n IH]; intros i window w r w' ev Hwalk Hi; simpl in Hwalk.
  { injection Hwalk as <- <- <-. simpl.
    split; [intros j [] |]. exists []. split; [reflexivity | intros s []]. }
  destruct (i =? 0) eqn:Hzero.
  { injection Hwalk as <- <- <-. simpl.
    split; [intros j [] |]. exists []. split; [reflexivity | intros s []]. }
  assert (Hpos : 0 < i) by lia.
  destruct (GetAddress i DefaultAccountNum br w) as [[addr err] w1].
  (* the three ways an iteration ends without going on *)
  assert (Hstop : forall r0 (w0 : W) (ev0 : list Event),
            visited ev0 = [] ->
            window_of r0 = window ->
            (r0, w0, CallGetAddress i DefaultAccountNum br addr err :: ev0)
              = (r, w', ev) ->
            (forall j, In j (visited ev) -> 0 < j <= i) /\
            exists added,
              window_of r = added ++ window /\
              forall s, In s added ->
                exists j addr0,
                  j <> 0 /\
                  In (CallGetAddress j DefaultAccountNum br (Some addr0) None)
                     ev /\
                  s = EncodeAddress addr0).
  { intros r0 w0 ev0 Hv Hw [= <- <- <-]. simpl. rewrite Hv. split.
    - intros j [<- | []]. lia.
    - exists []. split; [exact Hw | intros s []]. }
  (* going on with the address kept *)
  assert (Hkeep : forall this (w0 : W) (ev0 : list Event),
            visited ev0 = [] ->
            addr = Some this -> err = None ->
            (let '(r0, w3, ev3) :=
               walk reuse lsa br n (i - 1) (EncodeAddress this :: window) w0
             in (r0, w3,
                 (CallGetAddress i DefaultAccountNum br addr err :: ev0)
                 ++ ev3)) = (r, w', ev) ->
            (forall j, In j (visited ev) -> 0 < j <= i) /\
            exists added,
              window_of r = added ++ window /\
              forall s, In s added ->
                exists j addr0,
                  j <> 0 /\
                  In (CallGetAddress j DefaultAccountNum br (Some addr0) None)
                     ev /\
                  s = EncodeAddress addr0).
  { intros this w0 ev0 Hv -> -> Hgo.
    destruct (walk reuse lsa br n (i - 1) (EncodeAddress this :: window) w0)
      as [[r0 w3] ev3] eqn:Hrec.
    injection Hgo as <- <- <-.
    destruct (IH _ _ _ _ _ _ Hrec ltac:(lia)) as (Hvis & added & Hadd & Hsrc).
    assert (Hvapp : forall e1 e2, visited (e1 ++ e2) = visited e1 ++ visited e2).
    { induction e1 as [| e e1 IHe]; intros e2; simpl; [reflexivity |].
      destruct e; simpl; rewrite ?IHe; reflexivity. }
    split.
    - simpl. rewrite Hvapp, Hv. simpl.
      intros j [<- | Hj]; [lia |]. apply Hvis in Hj. lia.
    - exists (added ++ [EncodeAddress this]). split.
      + rewrite Hadd, <- app_assoc. reflexivity.
      + intros s Hs. apply in_app_or in Hs as [Hs | [<- | []]].
        * destruct (Hsrc s Hs) as (j & addr0 & Hj & Hin & ->).
          exists j, addr0. split; [exact Hj |]. split; [| reflexivity].
          simpl. right. apply in_or_app. now right.
        * exists i, this. split; [lia |]. split; [| reflexivity].
          simpl. now left. }
  destruct err as [e |]; [now apply (Hstop _ _ []) in Hwalk |].
  destruct reuse; simpl in Hwalk.
  - destruct (existsAddressOnChain addr w1) as [[ex err2] w2].
    destruct err2 as [e |];
      [now apply (Hstop _ _ [CallExistsAddressOnChain addr]) in Hwalk |].
    destruct ex;
      [now apply (Hstop _ _ [CallExistsAddressOnChain addr]) in Hwalk |].
    destruct addr as [this |];
      [| now apply (Hstop _ _ [CallExistsAddressOnChain None]) in Hwalk].
    now apply (Hkeep this w2 [CallExistsAddressOnChain (Some this)]) in Hwalk.
  - destruct lsa as [l |].
    + destruct addr as [this |]; [| now apply (Hstop _ _ []) in Hwalk].
      destruct (hash160_eqb (Hash160 l) (Hash160 this)).
      * injection Hwalk as <- <- <-. simpl. split.
        -- intros j [<- | []]. lia.
        -- exists [EncodeAddress this]. split; [reflexivity |].
           intros s [<- | []]. exists i, this.
           split; [lia |]. split; [now left | reflexivity].
      * now apply (Hkeep this w1 []) in Hwalk.
    + destruct addr as [this |]; [| now apply (Hstop _ _ []) in Hwalk].
      now apply (Hkeep this w1 []) in Hwalk.
Qed.

Lemma visited_app (ev1 ev2 : list Event) :
  visited (ev1 ++ ev2) = visited ev1 ++ visited ev2.
Proof.
  induction ev1 as [| e ev1 IH]; simpl; [reflexivity |].
  destruct e; simpl; rewrite ?IH; reflexivity.
Qed.

Lemma getLastAddressIndex_answer (br : Z) (w : W) :
  forall li err w2 ev2,
  getLastAddressIndex br w = (li, err, w2, ev2) ->
  0 <= li /\ visited ev2 = [].
Proof.
  intros li err w2 ev2. unfold getLastAddressIndex.
  assert (Hcall : forall (f : Z -> W -> Z * option error * W),
            (let '(lastIndex, err0, w1) := f DefaultAccountNum w in
             match err0 with
             | Some (ManagerError ErrAddressNotFound) =>
                 (0, None, w1, [CallLastAddress br DefaultAccountNum])
             | Some e => (0, Some e, w1, [CallLastAddress br DefaultAccountNum])
             | None =>
                 (uint32 lastIndex, None, w1,
                  [CallLastAddress br DefaultAccountNum])
             end) = (li, err, w2, ev2) ->
            0 <= li /\ visited ev2 = []).
  { intros f. destruct (f DefaultAccountNum w) as [[idx e] w1].
    destruct e as [[[] | |] |]; intros [= <- <- <- <-];
      (split; [| reflexivity]); try lia.
    apply uint32_range. }
  destruct (br =? InternalBranch); [apply Hcall |].
  destruct (br =? ExternalBranch); [apply Hcall |].
  intros [= <- <- <- <-]. split; [lia | reflexivity].
Qed.

Lemma loadWindow_walk (a : addressPool) (lsa : option Address) (br : Z)
    (reuse : bool) (w : W) :
  forall li err w2 ev2 r w3 ev3,
  getLastAddressIndex br w = (li, err, w2, ev2) ->
  walk reuse lsa br (Z.to_nat addressPoolBuffer) li [] w2 = (r, w3, ev3) ->
  loadWindow a lsa br reuse w =
    if (li =? 0) && match err with None => true | Some _ => false end
    then (Returned None, set_started (set_cursor (set_index a 0) 0) true,
          w2, ev2)
    else (fst (fst (afterWalk a r)), snd (fst (afterWalk a r)), w3,
          ev2 ++ ev3 ++ snd (afterWalk a r)).
Proof.
  intros li err w2 ev2 r w3 ev3 Hlast Hw. unfold loadWindow.
  rewrite Hlast, Hw.
  destruct (li =? 0); destruct err; destruct (afterWalk a r) as [[res a'] ev4];
    reflexivity.
Qed.

Lemma noIndexZero_empty (br : Z) r (p : addressPool) (w : W) ev :
  addresses p = [] -> visited ev = [] -> noIndexZero br (r, p, w, ev).
Proof.
  intros Hp Hv. unfold noIndexZero, events_of, pool_of. simpl.
  rewrite Hp, Hv. split; [intros j [] | intros s []].
Qed.

Lemma loadWindow_noIndexZero (a : addressPool) (lsa : option Address)
    (br : Z) (reuse : bool) (w : W) :
  addresses a = [] ->
  noIndexZero br
    (let '(res, a', w', ev) := loadWindow a lsa br reuse w in
     (res, a', w', CallNextToUseAddresses :: ev)).
Proof.
  intros Ha.
  destruct (getLastAddressIndex br w) as [[[li err] w2] ev2] eqn:Hlast.
  destruct (walk reuse lsa br (Z.to_nat addressPoolBuffer) li [] w2)
    as [[r w3] ev3] eqn:Hw.
  rewrite (loadWindow_walk a lsa br reuse w _ _ _ _ _ _ _ Hlast Hw).
  apply getLastAddressIndex_answer in Hlast as [Hli Hv2].
  destruct ((li =? 0) && match err with None => true | Some _ => false end).
  { apply noIndexZero_empty; [exact Ha | exact Hv2]. }
  destruct (walk_visits _ _ _ _ _ _ _ _ _ _ Hw Hli)
    as (Hvis & added & Hadd & Hsrc).
  rewrite app_nil_r in Hadd.
  assert (Hv4 : visited (snd (afterWalk a r)) = [])
    by (destruct r; reflexivity).
  assert (Hwin : addresses (snd (fst (afterWalk a r))) = added)
    by (destruct r; exact Hadd).
  unfold noIndexZero, events_of, pool_of. simpl. rewrite Hwin. split.
  - intros j Hj. rewrite !visited_app, Hv2, Hv4, app_nil_r in Hj.
    apply Hvis in Hj. lia.
  - intros s Hs. destruct (Hsrc s Hs) as (j & addr & Hj & Hev & ->).
    exists j, addr. split; [exact Hj |]. split; [| reflexivity].
    right. apply in_or_app. right. apply in_or_app. now left.
Qed.

Lemma initialize_noIndexZero (a : addressPool) (br : Z) (wl : Wallet)
    (w : W) :
  started a = false -> noIndexZero br (initialize a br wl w).
Proof.
  intros Hst. unfold initialize. rewrite Hst.
  destruct (NextToUseAddresses w) as [[[ext int] err] w1].
  destruct err; [now apply noIndexZero_empty |].
  destruct (br =? ExternalBranch);
    [now apply loadWindow_noIndexZero |].
  destruct (br =? InternalBranch);
    [now apply loadWindow_noIndexZero |].
  now apply noIndexZero_empty.
Qed.

(** C10.  [initialize] takes a branch whose highest known index is 0 for a
    branch without any address: in both cases it succeeds with index 0,
    cursor 0, an empty window and the pool started.  Its walk never looks
    up derivation index 0, and every address of the window it builds is one
    it looked up at an index other than 0. *)
Theorem initialize_index_zero_is_fresh
    (a : addressPool) (br : Z) (wl : Wallet) (w : W) :
  started a = false ->
  (forall ext int w1 lastAddrFunc lastIndex err w2,
     NextToUseAddresses w = (ext, int, None, w1) ->
     br = InternalBranch /\ lastAddrFunc = LastInternalAddress \/
     br = ExternalBranch /\ lastAddrFunc = LastExternalAddress ->
     lastAddrFunc DefaultAccountNum w1 = (lastIndex, err, w2) ->
     err = None /\ uint32 lastIndex = 0 \/
     err = Some (ManagerError ErrAddressNotFound) ->
     result_of (initialize a br wl w) = Returned None /\
     pool_of (initialize a br wl w) = mkPool [] 0 br 0 true (Some NewMutex)) /\
  (forall j, In j (visited (events_of (initialize a br wl w))) -> j <> 0) /\
  (forall s, In s (addresses (pool_of (initialize a br wl w))) ->
     exists j addr,
       j <> 0 /\
       In (CallGetAddress j DefaultAccountNum br (Some addr) None)
          (events_of (initialize a br wl w)) /\
       s = EncodeAddress addr).
Proof.
  intros Hst. split; [| now apply initialize_noIndexZero].
  intros ext int w1 f idx err w2 Hnext Hbr Hcall Hzero.
  assert (Hlast : getLastAddressIndex br w1 =
                  (0, None, w2, [CallLastAddress br DefaultAccountNum])).
  { unfold getLastAddressIndex.
    destruct Hbr as [[-> ->] | [-> ->]]; simpl; rewrite Hcall;
      destruct Hzero as [[-> ->] | ->]; reflexivity. }
  unfold initialize, loadWindow. rewrite Hst, Hnext.
  assert (Hsaved : exists lsa,
            (if br =? ExternalBranch then Some ext
             else if br =? InternalBranch then Some int else None)
            = Some lsa).
  { destruct Hbr as [[-> _] | [-> _]]; simpl; eauto. }
  destruct Hsaved as [lsa ->]. rewrite Hlast.
  unfold result_of, pool_of. simpl. split; reflexivity.
Qed.

Lemma hash160_eqb_eq (h1 h2 : list byte) :
  hash160_eqb h1 h2 = true <-> h1 = h2.
Proof.
  unfold hash160_eqb.
  destruct (list_eq_dec byte_eq_dec h1 h2); split; congruence.
Qed.

(** With reuse disabled and a stored next-to-use address [lsa], a walk
    that starts at [i] and has enough iterations left to reach the highest
    index [m] whose address is [lsa] stops there, with the addresses of
    [m..i] in front of the window, the one at [m] included. *)
Lemma walk_stops_at_checkpoint (lsa : Address) (br : Z)
    (addrAt : Z -> Address) (w : W) (m : Z) :
  0 < m ->
  Hash160 (addrAt m) = Hash160 lsa ->
  forall (k : nat) (n : nat) (i : Z) (window : list string),
  i = m + Z.of_nat k ->
  (k < n)%nat ->
  (forall j, m <= j <= i ->
     GetAddress j DefaultAccountNum br w = (Some (addrAt j), None, w)) ->
  (forall j, m < j <= i -> Hash160 (addrAt j) <> Hash160 lsa) ->
  walk false (Some lsa) br n i window w =
    (WalkLeft m (map (fun j => EncodeAddress (addrAt j)) (indices m i)
                 ++ window),
     w, map (lookup br addrAt) (rev (indices m i))).
Proof.
  intros Hm Hhit.
  induction k as [| k IH]; intros n i window Hi Hn Hget Hmiss;
    (destruct n as [| n]; [lia |]); simpl.
  - replace (m + Z.of_nat 0) with m in Hi by lia. subst i.
    destruct (m =? 0) eqn:Hz; [lia |].
    rewrite (Hget m) by lia. simpl.
    assert (Heq : hash160_eqb (Hash160 lsa) (Hash160 (addrAt m)) = true)
      by now apply hash160_eqb_eq.
    rewrite Heq, indices_single. reflexivity.
  - destruct (i =? 0) eqn:Hz; [lia |].
    rewrite (Hget i) by lia. simpl.
    assert (Hne : hash160_eqb (Hash160 lsa) (Hash160 (addrAt i)) = false).
    { destruct (hash160_eqb (Hash160 lsa) (Hash160 (addrAt i))) eqn:E;
        [| reflexivity].
      apply hash160_eqb_eq in E. exfalso.
      apply (Hmiss i); [lia | now symmetry]. }
    rewrite Hne.
    rewrite (IH n (i - 1) (EncodeAddress (addrAt i) :: window));
      [| lia | lia | intros j Hj; apply Hget; lia
       | intros j Hj; apply Hmiss; lia].
    assert (Hidx : indices m i = indices m (i - 1) ++ [i]).
    { replace i with (i - 1 + 1) at 1 by lia.
      rewrite indices_snoc by lia. do 2 f_equal. lia. }
    rewrite Hidx, map_app, rev_app_distr, <- app_assoc. reflexivity.
Qed.

(** C4, as the code has it.  [initialize] on a branch that has addresses,
    with reuse disabled, stops its walk at the first address it visits
    that is the stored next-to-use address, at index [m] say; the window
    is then made of the addresses at the indices from [m] to the highest
    known index, the matched address first, and the index of the pool is
    [m]. *)
Theorem initialize_window_starts_at_checkpoint
    (a : addressPool) (br : Z) (wl : Wallet) (w w1 w2 : W)
    (ext int : option Address) (lsa : Address) (lastIndex m : Z)
    (ev2 : list Event) (addrAt : Z -> Address) :
  started a = false ->
  addressReuse wl = false ->
  NextToUseAddresses w = (ext, int, None, w1) ->
  br = ExternalBranch /\ ext = Some lsa \/
  br = InternalBranch /\ int = Some lsa ->
  getLastAddressIndex br w1 = (lastIndex, None, w2, ev2) ->
  0 < m <= lastIndex ->
  lastIndex - m < addressPoolBuffer ->
  (forall j, m <= j <= lastIndex ->
     GetAddress j DefaultAccountNum br w2 = (Some (addrAt j), None, w2)) ->
  Hash160 (addrAt m) = Hash160 lsa ->
  (forall j, m < j <= lastIndex -> Hash160 (addrAt j) <> Hash160 lsa) ->
  result_of (initialize a br wl w) = Returned None /\
  visited (events_of (initialize a br wl w)) = rev (indices m lastIndex) /\
  addresses (pool_of (initialize a br wl w)) =
    map (fun j => EncodeAddress (addrAt j)) (indices m lastIndex) /\
  index (pool_of (initialize a br wl w)) = m /\
  cursor (pool_of (initialize a br wl w)) = 0 /\
  started (pool_of (initialize a br wl w)) = true.
Proof.
  intros Hst Hreuse Hnext Hbr Hlast Hm Hnear Hget Hhit Hmiss.
  pose proof (walk_stops_at_checkpoint lsa br addrAt w2 m
                ltac:(lia) Hhit (Z.to_nat (lastIndex - m))
                (Z.to_nat addressPoolBuffer) lastIndex []
                ltac:(lia) ltac:(unfold addressPoolBuffer in *; lia)
                Hget Hmiss) as Hw.
  rewrite app_nil_r in Hw.
  assert (Hsaved : (if br =? ExternalBranch then Some ext
                    else if br =? InternalBranch then Some int else None)
                   = Some (Some lsa)).
  { destruct Hbr as [[-> ->] | [-> ->]]; reflexivity. }
  pose proof (getLastAddressIndex_answer _ _ _ _ _ _ Hlast) as [_ Hv2].
  unfold initialize. rewrite Hst, Hnext, Hsaved, Hreuse.
  rewrite (loadWindow_walk _ _ _ _ _ _ _ _ _ _ _ _ Hlast Hw).
  destruct (lastIndex =? 0) eqn:Hz; [lia |].
  unfold result_of, events_of, pool_of. simpl.
  repeat split.
  rewrite visited_app, Hv2, visited_app. simpl. rewrite app_nil_r.
  generalize (rev (indices m lastIndex)). intros l.
  induction l as [| j l IH]; simpl; [reflexivity | now rewrite IH].
Qed.

(** ** Closing the pools *)

(** A call of [GetNewAddress] that succeeds returns the decoded string at
    the cursor, has notified the watcher of that address and of nothing
    else, and leaves cursor and index one further. *)
Lemma GetNewAddress_success (a : addressPool) (w : W) (x : option Address) :
  result_of (GetNewAddress a w) = Returned (inl x) ->
  started a = true /\
  (exists s,
     at_index (addresses (pool_of (GetNewAddress a w))) (cursor a) = Some s /\
     x = DecodeAddress s) /\
  addresses (pool_of (GetNewAddress a w)) =
    addresses a ++ delivered (events_of (GetNewAddress a w)) /\
  cursor (pool_of (GetNewAddress a w)) = cursor a + 1 /\
  index (pool_of (GetNewAddress a w)) = uint32 (index a + 1) /\
  filter isNotify (events_of (GetNewAddress a w)) =
    [CallNotifyReceived [x] None].
Proof.
  intros Hres.
  destruct (GetNewAddress_allocated a w) as [[_ [Hno _]] | [s Hs]];
    [now apply Hno in Hres |].
  destruct Hs as [Hst Hat Hpool [err [Hnot Hres']]].
  rewrite Hres' in Hres. destruct err as [e |]; [discriminate |].
  injection Hres as <-.
  rewrite Hpool. simpl. repeat split; try assumption.
  exists s. split; [exact Hat | reflexivity].
Qed.

Lemma GetNewAddress_no_store (a : addressPool) (w : W) :
  filter isStore (events_of (GetNewAddress a w)) = [].
Proof.
  unfold GetNewAddress, events_of.
  destruct (started a); [| reflexivity].
  destruct (replenish a w) as [[[err a1] w1] ev1] eqn:Hrep.
  assert (Hev1 : filter isStore ev1 = []).
  { revert Hrep. unfold replenish.
    destruct (needsReplenish a); [| now intros [= <- <- <- <-]].
    destruct (branch a =? InternalBranch);
      [| destruct (branch a =? ExternalBranch)];
      try destruct (NextInternalAddresses _ _ w) as [[addrs e] w'];
      try destruct (NextExternalAddresses _ _ w) as [[addrs e] w'];
      try destruct e; now intros [= <- <- <- <-]. }
  destruct err; simpl; [exact Hev1 |].
  destruct (at_index (addresses a1) (cursor a1)); simpl; [| exact Hev1].
  destruct (NotifyReceived _ w1) as [err w2].
  destruct err; simpl; rewrite !filter_app, Hev1; reflexivity.
Qed.

(** C6.  On two started pools with their mutexes set, when both
    allocations and the store succeed, [CloseAddressPools] takes one
    address from the external pool, then one from the internal pool (each
    pool's cursor and index go one further, and the watcher is notified of
    these two addresses and no other), and stores exactly that pair, once,
    as the next-to-use addresses. *)
Theorem CloseAddressPools_stores_one_of_each
    (wl : Wallet) (w w1 w2 w3 : W) (ep ip ep1 ip2 : addressPool)
    (mE mI : Mutex) (nextExtAddr nextIntAddr : option Address)
    (ev1 ev2 : list Event) :
  externalPool wl = Some ep ->
  internalPool wl = Some ip ->
  started ep = true -> started ip = true ->
  mutex ep = Some mE -> mutex ip = Some mI ->
  GetNewAddress ep w = (Returned (inl nextExtAddr), ep1, w1, ev1) ->
  GetNewAddress ip w1 = (Returned (inl nextIntAddr), ip2, w2, ev2) ->
  StoreNextToUseAddresses nextExtAddr nextIntAddr w2 = (None, w3) ->
  result_of (CloseAddressPools wl w) = Returned tt /\
  pool_of (CloseAddressPools wl w) =
    mkWallet (Some ep1) (Some ip2) (addressReuse wl) /\
  world_of (CloseAddressPools wl w) = w3 /\
  (exists s, at_index (addresses ep1) (cursor ep) = Some s /\
             nextExtAddr = DecodeAddress s) /\
  (exists s, at_index (addresses ip2) (cursor ip) = Some s /\
             nextIntAddr = DecodeAddress s) /\
  cursor ep1 = cursor ep + 1 /\ index ep1 = uint32 (index ep + 1) /\
  cursor ip2 = cursor ip + 1 /\ index ip2 = uint32 (index ip + 1) /\
  (0 <= index ep < 2 ^ 32 - 1 -> index ep1 = index ep + 1) /\
  (0 <= index ip < 2 ^ 32 - 1 -> index ip2 = index ip + 1) /\
  filter isNotify (events_of (CloseAddressPools wl w)) =
    [CallNotifyReceived [nextExtAddr] None;
     CallNotifyReceived [nextIntAddr] None] /\
  filter isStore (events_of (CloseAddressPools wl w)) =
    [CallStoreNextToUseAddresses nextExtAddr nextIntAddr None].
Proof.
  intros HeP HiP HeS HiS HeM HiM Hg1 Hg2 Hstore.
  pose proof (GetNewAddress_success ep w nextExtAddr) as He.
  pose proof (GetNewAddress_success ip w1 nextIntAddr) as Hi.
  pose proof (GetNewAddress_no_store ep w) as Hs1.
  pose proof (GetNewAddress_no_store ip w1) as Hs2.
  rewrite Hg1 in He, Hs1. rewrite Hg2 in Hi, Hs2.
  unfold result_of, pool_of, events_of in He, Hi, Hs1, Hs2.
  simpl in He, Hi, Hs1, Hs2.
  destruct (He eq_refl) as (_ & Hx1 & _ & Hc1 & Hi1 & Hn1).
  destruct (Hi eq_refl) as (_ & Hx2 & _ & Hc2 & Hi2 & Hn2).
  unfold CloseAddressPools.
  rewrite HeP, HiP, HeS, HiS, HeM, HiM. simpl.
  rewrite Hg1, Hg2, Hstore.
  unfold result_of, pool_of, world_of, events_of. simpl.
  repeat split; try assumption.
  - intros Hr. rewrite Hi1. apply uint32_small. lia.
  - intros Hr. rewrite Hi2. apply uint32_small. lia.
  - rewrite !filter_app, Hn1, Hn2. reflexivity.
  - rewrite !filter_app, Hs1, Hs2. reflexivity.
Qed.

(** ** Locks *)

Ltac stage_cases H :=
  unfold stages, closeLocks in H; simpl in H;
  repeat (destruct H as [H | H]); try contradiction; try discriminate H.

Lemma stage_tail (x : LockAction) (rest : list LockAction) :
  In (x :: rest) stages -> In rest stages.
Proof.
  intros Hs. stage_cases Hs; injection Hs as <- <-;
    unfold stages, closeLocks; simpl; tauto.
Qed.

Lemma stage_Acquire (p : PoolId) (rest : list LockAction) :
  In (Acquire p :: rest) stages ->
  inside rest p = true /\
  forall q, q <> p -> inside rest q = inside (Acquire p :: rest) q.
Proof.
  intros Hs. stage_cases Hs; injection Hs as <- <-;
    (split; [reflexivity | intros [] Hq; try reflexivity; congruence]).
Qed.

Lemma stage_Release (p : PoolId) (rest : list LockAction) :
  In (Release p :: rest) stages ->
  inside (Release p :: rest) p = true /\
  inside rest p = false /\
  forall q, q <> p -> inside rest q = inside (Release p :: rest) q.
Proof.
  intros Hs. stage_cases Hs; injection Hs as <- <-;
    (split; [reflexivity |]; split;
     [reflexivity | intros [] Hq; try reflexivity; congruence]).
Qed.

Lemma PoolId_eqb_eq (p q : PoolId) : PoolId_eqb p q = true <-> p = q.
Proof. destruct p, q; simpl; split; congruence. Qed.

Lemma lockStep_locksInv (g g' : Goroutines) :
  locksInv g -> lockStep g g' -> locksInv g'.
Proof.
  intros [Hst Hh] Hstep.
  destruct Hstep as [g i p rest Htodo Hfree | g i p rest Htodo Hheld];
    pose proof (Hst i) as Hsi; rewrite Htodo in Hsi.
  - destruct (stage_Acquire p rest Hsi) as [Hin Hother].
    split; simpl.
    + intros j. destruct (Nat.eqb j i); [now apply stage_tail in Hsi | apply Hst].
    + intros j q.
      destruct (Nat.eqb j i) eqn:Hji;
        [apply Nat.eqb_eq in Hji; subst j | apply Nat.eqb_neq in Hji];
        (destruct (PoolId_eqb q p) eqn:Hqp;
          [apply PoolId_eqb_eq in Hqp; subst q |]).
      * split; [intros _; exact Hin | reflexivity].
      * rewrite Hother, <- Htodo; [apply Hh |].
        intros ->. destruct p; discriminate.
      * split; [congruence |].
        intros Hj. apply Hh in Hj. congruence.
      * apply Hh.
  - destruct (stage_Release p rest Hsi) as [_ [Hout Hother]].
    split; simpl.
    + intros j. destruct (Nat.eqb j i); [now apply stage_tail in Hsi | apply Hst].
    + intros j q.
      destruct (Nat.eqb j i) eqn:Hji;
        [apply Nat.eqb_eq in Hji; subst j | apply Nat.eqb_neq in Hji];
        (destruct (PoolId_eqb q p) eqn:Hqp;
          [apply PoolId_eqb_eq in Hqp; subst q |]).
      * rewrite Hout. split; discriminate.
      * rewrite Hother, <- Htodo; [apply Hh |].
        intros ->. destruct p; discriminate.
      * split; [discriminate |].
        intros Hj. apply Hh in Hj. congruence.
      * apply Hh.
Qed.

Lemma lockSteps_locksInv (g g' : Goroutines) :
  locksInv g -> lockSteps g g' -> locksInv g'.
Proof.
  intros Hinv Hsteps. induction Hsteps as [| g1 g2 g3 _ IH Hstep];
    [exact Hinv |].
  eapply lockStep_locksInv; [apply IH, Hinv | exact Hstep].
Qed.

(** Under the invariant some goroutine can always move while one has
    something left to do: the holder of the external mutex can release
    it; failing that the holder of the internal mutex can go on; failing
    that both mutexes are free and whoever is not done can take one. *)
Lemma locksInv_progress (g : Goroutines) :
  locksInv g -> (exists i, todo g i <> []) -> exists g', lockStep g g'.
Proof.
  intros [Hst Hh] [i Hi].
  destruct (holder g ExternalPool) as [t |] eqn:HE.
  { pose proof (proj1 (Hh t ExternalPool) HE) as Hin.
    pose proof (Hst t) as Hs.
    destruct (todo g t) as [| x rest] eqn:Ht; [discriminate |].
    stage_cases Hs; injection Hs as <- <-; try discriminate;
      eexists; eapply step_Unlock; eassumption. }
  destruct (holder g InternalPool) as [t |] eqn:HI.
  { pose proof (proj1 (Hh t InternalPool) HI) as Hin.
    pose proof (Hst t) as Hs.
    destruct (todo g t) as [| x rest] eqn:Ht; [discriminate |].
    stage_cases Hs; injection Hs as <- <-; try discriminate.
    - eexists; eapply step_Lock; eassumption.
    - assert (Hc : holder g ExternalPool = Some t)
        by (apply Hh; rewrite Ht; reflexivity).
      congruence.
    - eexists; eapply step_Unlock; eassumption. }
  pose proof (Hst i) as Hs.
  destruct (todo g i) as [| x rest] eqn:Ht; [congruence |].
  assert (HnoE : inside (x :: rest) ExternalPool = false).
  { destruct (inside (x :: rest) ExternalPool) eqn:E; [| reflexivity].
    rewrite <- Ht in E. apply Hh in E. congruence. }
  assert (HnoI : inside (x :: rest) InternalPool = false).
  { destruct (inside (x :: rest) InternalPool) eqn:E; [| reflexivity].
    rewrite <- Ht in E. apply Hh in E. congruence. }
  stage_cases Hs; injection Hs as <- <-; try discriminate;
    eexists; eapply step_Lock; eassumption.
Qed.

Lemma lockActions_app (ev1 ev2 : list Event) :
  lockActions (ev1 ++ ev2) = lockActions ev1 ++ lockActions ev2.
Proof.
  induction ev1 as [| e ev1 IH]; simpl; [reflexivity |].
  destruct e; simpl; rewrite ?IH; reflexivity.
Qed.

Lemma GetNewAddress_no_locks (a : addressPool) (w : W) :
  lockActions (events_of (GetNewAddress a w)) = [].
Proof.
  unfold GetNewAddress, events_of.
  destruct (started a); [| reflexivity].
  destruct (replenish a w) as [[[err a1] w1] ev1] eqn:Hrep.
  assert (Hev1 : lockActions ev1 = []).
  { revert Hrep. unfold replenish.
    destruct (needsReplenish a); [| now intros [= <- <- <- <-]].
    destruct (branch a =? InternalBranch);
      [| destruct (branch a =? ExternalBranch)];
      try destruct (NextInternalAddresses _ _ w) as [[addrs e] w'];
      try destruct (NextExternalAddresses _ _ w) as [[addrs e] w'];
      try destruct e; now intros [= <- <- <- <-]. }
  destruct err; simpl; [exact Hev1 |].
  destruct (at_index (addresses a1) (cursor a1)); simpl; [| exact Hev1].
  destruct (NotifyReceived _ w1) as [err w2].
  destruct err; simpl; rewrite !lockActions_app, Hev1; reflexivity.
Qed.

Lemma CloseAddressPools_locks (wl : Wallet) (w : W) :
  (lockActions (events_of (CloseAddressPools wl w)) = [] \/
   lockActions (events_of (CloseAddressPools wl w)) = closeLocks) /\
  (forall ep ip mE mI,
     externalPool wl = Some ep -> internalPool wl = Some ip ->
     started ep = true -> started ip = true ->
     mutex ep = Some mE -> mutex ip = Some mI ->
     lockActions (events_of (CloseAddressPools wl w)) = closeLocks).
Proof.
  assert (Hrun : forall ep ip mE mI,
            externalPool wl = Some ep -> internalPool wl = Some ip ->
            started ep = true -> started ip = true ->
            mutex ep = Some mE -> mutex ip = Some mI ->
            lockActions (events_of (CloseAddressPools wl w)) = closeLocks).
  { intros ep ip mE mI HeP HiP HeS HiS HeM HiM.
    unfold CloseAddressPools. rewrite HeP, HiP, HeS, HiS, HeM, HiM. simpl.
    pose proof (GetNewAddress_no_locks ep w) as H1.
    destruct (GetNewAddress ep w) as [[[r1 ep1] w1] ev1].
    unfold events_of in H1. simpl in H1.
    destruct r1 as [[x | e] | why]; unfold events_of; simpl;
      try (rewrite !lockActions_app, H1; reflexivity).
    pose proof (GetNewAddress_no_locks ip w1) as H2.
    destruct (GetNewAddress ip w1) as [[[r2 ip2] w2] ev2].
    unfold events_of in H2. simpl in H2.
    destruct r2 as [[y | e] | why]; simpl;
      try (rewrite !lockActions_app, H1, H2; reflexivity).
    destruct (StoreNextToUseAddresses x y w2) as [err w3].
    destruct err; simpl; rewrite !lockActions_app, H1, H2; reflexivity. }
  split; [| exact Hrun].
  destruct (internalPool wl) as [ip |] eqn:HiP;
    [| left; unfold CloseAddressPools; rewrite HiP; reflexivity].
  destruct (externalPool wl) as [ep |] eqn:HeP;
    [| left; unfold CloseAddressPools; rewrite HiP, HeP; reflexivity].
  destruct (started ip) eqn:HiS;
    [| left; unfold CloseAddressPools; rewrite HiP, HeP, HiS; reflexivity].
  destruct (started ep) eqn:HeS;
    [| left; unfold CloseAddressPools; rewrite HiP, HeP, HiS, HeS;
       reflexivity].
  destruct (mutex ip) as [mI |] eqn:HiM;
    [| left; unfold CloseAddressPools; rewrite HiP, HeP, HiS, HeS, HiM;
       reflexivity].
  destruct (mutex ep) as [mE |] eqn:HeM;
    [| left; unfold CloseAddressPools;
       rewrite HiP, HeP, HiS, HeS, HiM, HeM; reflexivity].
  right. now apply (Hrun ep ip mE mI).
Qed.

Lemma GetNewAddressExternal_locks (wl : Wallet) (w : W) :
  In (lockActions (events_of (GetNewAddressExternal wl w))) stages.
Proof.
  unfold GetNewAddressExternal, events_of.
  destruct (externalPool wl) as [ep |]; [| now left].
  destruct (mutex ep); [| now left].
  pose proof (GetNewAddress_no_locks ep w) as Hl. unfold events_of in Hl.
  destruct (GetNewAddress ep w) as [[[r ep1] w1] ev]. simpl in *.
  rewrite lockActions_app, Hl. simpl. tauto.
Qed.

Lemma GetNewAddressInternal_locks (wl : Wallet) (w : W) :
  In (lockActions (events_of (GetNewAddressInternal wl w))) stages.
Proof.
  unfold GetNewAddressInternal, events_of.
  destruct (internalPool wl) as [ip |]; [| now left].
  destruct (mutex ip); [| now left].
  pose proof (GetNewAddress_no_locks ip w) as Hl. unfold events_of in Hl.
  destruct (GetNewAddress ip w) as [[[r ip1] w1] ev]. simpl in *.
  rewrite lockActions_app, Hl. simpl. tauto.
Qed.

Lemma lockingCall_start (l : list LockAction) :
  lockingCall l ->
  In l stages /\ forall p, inside l p = false.
Proof.
  intros (wl & w & Hl).
  assert (Hs : In l stages /\
               (l = [] \/ l = closeLocks \/
                l = [Acquire ExternalPool; Release ExternalPool] \/
                l = [Acquire InternalPool; Release InternalPool])).
  { destruct Hl as [-> | [-> | ->]].
    - destruct (proj1 (CloseAddressPools_locks wl w)) as [-> | ->];
        unfold stages; simpl; tauto.
    - pose proof (GetNewAddressExternal_locks wl w) as Hs.
      split; [exact Hs |].
      revert Hs. unfold GetNewAddressExternal, events_of.
      destruct (externalPool wl) as [ep |]; [| now left].
      destruct (mutex ep); [| now left].
      pose proof (GetNewAddress_no_locks ep w) as Hn.
      unfold events_of in Hn.
      destruct (GetNewAddress ep w) as [[[r ep1] w1] ev]. simpl in *.
      rewrite lockActions_app, Hn. simpl. tauto.
    - pose proof (GetNewAddressInternal_locks wl w) as Hs.
      split; [exact Hs |].
      revert Hs. unfold GetNewAddressInternal, events_of.
      destruct (internalPool wl) as [ip |]; [| now left].
      destruct (mutex ip); [| now left].
      pose proof (GetNewAddress_no_locks ip w) as Hn.
      unfold events_of in Hn.
      destruct (GetNewAddress ip w) as [[[r ip1] w1] ev]. simpl in *.
      rewrite lockActions_app, Hn. simpl. tauto. }
  destruct Hs as [Hs Hc]. split; [exact Hs |].
  intros p. destruct Hc as [-> | [-> | [-> | ->]]]; destruct p; reflexivity.
Qed.

(** C8, as the code has it.  [CloseAddressPools] takes the two mutexes in
    a fixed order, the internal pool's first and the external pool's
    second, and gives them back in the opposite order; goroutines that
    run calls of [CloseAddressPools], [GetNewAddressExternal] and
    [GetNewAddressInternal] side by side never get stuck on the
    mutexes. *)
Theorem CloseAddressPools_locks_internal_first
    (wl : Wallet) (w : W) (ep ip : addressPool) (mE mI : Mutex) :
  externalPool wl = Some ep -> internalPool wl = Some ip ->
  started ep = true -> started ip = true ->
  mutex ep = Some mE -> mutex ip = Some mI ->
  lockActions (events_of (CloseAddressPools wl w)) =
    [Acquire InternalPool; Acquire ExternalPool;
     Release ExternalPool; Release InternalPool] /\
  forall g0 g,
    (forall i, lockingCall (todo g0 i)) ->
    (forall p, holder g0 p = None) ->
    lockSteps g0 g ->
    ~ deadlocked g.
Proof.
  intros HeP HiP HeS HiS HeM HiM. split.
  - now apply (proj2 (CloseAddressPools_locks wl w) ep ip mE mI).
  - intros g0 g Hcalls Hfree Hsteps [Hleft Hstuck].
    assert (Hinv0 : locksInv g0).
    { split.
      - intros i. apply lockingCall_start, Hcalls.
      - intros i p. rewrite Hfree.
        rewrite (proj2 (lockingCall_start _ (Hcalls i)) p).
        split; discriminate. }
    pose proof (lockSteps_locksInv g0 g Hinv0 Hsteps) as Hinv.
    destruct (locksInv_progress g Hinv Hleft) as [g' Hstep].
    exact (Hstuck g' Hstep).
Qed.

(** ** Batches *)

Lemma uint32_add_uint32 (x y : Z) : uint32 (uint32 x + y) = uint32 (x + y).
Proof. unfold uint32. now rewrite Zplus_mod_idemp_l. Qed.

(** After a batch of [n] successful calls the cursor is [n] further, the
    index is [n] further, the window has only grown at its end, and every
    address returned is the decoding of a window string at a position the
    cursor went over. *)
Lemma allocate_batch (ws : list W) :
  forall (a a1 : addressPool) got ev,
  0 <= index a < 2 ^ 32 ->
  allocate a ws = Some (got, a1, ev) ->
  List.length got = List.length ws /\
  cursor a1 = cursor a + len ws /\
  index a1 = uint32 (index a + len ws) /\
  addresses a1 = addresses a ++ delivered ev /\
  started a1 = started a /\
  (ws <> [] -> started a = true) /\
  (forall k x, nth_error got k = Some x ->
     exists s,
       at_index (addresses a1) (cursor a + Z.of_nat k) = Some s /\
       x = DecodeAddress s).
Proof.
  induction ws as [| w ws IH]; intros a a1 got ev Hidx Hall; simpl in Hall.
  - injection Hall as <- <- <-. simpl.
    rewrite app_nil_r, !Z.add_0_r.
    repeat split; try congruence.
    + symmetry. now apply uint32_small.
    + intros [] x; discriminate.
  - destruct (GetNewAddress a w) as [[[r a'] w'] ev1] eqn:Hg.
    destruct r as [[x | e] | why]; try discriminate.
    destruct (allocate a' ws) as [[[got' a2] ev2] |] eqn:Hrec;
      [| discriminate].
    injection Hall as <- <- <-.
    pose proof (GetNewAddress_success a w x) as Hs.
    rewrite Hg in Hs. unfold result_of, pool_of, events_of in Hs.
    simpl in Hs.
    destruct (Hs eq_refl) as (Hst & (s & Hat & Hx) & Hwin & Hc & Hi & _).
    assert (Hidx' : 0 <= index a' < 2 ^ 32)
      by (rewrite Hi; apply uint32_range).
    destruct (IH _ _ _ _ Hidx' Hrec)
      as (Hlen & Hc2 & Hi2 & Hwin2 & Hst2 & _ & Hgot).
    assert (Hl : len (w :: ws) = 1 + len ws) by (unfold len; cbn [List.length]; lia).
    split; [simpl; congruence |].
    split; [lia |].
    split; [rewrite Hi2, Hi, uint32_add_uint32, Hl; apply f_equal; lia |].
    split; [rewrite Hwin2, Hwin, delivered_app; symmetry; apply app_assoc |].
    split; [assert (Hsa : started a' = started a); [| congruence] |].
    { destruct (GetNewAddress_allocated a w) as [[_ [Hno _]] | [s0 Hs0]].
      - exfalso. apply (Hno x). now rewrite Hg.
      - destruct Hs0 as [_ _ Hpool _]. rewrite Hg in Hpool.
        unfold pool_of in Hpool. simpl in Hpool. subst a'. reflexivity. }
    split; [intros _; exact Hst |].
    intros [| k] y Hy; simpl in Hy.
    + injection Hy as <-. exists s. split; [| exact Hx].
      rewrite Hwin2, Z.add_0_r. now apply at_index_app.
    + destruct (Hgot k y Hy) as (s' & Hat' & Hy').
      exists s'. split; [| exact Hy'].
      rewrite Hc in Hat'. rewrite <- Hat'. f_equal. lia.
Qed.



(** What one call makes of a started pool: the pool stays started, its
    window is an end piece of the old window followed by what the manager
    delivered during the call, and an address it returns is the decoding of
    a string of that window. *)
Lemma exec1_window (a : addressPool) (op : Op) :
  started a = true ->
  cursorInWindow a ->
  started (fst (fst (exec1 a op))) = true /\
  (exists dropped,
     dropped ++ addresses (fst (fst (exec1 a op))) =
     addresses a ++ delivered (snd (exec1 a op))) /\
  (forall x, In x (snd (fst (exec1 a op))) ->
     exists s,
       In s (addresses (fst (fst (exec1 a op)))) /\ x = DecodeAddress s).
Proof.
  intros Hst Hc. destruct op as [br wl w | w | w |]; simpl.
  - unfold initialize. rewrite Hst. simpl.
    split; [exact Hst |]. split; [| intros x []].
    exists []. now rewrite app_nil_r.
  - destruct (GetNewAddress_allocated a w) as [(_ & Hno & Hpool) | [s Hs]].
    + unfold result_of, pool_of, events_of in *.
      destruct (GetNewAddress a w) as [[[r a1] w1] ev]. simpl in *.
      subst a1. simpl. split; [exact Hst |]. split; [now exists [] |].
      destruct r as [[x | e] | why];
        [now destruct (Hno x) | intros y [] | intros y []].
    + destruct Hs as [_ Hat Hpool [err [_ Hres]]].
      unfold result_of, pool_of, events_of in *.
      destruct (GetNewAddress a w) as [[[r a1] w1] ev]. simpl in *.
      subst a1 r. simpl. split; [exact Hst |]. split; [now exists [] |].
      apply at_index_Some in Hat as [_ Hnth]. apply nth_error_In in Hnth.
      destruct err; intros y []; [| contradiction].
      exists s. split; [exact Hnth | now symmetry].
  - destruct (BatchFinish_pool a w (proj1 Hc)) as (_ & Hpool & Hdel).
    unfold pool_of, events_of in *.
    destruct (BatchFinish a w) as [[[r a1] w1] ev]. simpl in *.
    subst a1. rewrite Hdel. simpl.
    split; [exact Hst |]. split; [| intros x []].
    exists (firstn (Z.to_nat (cursor a)) (addresses a)).
    now rewrite firstn_skipn, app_nil_r.
  - split; [exact Hst |]. split; [| intros x []].
    exists []. now rewrite app_nil_r.
Qed.

Lemma exec_window (ops : list Op) :
  forall (a a' : addressPool) got ev,
  started a = true ->
  cursorInWindow a ->
  exec a ops = (a', got, ev) ->
  forall x, In x got ->
    exists s, In s (addresses a ++ delivered ev) /\ x = DecodeAddress s.
Proof.
  induction ops as [| op ops IH]; intros a a' got ev Hst Hc Hexec;
    simpl in Hexec.
  - injection Hexec as <- <- <-. intros x [].
  - destruct (exec1_window a op Hst Hc) as (Hst1 & [dropped Hdrop] & Hgot1).
    assert (Hinv1 : poolInv (fst (fst (exec1 a op)))).
    { apply exec1_poolInv. split; [exact Hc | congruence]. }
    destruct (exec1 a op) as [[a1 got1] ev1]. simpl in *.
    destruct (exec a1 ops) as [[a2 got2] ev2] eqn:Hrec.
    injection Hexec as <- <- <-.
    assert (Hsub : forall s, In s (addresses a1) ->
                             In s (addresses a ++ delivered ev1)).
    { intros s Hs. rewrite <- Hdrop. apply in_or_app. now right. }
    intros x Hx. rewrite delivered_app, app_assoc.
    apply in_app_or in Hx as [Hx | Hx].
    + destruct (Hgot1 x Hx) as (s & Hs & ->).
      exists s. split; [| reflexivity].
      apply in_or_app. left. now apply Hsub.
    + destruct (IH a1 a2 got2 ev2 Hst1 (proj1 Hinv1) Hrec x Hx)
        as (s & Hs & ->).
      exists s. split; [| reflexivity].
      apply in_app_or in Hs as [Hs | Hs]; apply in_or_app;
        [left; now apply Hsub | now right].
Qed.

Lemma NoDup_app_disjoint {A : Type} (l1 l2 : list A) (x : A) :
  NoDup (l1 ++ l2) -> In x l1 -> In x l2 -> False.
Proof.
  induction l1 as [| y l1 IH]; simpl; intros Hnd H1 H2; [exact H1 |].
  inversion Hnd as [| ? ? Hy Hnd']; subst.
  destruct H1 as [-> | H1].
  - apply Hy. apply in_or_app. now right.
  - now apply IH.
Qed.

Lemma nth_error_In_firstn {A : Type} (l : list A) (k n : nat) (x : A) :
  nth_error l k = Some x -> (k < n)%nat -> In x (firstn n l).
Proof.
  intros Hk Hlt. apply (nth_error_In _ k).
  now rewrite nth_error_firstn, (proj2 (Nat.ltb_lt k n) Hlt).
Qed.

(** C1.  After calls of [GetNewAddress] that succeed and one
    [BatchFinish], the cursor is 0; and as long as the manager never
    delivers a string twice (nor one already in the window) and distinct
    strings decode to distinct addresses, no address that the batch
    returned is returned by a later call of [GetNewAddress] on the pool,
    whatever is called on the pool in between and whatever the
    collaborators answer.  Address reuse plays no part in these calls. *)
Theorem commit_then_never_again
    (a a1 : addressPool) (ws : list W) (wc : W) (ops : list Op)
    (got1 : list (option Address)) (ev1 : list Event) :
  cursorInWindow a ->
  0 <= index a < 2 ^ 32 ->
  allocate a ws = Some (got1, a1, ev1) ->
  let a2 := pool_of (BatchFinish a1 wc) in
  let later := exec a2 ops in
  let derived := addresses a ++ delivered ev1 ++ delivered (snd later) in
  NoDup derived ->
  (forall s1 s2, In s1 derived -> In s2 derived ->
     DecodeAddress s1 = DecodeAddress s2 -> s1 = s2) ->
  result_of (BatchFinish a1 wc) = Returned tt /\
  cursor a2 = 0 /\
  forall x, In x got1 -> ~ In x (snd (fst later)).
Proof.
  intros Hc Hidx Hall a2 later derived Hnd Hinj.
  destruct (allocate_batch ws a a1 got1 ev1 Hidx Hall)
    as (Hlen & Hc1 & _ & Hwin & Hst & Hstarted & Hgot).
  pose proof (len_nonneg ws) as Hn.
  assert (Hc1' : 0 <= cursor a1) by (destruct Hc; lia).
  destruct (BatchFinish_pool a1 wc Hc1') as (Hres & Hpool & _).
  split; [exact Hres |].
  assert (Ha2 : a2 = committed a1) by exact Hpool.
  split; [rewrite Ha2; reflexivity |].
  intros x Hx1 Hx3.
  assert (Hne : ws <> []).
  { intros ->. simpl in Hlen. destruct got1; [destruct Hx1 | discriminate]. }
  (* the string behind [x] in the batch: in the part of the window that
     the commit drops *)
  apply In_nth_error in Hx1 as [k Hk].
  destruct (Hgot k x Hk) as (s & Hat & Hxs).
  assert (Hklt : (k < List.length ws)%nat).
  { rewrite <- Hlen. apply nth_error_Some. congruence. }
  apply at_index_Some in Hat as [Hrange Hnth].
  assert (Hs1 : In s (firstn (Z.to_nat (cursor a1)) (addresses a1))).
  { apply (nth_error_In_firstn _ _ _ _ Hnth). unfold len in Hc1.
    destruct Hc. lia. }
  (* the string behind [x] later: in the rest of the window, or delivered
     after the commit *)
  assert (Hst2 : started a2 = true).
  { rewrite Ha2. simpl. rewrite Hst. now apply Hstarted. }
  assert (Hcw2 : cursorInWindow a2).
  { rewrite Ha2. unfold cursorInWindow, committed. simpl.
    pose proof (len_nonneg (skipn (Z.to_nat (cursor a1)) (addresses a1))).
    lia. }
  destruct later as [[a3 got3] ev3] eqn:Hlater. simpl in *.
  destruct (exec_window ops a2 a3 got3 ev3 Hst2 Hcw2 Hlater x Hx3)
    as (s' & Hs3 & Hxs').
  rewrite Ha2 in Hs3. simpl in Hs3.
  assert (Hsplit : derived =
                   firstn (Z.to_nat (cursor a1)) (addresses a1) ++
                   (skipn (Z.to_nat (cursor a1)) (addresses a1) ++
                    delivered ev3)).
  { unfold derived. rewrite app_assoc, <- Hwin, app_assoc, firstn_skipn.
    reflexivity. }
  assert (Heq : s = s').
  { apply Hinj; [| | congruence]; fold derived; rewrite Hsplit;
      apply in_or_app; [now left | now right]. }
  subst s'. fold derived in Hnd. rewrite Hsplit in Hnd.
  exact (NoDup_app_disjoint _ _ s Hnd Hs1 Hs3).
Qed.

End Properties.

(** * The properties on the reference wallet *)

Lemma distinct_NoDup (l : list string) : distinct l = true -> NoDup l.
Proof.
  induction l as [| s l IH]; simpl; intros Hd; constructor;
    apply andb_true_iff in Hd as [Hs Hl].
  - intros Hin. apply negb_true_iff in Hs.
    assert (Hex : existsb (String.eqb s) l = true).
    { apply existsb_exists. exists s. split; [exact Hin |].
      apply String.eqb_refl. }
    congruence.
  - now apply IH.
Qed.

Lemma Ref_deliversRequested : deliversRequested (H := Ref.services).
Proof.
  intros acct n w w1 addrs Hn. simpl.
  assert (Hlen : forall br from, len (Ref.derive br from n) = n).
  { intros br from. unfold Ref.derive, len.
    rewrite length_map, length_seq. lia. }
  destruct (Ref.locked w); intros [Hc | Hc]; try discriminate;
    injection Hc as <- _; apply Hlen.
Qed.


(** On a fresh external pool: two addresses handed out and committed, then
    the next one handed out, rolled back and handed out again. *)
Lemma commit_then_never_again_witness :
  match allocate (Ref.freshPool ExternalBranch) [w0; w0] with
  | Some (got1, a1, _) =>
      cursor (pool_of (BatchFinish a1 w0)) = 0 /\
      forall x, In x got1 ->
        ~ In x (snd (fst (exec (pool_of (BatchFinish a1 w0))
                               [DoGetNewAddress w0; DoBatchRollback;
                                DoGetNewAddress w0])))
  | None => False
  end.
Proof.
  destruct (allocate (Ref.freshPool ExternalBranch) [w0; w0])
    as [[[got1 a1] ev1] |] eqn:Hall; [| vm_compute in Hall; discriminate].
  refine (proj2 (commit_then_never_again
                   (Ref.freshPool ExternalBranch) a1 [w0; w0] w0
                   [DoGetNewAddress w0; DoBatchRollback; DoGetNewAddress w0]
                   got1 ev1 _ _ Hall _ _)).
  - unfold cursorInWindow. vm_compute. split; discriminate.
  - vm_compute. split; [discriminate | reflexivity].
  - vm_compute in Hall. injection Hall as <- <- <-.
    apply distinct_NoDup. vm_compute. reflexivity.
  - intros s1 s2 _ _ Hd. simpl in Hd. now injection Hd.
Defined.



Lemma replenishment_appends_addressPoolBuffer_witness :
  deliversRequested (H := Ref.services) /\
  len (addresses (pool_of (GetNewAddress (Ref.freshPool ExternalBranch) w0)))
  = 20.
Proof.
  split; [exact Ref_deliversRequested |].
  destruct (proj1 (replenishment_appends_addressPoolBuffer
                     (Ref.freshPool ExternalBranch) w0 Ref_deliversRequested)
                  _ eq_refl)
    as [(_ & addrs & _ & Hlen & Hwin) | (Hno & _)].
  - rewrite Hwin. unfold len in *. rewrite length_app, length_map.
    simpl. exact Hlen.
  - exfalso. apply Hno. right. reflexivity.
Defined.

(** Highest known index 3, stored next-to-use address at index 2: the
    window is made of the addresses at 2 and 3 and the index is 2. *)
Lemma initialize_window_starts_at_checkpoint_witness :
  addresses (pool_of (initialize NewAddressPool ExternalBranch noReuse w4))
    = ["E2"; "E3"] /\
  index (pool_of (initialize NewAddressPool ExternalBranch noReuse w4)) = 2 /\
  visited (events_of (initialize NewAddressPool ExternalBranch noReuse w4))
    = [3; 2].
Proof.
  destruct (initialize_window_starts_at_checkpoint
              NewAddressPool ExternalBranch noReuse w4 w4 w4
              (Some (Ref.addressAt ExternalBranch 2)) None
              (Ref.addressAt ExternalBranch 2) 3 2
              [CallLastAddress ExternalBranch DefaultAccountNum]
              (Ref.addressAt ExternalBranch)
              ltac:(reflexivity) ltac:(reflexivity) ltac:(reflexivity)
              ltac:(left; split; reflexivity)
              ltac:(reflexivity)
              ltac:(lia)
              ltac:(unfold addressPoolBuffer; lia)
              ltac:(intros j _; reflexivity)
              ltac:(reflexivity)
              ltac:(intros j Hj; assert (j = 3) as -> by lia;
                    vm_compute; discriminate))
    as (_ & Hv & Hw & Hi & _).
  split; [exact Hw |]. split; [exact Hi | exact Hv].
Defined.

(** C4 as the specification words it fails there: the window is not the one made
    of the addresses strictly above the matched index 2 (that would be the
    address at 3 alone); the matched address is its first element. *)
Lemma initialize_window_excludes_checkpoint_counterexample :
  Hash160 (Ref.addressAt ExternalBranch 2)
    = Hash160 (Ref.addressAt ExternalBranch 2) /\
  getLastAddressIndex ExternalBranch w4
    = (3, None, w4, [CallLastAddress ExternalBranch DefaultAccountNum]) /\
  addresses (pool_of (initialize NewAddressPool ExternalBranch noReuse w4))
    = ["E2"; "E3"] /\
  windowAbove (Ref.addressAt ExternalBranch) 2 3 = ["E3"] /\
  addresses (pool_of (initialize NewAddressPool ExternalBranch noReuse w4))
    <> windowAbove (Ref.addressAt ExternalBranch) 2 3.
Proof.
  repeat split; try reflexivity. vm_compute. discriminate.
Qed.

(** A commit on a wallet whose store is read-only. *)
Lemma BatchFinish_failure_is_logged_witness :
  let w := Ref.mkWorld 4 0 None None [] [] false true false in
  result_of (BatchFinish midBatch w) = Returned tt /\
  addresses (pool_of (BatchFinish midBatch w)) = ["E2"; "E3"] /\
  cursor (pool_of (BatchFinish midBatch w)) = 0 /\
  index (pool_of (BatchFinish midBatch w)) = 2 /\
  List.length (filter isLogErrorf (events_of (BatchFinish midBatch w))) = 1%nat.
Proof.
  intros w.
  destruct (BatchFinish_failure_is_logged midBatch w
              ltac:(vm_compute; discriminate))
    as (Hr & Hp & Hi & Hl).
  split; [exact Hr |]. rewrite Hp.
  split; [reflexivity |]. split; [reflexivity |].
  split; [reflexivity |]. rewrite Hl. reflexivity.
Defined.

(** Closing a wallet with two fresh pools stores [E0] and [I0]. *)
Lemma CloseAddressPools_stores_one_of_each_witness :
  let wl := Ref.wallet (Ref.freshPool ExternalBranch)
                       (Ref.freshPool InternalBranch) in
  result_of (CloseAddressPools wl w0) = Returned tt /\
  filter isStore (events_of (CloseAddressPools wl w0)) =
    [CallStoreNextToUseAddresses (Some (Ref.addressOf "E0"))
                                 (Some (Ref.addressOf "I0")) None].
Proof.
  intros wl.
  destruct (GetNewAddress (Ref.freshPool ExternalBranch) w0)
    as [[[r1 ep1] w1] ev1] eqn:Hg1.
  destruct (GetNewAddress (Ref.freshPool InternalBranch) w1)
    as [[[r2 ip2] w2] ev2] eqn:Hg2.
  assert (Hr1 : r1 = Returned (inl (Some (Ref.addressOf "E0"))))
    by (vm_compute in Hg1; now injection Hg1 as <- _ _ _).
  assert (Hw1 : w1 = world_of (GetNewAddress (Ref.freshPool ExternalBranch) w0))
    by (now rewrite Hg1).
  subst r1.
  assert (Hr2 : r2 = Returned (inl (Some (Ref.addressOf "I0"))))
    by (rewrite Hw1 in Hg2; vm_compute in Hg2; now injection Hg2 as <- _ _ _).
  subst r2.
  destruct (CloseAddressPools_stores_one_of_each
              wl w0 w1 w2
              (snd (StoreNextToUseAddresses (Some (Ref.addressOf "E0"))
                                            (Some (Ref.addressOf "I0")) w2))
              (Ref.freshPool ExternalBranch) (Ref.freshPool InternalBranch)
              ep1 ip2 NewMutex NewMutex
              (Some (Ref.addressOf "E0")) (Some (Ref.addressOf "I0"))
              ev1 ev2
              eq_refl eq_refl eq_refl eq_refl eq_refl eq_refl Hg1 Hg2)
    as (Hres & _ & _ & _ & _ & _ & _ & _ & _ & _ & _ & _ & Hstore).
  - assert (Hro : Ref.readOnly w2 = false).
    { assert (Hw2 : w2 = world_of (GetNewAddress
                                     (Ref.freshPool InternalBranch) w1))
        by (now rewrite Hg2).
      rewrite Hw2, Hw1. vm_compute. reflexivity. }
    simpl. rewrite Hro. reflexivity.
  - split; [exact Hres | exact Hstore].
Defined.

(** The pool that [initialize] and one call of [GetNewAddress] make of a
    new pool. *)
Lemma cursor_in_window_witness :
  let a := fst (fst (exec1
                 (fst (fst (exec1 NewAddressPool
                              (DoInitialize ExternalBranch noReuse w0))))
                 (DoGetNewAddress w0))) in
  cursor a = 1 /\ 0 <= cursor a <= len (addresses a).
Proof.
  intros a. split; [reflexivity |].
  apply (cursor_in_window (H := Ref.services) a).
  apply reachable_step, reachable_step, reachable_new.
Defined.

(** Goroutines that all run [CloseAddressPools] on two fresh pools. *)
Lemma CloseAddressPools_locks_internal_first_witness :
  let wl := Ref.wallet (Ref.freshPool ExternalBranch)
                       (Ref.freshPool InternalBranch) in
  let g := mkGoroutines
             (fun _ => lockActions (events_of (CloseAddressPools wl w0)))
             (fun _ => None) in
  acquired (lockActions (events_of (CloseAddressPools wl w0)))
    = [InternalPool; ExternalPool] /\
  ~ deadlocked g.
Proof.
  intros wl g.
  destruct (CloseAddressPools_locks_internal_first
              wl w0 (Ref.freshPool ExternalBranch)
              (Ref.freshPool InternalBranch) NewMutex NewMutex
              eq_refl eq_refl eq_refl eq_refl eq_refl eq_refl)
    as [Horder Hfree].
  split; [rewrite Horder; reflexivity |].
  apply (Hfree g g).
  - intros i. exists wl, w0. left. reflexivity.
  - reflexivity.
  - apply lockSteps_refl.
Defined.

(** C8 as the specification words it fails: the mutexes are not taken external
    first, and a caller that takes both mutexes, the external one first,
    gets stuck with [CloseAddressPools]: each holds the mutex the other
    waits for. *)
Lemma CloseAddressPools_locks_external_first_counterexample :
  let wl := Ref.wallet (Ref.freshPool ExternalBranch)
                       (Ref.freshPool InternalBranch) in
  acquired (lockActions (events_of (CloseAddressPools wl w0)))
    <> [ExternalPool; InternalPool] /\
  lockActions (events_of (CloseAddressPools wl w0)) = todo twoCallers 0 /\
  exists g, lockSteps twoCallers g /\ deadlocked g.
Proof.
  intros wl. split; [vm_compute; discriminate |].
  split; [reflexivity |].
  set (g1 := advance twoCallers 0
               [Acquire ExternalPool; Release ExternalPool;
                Release InternalPool] InternalPool (Some 0%nat)).
  set (g2 := advance g1 1
               [Acquire InternalPool; Release InternalPool;
                Release ExternalPool] ExternalPool (Some 1%nat)).
  exists g2. split.
  - apply (lockSteps_step _ g1).
    + apply (lockSteps_step _ twoCallers); [apply lockSteps_refl |].
      now apply step_Lock.
    + now apply step_Lock.
  - split; [exists 0%nat; discriminate |].
    intros g' Hstep.
    inversion Hstep as [g i p rest Htodo Hfree | g i p rest Htodo Hheld];
      subst; destruct i as [| [| i]]; simpl in Htodo;
      try discriminate; injection Htodo as <- _;
      simpl in *; discriminate.
Qed.

(** The chain server is offline on the first call of a fresh pool. *)
Lemma GetNewAddress_notify_failure_keeps_advancement_witness :
  let w := Ref.mkWorld 0 0 None None [] [] false false true in
  let a := Ref.freshPool ExternalBranch in
  result_of (GetNewAddress a w)
    = Returned (inr (OtherError "chain server is offline")) /\
  cursor (pool_of (GetNewAddress a w)) = 1 /\
  index (pool_of (GetNewAddress a w)) = 1 /\
  len (addresses (pool_of (GetNewAddress a w))) = 20.
Proof.
  intros w a.
  assert (Hin : In (CallNotifyReceived
                      [Some (Ref.addressOf "E0")]
                      (Some (OtherError "chain server is offline")))
                   (events_of (GetNewAddress a w)))
    by (vm_compute; right; right; left; reflexivity).
  pose proof (GetNewAddress_notify_failure_keeps_advancement a w _ _ Hin)
    as (_ & Hr & Hc & Hi & _ & Hw & _).
  split; [exact Hr |]. split; [exact Hc |]. split; [exact Hi |].
  rewrite Hw. vm_compute. reflexivity.
Defined.

(** A branch whose only address is the one at index 0. *)
Lemma initialize_index_zero_is_fresh_witness :
  let w := Ref.world 1 0 None None in
  Ref.lastAddress 1 w = (0, None, w) /\
  pool_of (initialize NewAddressPool ExternalBranch noReuse w)
    = mkPool [] 0 ExternalBranch 0 true (Some NewMutex).
Proof.
  intros w. split; [reflexivity |].
  refine (proj2 (proj1 (initialize_index_zero_is_fresh
                          NewAddressPool ExternalBranch noReuse w eq_refl)
                       None None w LastExternalAddress 0 None w
                       eq_refl (or_intror (conj eq_refl eq_refl)) eq_refl
                       (or_introl (conj eq_refl eq_refl)))).
Defined.

(** * Further properties of the pool *)

Section Further.

Context {W : Type} `{Services W}.

(** ** Before and after [initialize] *)

Lemma exec1_NewAddressPool (op : @Op W) :
  isInitialize op = false ->
  exec1 NewAddressPool op = (NewAddressPool, [], snd (exec1 NewAddressPool op))
  /\ filter isCollaboratorCall (snd (exec1 NewAddressPool op)) = [].
Proof.
  destruct op as [br wl w | w | w |]; intros Hop;
    try discriminate; split; reflexivity.
Qed.

(** X1. A pool that was created and never initialized is left exactly as
    it was created by any calls of [GetNewAddress], [BatchFinish] and
    [BatchRollback]: no address is returned and no collaborator is called
    (the wallet of such a pool is nil). *)
Theorem uninitialized_pool_is_inert (ops : list (@Op W)) :
  forallb (fun op => negb (isInitialize op)) ops = true ->
  fst (fst (exec NewAddressPool ops)) = NewAddressPool /\
  snd (fst (exec NewAddressPool ops)) = [] /\
  filter isCollaboratorCall (snd (exec NewAddressPool ops)) = [].
Proof.
  induction ops as [| op ops IH]; simpl; intros Hops;
    [repeat split |].
  apply andb_true_iff in Hops as [Hop Hops].
  apply negb_true_iff in Hop.
  destruct (exec1_NewAddressPool op Hop) as [Hstep Hcalls].
  rewrite Hstep.
  destruct (IH Hops) as (Hpool & Hgot & Hev).
  destruct (exec NewAddressPool ops) as [[a2 got2] ev2]. simpl in *.
  subst a2 got2. repeat split.
  now rewrite filter_app, Hcalls, Hev.
Qed.

(** [initialize] returns nil exactly when it leaves the pool started. *)
Lemma initialize_nil_started (a : addressPool) (br : Z) (wl : Wallet)
    (w : W) :
  started a = false ->
  (result_of (initialize a br wl w) = Returned None <->
   started (pool_of (initialize a br wl w)) = true).
Proof.
  intros Hst. unfold initialize. rewrite Hst.
  destruct (NextToUseAddresses w) as [[[ext int] err] w1].
  destruct err;
    [unfold result_of, pool_of; simpl; rewrite Hst; split; discriminate |].
  assert (Hgo : forall lsa,
            result_of
              (let '(res, a', w', ev) :=
                 loadWindow
                   (set_branch (set_mutex (set_addresses a [])
                                          (Some NewMutex)) br)
                   lsa br (addressReuse wl) w1 in
               (res, a', w', CallNextToUseAddresses :: ev)) = Returned None
            <->
            started (pool_of
              (let '(res, a', w', ev) :=
                 loadWindow
                   (set_branch (set_mutex (set_addresses a [])
                                          (Some NewMutex)) br)
                   lsa br (addressReuse wl) w1 in
               (res, a', w', CallNextToUseAddresses :: ev))) = true).
  { intros lsa. unfold loadWindow.
    generalize (Z.to_nat addressPoolBuffer). intros fuel.
    destruct (getLastAddressIndex br w1) as [[[li err] w2] ev2].
    destruct (walk (addressReuse wl) lsa br fuel li [] w2) as [[r w3] ev3].
    destruct (li =? 0); destruct err; destruct r;
      unfold result_of, pool_of; simpl; rewrite ?Hst;
      split; (reflexivity || discriminate). }
  destruct (br =? ExternalBranch); [apply Hgo |].
  destruct (br =? InternalBranch); [apply Hgo |].
  unfold result_of, pool_of; simpl; rewrite Hst; split; discriminate.
Qed.

(** X2. [initialize] returns nil exactly when it leaves the pool started
    (a call that fails leaves it unstarted, to be tried again); and once a
    call has returned nil, every later call of [initialize], for whatever
    branch and wallet, returns nil at once: the pool, its branch included,
    and the collaborators are left as they are. *)
Theorem initialize_only_once
    (a : addressPool) (br : Z) (wl : Wallet) (w : W) :
  (started a = false ->
   (result_of (initialize a br wl w) = Returned None <->
    started (pool_of (initialize a br wl w)) = true)) /\
  (result_of (initialize a br wl w) = Returned None ->
   forall br' wl' w',
     initialize (pool_of (initialize a br wl w)) br' wl' w'
     = (Returned None, pool_of (initialize a br wl w), w', [])).
Proof.
  split; [apply initialize_nil_started |].
  intros Hres br' wl' w'.
  assert (Hst : started (pool_of (initialize a br wl w)) = true).
  { destruct (started a) eqn:Ha.
    - unfold initialize. rewrite Ha. exact Ha.
    - now apply initialize_nil_started. }
  unfold initialize at 1. now rewrite Hst.
Qed.

(** X3. An error of [LastExternalAddress] or [LastInternalAddress] other
    than [ErrAddressNotFound] is not returned by [initialize]: the error
    check after [getLastAddressIndex] only looks for the fresh wallet, the
    walk does not run because the index given back with the error is 0,
    and the call returns nil with the pool started on an empty window at
    index 0. *)
Theorem initialize_drops_last_address_error
    (a : addressPool) (br : Z) (wl : Wallet) (w w1 w2 : W)
    (ext int : option Address)
    (lastAddrFunc : Z -> W -> Z * option error * W)
    (lastIndex : Z) (e : error) :
  started a = false ->
  NextToUseAddresses w = (ext, int, None, w1) ->
  br = InternalBranch /\ lastAddrFunc = LastInternalAddress \/
  br = ExternalBranch /\ lastAddrFunc = LastExternalAddress ->
  lastAddrFunc DefaultAccountNum w1 = (lastIndex, Some e, w2) ->
  e <> ManagerError ErrAddressNotFound ->
  getLastAddressIndex br w1
    = (0, Some e, w2, [CallLastAddress br DefaultAccountNum]) /\
  initialize a br wl w
    = (Returned None, mkPool [] 0 br 0 true (Some NewMutex), w2,
       [CallNextToUseAddresses; CallLastAddress br DefaultAccountNum;
        LogInfof "Last actual index on pool branch %v start: %v"]).
Proof.
  intros Hst Hnext Hbr Hcall Hne.
  assert (Hlast : getLastAddressIndex br w1 =
                  (0, Some e, w2, [CallLastAddress br DefaultAccountNum])).
  { unfold getLastAddressIndex.
    destruct Hbr as [[-> ->] | [-> ->]]; simpl; rewrite Hcall;
      destruct e as [[| n] | fmt args | msg]; try reflexivity;
      now destruct Hne. }
  split; [exact Hlast |].
  unfold initialize, loadWindow. rewrite Hst, Hnext.
  assert (Hsaved : exists lsa,
            (if br =? ExternalBranch then Some ext
             else if br =? InternalBranch then Some int else None)
            = Some lsa).
  { destruct Hbr as [[-> _] | [-> _]]; simpl; eauto. }
  destruct Hsaved as [lsa ->]. rewrite Hlast. reflexivity.
Qed.

(** What [loadWindow] gives does not depend on the pool it is given, cursor
    and index of a failed call apart. *)
Lemma loadWindow_independent (a b : addressPool) (lsa : option Address)
    (br : Z) (reuse : bool) (w : W) :
  branch a = branch b -> mutex a = mutex b -> started a = started b ->
  result_of (loadWindow a lsa br reuse w)
    = result_of (loadWindow b lsa br reuse w) /\
  world_of (loadWindow a lsa br reuse w)
    = world_of (loadWindow b lsa br reuse w) /\
  events_of (loadWindow a lsa br reuse w)
    = events_of (loadWindow b lsa br reuse w) /\
  addresses (pool_of (loadWindow a lsa br reuse w))
    = (if (fst (fst (fst (getLastAddressIndex br w))) =? 0)
          && match snd (fst (fst (getLastAddressIndex br w))) with
             | None => true
             | Some _ => false
             end
       then addresses a
       else addresses (pool_of (loadWindow b lsa br reuse w))) /\
  (result_of (loadWindow a lsa br reuse w) = Returned None ->
   addresses a = addresses b ->
   pool_of (loadWindow a lsa br reuse w)
     = pool_of (loadWindow b lsa br reuse w)).
Proof.
  intros Hbr Hmx Hst. unfold loadWindow.
  generalize (Z.to_nat addressPoolBuffer). intros fuel.
  destruct (getLastAddressIndex br w) as [[[li err] w2] ev2].
  destruct (walk reuse lsa br fuel li [] w2) as [[r w3] ev3].
  destruct a as [aa ac ab ai ast am], b as [ba bc bb bi bst bm].
  simpl in *. subst bb bm bst.
  destruct (li =? 0); destruct err; destruct r;
    unfold result_of, world_of, events_of, pool_of; simpl;
    repeat split; try discriminate; intros; subst; reflexivity.
Qed.

(** X4. What [initialize] makes of a pool that is not started does not
    depend on what a call that failed before left in it: result,
    collaborators, events and window are those of the same call on a new
    pool, and when the call returns nil so is the whole pool. *)
Theorem initialize_retry_as_new
    (a : addressPool) (br : Z) (wl : Wallet) (w : W) :
  started a = false ->
  result_of (initialize a br wl w)
    = result_of (initialize NewAddressPool br wl w) /\
  world_of (initialize a br wl w)
    = world_of (initialize NewAddressPool br wl w) /\
  events_of (initialize a br wl w)
    = events_of (initialize NewAddressPool br wl w) /\
  addresses (pool_of (initialize a br wl w))
    = addresses (pool_of (initialize NewAddressPool br wl w)) /\
  (result_of (initialize a br wl w) = Returned None ->
   pool_of (initialize a br wl w)
     = pool_of (initialize NewAddressPool br wl w)).
Proof.
  intros Hst. unfold initialize. rewrite Hst. simpl started. cbv iota.
  destruct (NextToUseAddresses w) as [[[ext int] err] w1].
  destruct err;
    [unfold result_of, world_of, events_of, pool_of; simpl;
     repeat split; discriminate |].
  assert (Hgo : forall lsa,
    let x := loadWindow
               (set_branch (set_mutex (set_addresses a []) (Some NewMutex))
                           br)
               lsa br (addressReuse wl) w1 in
    let y := loadWindow
               (set_branch (set_mutex (set_addresses NewAddressPool [])
                                      (Some NewMutex)) br)
               lsa br (addressReuse wl) w1 in
    result_of (let '(res, a', w', ev) := x in
               (res, a', w', CallNextToUseAddresses :: ev))
      = result_of (let '(res, a', w', ev) := y in
                   (res, a', w', CallNextToUseAddresses :: ev)) /\
    world_of (let '(res, a', w', ev) := x in
              (res, a', w', CallNextToUseAddresses :: ev))
      = world_of (let '(res, a', w', ev) := y in
                  (res, a', w', CallNextToUseAddresses :: ev)) /\
    events_of (let '(res, a', w', ev) := x in
               (res, a', w', CallNextToUseAddresses :: ev))
      = events_of (let '(res, a', w', ev) := y in
                   (res, a', w', CallNextToUseAddresses :: ev)) /\
    addresses (pool_of (let '(res, a', w', ev) := x in
                        (res, a', w', CallNextToUseAddresses :: ev)))
      = addresses (pool_of (let '(res, a', w', ev) := y in
                            (res, a', w', CallNextToUseAddresses :: ev))) /\
    (result_of (let '(res, a', w', ev) := x in
                (res, a', w', CallNextToUseAddresses :: ev)) = Returned None ->
     pool_of (let '(res, a', w', ev) := x in
              (res, a', w', CallNextToUseAddresses :: ev))
       = pool_of (let '(res, a', w', ev) := y in
                  (res, a', w', CallNextToUseAddresses :: ev)))).
  { intros lsa x y.
    destruct (loadWindow_independent
                (set_branch (set_mutex (set_addresses a []) (Some NewMutex))
                            br)
                (set_branch (set_mutex (set_addresses NewAddressPool [])
                                       (Some NewMutex)) br)
                lsa br (addressReuse wl) w1 eq_refl eq_refl Hst)
      as (Hr & Hw & Hev & Hwin & Hpool).
    fold x y in Hr, Hw, Hev, Hwin, Hpool.
    assert (Hwin' : addresses (pool_of x) = addresses (pool_of y)).
    { rewrite Hwin.
      destruct (loadWindow_independent
                  (set_branch (set_mutex (set_addresses NewAddressPool [])
                                         (Some NewMutex)) br)
                  (set_branch (set_mutex (set_addresses NewAddressPool [])
                                         (Some NewMutex)) br)
                  lsa br (addressReuse wl) w1 eq_refl eq_refl eq_refl)
        as (_ & _ & _ & Hwin0 & _).
      fold y in Hwin0.
      destruct ((fst (fst (fst (getLastAddressIndex br w1))) =? 0)
                && match snd (fst (fst (getLastAddressIndex br w1))) with
                   | None => true
                   | Some _ => false
                   end); [| reflexivity].
      now rewrite Hwin0. }
    unfold result_of, world_of, events_of, pool_of in *.
    destruct x as [[[rx ax] wx] evx], y as [[[ry ay] wy] evy]. simpl in *.
    repeat split; try congruence.
    intros Hnil. now apply Hpool. }
  destruct (br =? ExternalBranch); [apply Hgo |].
  destruct (br =? InternalBranch); [apply Hgo |].
  unfold result_of, world_of, events_of, pool_of; simpl.
  repeat split; discriminate.
Qed.

(** ** The walk of [initialize] *)

Lemma descending_S (i : Z) (k : nat) :
  descending i (S k) = i :: descending (i - 1) k.
Proof.
  unfold descending. simpl. f_equal; [lia |].
  rewrite <- seq_shift, map_map. apply map_ext. intros t. lia.
Qed.

Ltac walk_end :=
  try reflexivity; try (simpl; lia); try discriminate;
  try (now intros ? ? [= <- _]).

Lemma walk_bounds (reuse : bool) (lsa : option Address) (br : Z) :
  forall (n : nat) (i : Z) (window : list string) (w : W) r w' ev,
  walk reuse lsa br n i window w = (r, w', ev) ->
  0 <= i ->
  walkBound n i window r ev.
Proof.
  induction n as [| n IH]; intros i window w r w' ev Hwalk Hi; simpl in Hwalk.
  { injection Hwalk as <- <- <-. exists 0%nat, [].
    repeat split; try reflexivity; try lia.
    - injection H0 as <- _. lia.
    - injection H0 as <- _. lia.
    - injection H0 as <- _. simpl. lia.
    - injection H0 as <- _. simpl. lia. }
  destruct (i =? 0) eqn:Hzero.
  { injection Hwalk as <- <- <-. exists 0%nat, [].
    repeat split; try reflexivity; try lia.
    - injection H0 as <- _. lia.
    - injection H0 as <- _. lia.
    - injection H0 as <- _. simpl. lia.
    - injection H0 as <- _. simpl. lia. }
  assert (Hpos : 0 < i) by lia.
  destruct (GetAddress i DefaultAccountNum br w) as [[addr err] w1].
  (* an iteration that is the last one *)
  assert (Hstop : forall r0 (w0 : W) (ev0 : list Event) added,
            visited ev0 = [] ->
            window_of r0 = added ++ window ->
            (List.length added <= 1)%nat ->
            (forall j win, r0 = WalkLeft j win -> j = i) ->
            (r0, w0, CallGetAddress i DefaultAccountNum br addr err :: ev0)
              = (r, w', ev) ->
            walkBound (S n) i window r ev).
  { intros r0 w0 ev0 added Hv Hw Hlen Hj [= <- <- <-].
    exists 1%nat, added. simpl. rewrite Hv.
    repeat split; try lia; try assumption.
    - unfold descending. simpl. f_equal. lia.
    - apply Hj in H0. lia.
    - apply Hj in H0. lia.
    - apply Hj in H0. lia.
    - apply Hj in H0. lia. }
  (* an iteration after which the walk goes on *)
  assert (Hkeep : forall this (w0 : W) (ev0 : list Event),
            visited ev0 = [] ->
            (let '(r0, w3, ev3) :=
               walk reuse lsa br n (i - 1) (EncodeAddress this :: window) w0
             in (r0, w3,
                 (CallGetAddress i DefaultAccountNum br addr err :: ev0)
                 ++ ev3)) = (r, w', ev) ->
            walkBound (S n) i window r ev).
  { intros this w0 ev0 Hv Hgo.
    destruct (walk reuse lsa br n (i - 1) (EncodeAddress this :: window) w0)
      as [[r0 w3] ev3] eqn:Hrec.
    injection Hgo as <- <- <-.
    destruct (IH _ _ _ _ _ _ Hrec ltac:(lia))
      as (k & added & Hk & Hki & Hvis & Hadd & Hlen & Hleft).
    exists (S k), (added ++ [EncodeAddress this]).
    rewrite length_app. simpl.
    repeat split; try lia.
    - rewrite visited_app, Hv, Hvis, descending_S. reflexivity.
    - rewrite Hadd, <- app_assoc. reflexivity.
    - destruct (Hleft _ _ H0). lia.
    - destruct (Hleft _ _ H0). lia.
    - destruct (Hleft _ _ H0). lia.
    - destruct (Hleft _ _ H0). lia. }
  assert (Hend : forall (ev0 : list Event) added r0 (w0 : W),
            (r0, w0, CallGetAddress i DefaultAccountNum br addr err :: ev0)
              = (r, w', ev) ->
            visited ev0 = [] ->
            window_of r0 = added ++ window ->
            (List.length added <= 1)%nat ->
            (forall j win, r0 = WalkLeft j win -> j = i) ->
            walkBound (S n) i window r ev)
    by (intros; eapply Hstop; eassumption).
  destruct err as [e |].
  { apply (Hend [] [] _ _ Hwalk); walk_end. }
  destruct reuse; simpl in Hwalk.
  - destruct (existsAddressOnChain addr w1) as [[ex err2] w2].
    destruct err2 as [e |].
    { apply (Hend [CallExistsAddressOnChain addr] [] _ _ Hwalk);
        walk_end. }
    destruct ex.
    { apply (Hend [CallExistsAddressOnChain addr] [] _ _ Hwalk);
        walk_end. }
    destruct addr as [this |].
    + now apply (Hkeep this w2 [CallExistsAddressOnChain (Some this)]) in Hwalk.
    + apply (Hend [CallExistsAddressOnChain None] [] _ _ Hwalk);
        walk_end.
  - destruct lsa as [l |].
    + destruct addr as [this |].
      2: { apply (Hend [] [] _ _ Hwalk); walk_end. }
      destruct (hash160_eqb (Hash160 l) (Hash160 this)).
      * apply (Hend [] [EncodeAddress this] _ _ Hwalk); walk_end.
      * now apply (Hkeep this w1 []) in Hwalk.
    + destruct addr as [this |].
      * now apply (Hkeep this w1 []) in Hwalk.
      * apply (Hend [] [] _ _ Hwalk); walk_end.
Qed.

Lemma boundedWalk_empty r (p : addressPool) (w : W) ev (top : Z) :
  addresses p = [] -> visited ev = [] -> 0 <= top ->
  (r = Returned None -> index p = top) ->
  boundedWalk (r, p, w, ev) top 0.
Proof.
  intros Hp Hv Htop Hi. unfold boundedWalk, result_of, pool_of, events_of.
  simpl. rewrite Hp, Hv. unfold len. simpl.
  split; [lia |]. split; [exact Htop |]. split; [reflexivity |].
  split; [lia |]. intros Hr. apply Hi in Hr. lia.
Qed.

Lemma loadWindow_boundedWalk (a : addressPool) (lsa : option Address)
    (br : Z) (reuse : bool) (w : W) :
  addresses a = [] ->
  exists k,
    boundedWalk
      (let '(res, a', w', ev) := loadWindow a lsa br reuse w in
       (res, a', w', CallNextToUseAddresses :: ev))
      (fst (fst (fst (getLastAddressIndex br w)))) k.
Proof.
  intros Ha.
  destruct (getLastAddressIndex br w) as [[[li err] w2] ev2] eqn:Hlast.
  destruct (walk reuse lsa br (Z.to_nat addressPoolBuffer) li [] w2)
    as [[r w3] ev3] eqn:Hw.
  rewrite (loadWindow_walk a lsa br reuse w _ _ _ _ _ _ _ Hlast Hw).
  apply getLastAddressIndex_answer in Hlast as [Hli Hv2].
  cbn [fst].
  destruct ((li =? 0) && match err with None => true | Some _ => false end)
    eqn:Hfresh.
  { exists 0%nat. apply andb_prop in Hfresh as [Hzero _].
    apply Z.eqb_eq in Hzero. subst li.
    apply boundedWalk_empty; [exact Ha | exact Hv2 | lia | reflexivity]. }
  destruct (walk_bounds _ _ _ _ _ _ _ _ _ _ Hw Hli)
    as (k & added & Hk & Hki & Hvis & Hadd & Hlen & Hleft).
  rewrite app_nil_r in Hadd.
  exists k.
  assert (Hv4 : visited (snd (afterWalk a r)) = [])
    by (destruct r; reflexivity).
  assert (Hwin : addresses (snd (fst (afterWalk a r))) = added)
    by (destruct r; exact Hadd).
  unfold boundedWalk, result_of, events_of, pool_of. simpl.
  rewrite Hwin, !visited_app, Hv2, Hv4, app_nil_r. simpl.
  split; [exact Hk |]. split; [exact Hki |]. split; [exact Hvis |].
  split; [exact Hlen |].
  intros Hres. destruct r as [j win | e win | win]; try discriminate.
  simpl. destruct (Hleft j win eq_refl) as [Hj Hn]. unfold len. lia.
Qed.

(** X5. The walk of [initialize] is bounded and starts at the last known
    index: a call on a pool that is not started looks up at most 20
    addresses, at consecutive indices downwards from the index that
    [getLastAddressIndex] answers and never at index 0 or below, and the
    window it leaves has at most as many addresses as it looked up; when
    the call returns nil, the index of the pool is at most that many below
    the last known index, and the window holds one address for each index
    above the pool's index up to the last known one, or one more. *)
Theorem initialize_walk_is_bounded
    (a : addressPool) (br : Z) (wl : Wallet) (w : W) :
  started a = false ->
  exists (k : nat),
    (k <= 20)%nat /\ Z.of_nat k <= lastKnownIndex br w /\
    visited (events_of (initialize a br wl w))
      = descending (lastKnownIndex br w) k /\
    (List.length (addresses (pool_of (initialize a br wl w))) <= k)%nat /\
    (result_of (initialize a br wl w) = Returned None ->
     lastKnownIndex br w - Z.of_nat k
       <= index (pool_of (initialize a br wl w)) <= lastKnownIndex br w /\
     lastKnownIndex br w - index (pool_of (initialize a br wl w))
       <= len (addresses (pool_of (initialize a br wl w)))
       <= lastKnownIndex br w - index (pool_of (initialize a br wl w)) + 1).
Proof.
  intros Hst.
  assert (Hb : exists k,
            boundedWalk (initialize a br wl w) (lastKnownIndex br w) k).
  { unfold initialize, lastKnownIndex. rewrite Hst.
    destruct (NextToUseAddresses w) as [[[ext int] err] w1].
    assert (Htop : 0 <= fst (fst (fst (getLastAddressIndex br w1)))).
    { destruct (getLastAddressIndex br w1) as [[[li e] w2] ev2] eqn:Hlast.
      now apply getLastAddressIndex_answer in Hlast as [Hli _]. }
    replace (let '(lastIndex, _, _, _) := getLastAddressIndex br w1 in
             lastIndex)
      with (fst (fst (fst (getLastAddressIndex br w1))))
      by now destruct (getLastAddressIndex br w1) as [[[li e] w2] ev2].
    destruct err;
      [exists 0%nat; apply boundedWalk_empty;
         [reflexivity | reflexivity | exact Htop | discriminate] |].
    destruct (br =? ExternalBranch);
      [now apply loadWindow_boundedWalk |].
    destruct (br =? InternalBranch);
      [now apply loadWindow_boundedWalk |].
    exists 0%nat. apply boundedWalk_empty;
      [reflexivity | reflexivity | exact Htop | discriminate]. }
  destruct Hb as (k & Hb). exists k. exact Hb.
Qed.

Lemma indices_empty (lo hi : Z) : hi < lo -> indices lo hi = [].
Proof.
  intros Hlt. unfold indices.
  replace (Z.to_nat (hi - lo + 1)) with 0%nat by lia. reflexivity.
Qed.

Lemma indices_last (lo hi : Z) :
  lo <= hi -> indices lo hi = indices lo (hi - 1) ++ [hi].
Proof.
  intros Hle. unfold indices.
  replace (Z.to_nat (hi - lo + 1)) with (Z.to_nat (hi - 1 - lo + 1) + 1)%nat
    by lia.
  rewrite seq_app, map_app. simpl. do 2 f_equal. lia.
Qed.

(** With reuse enabled, a walk that starts at [i] and has enough
    iterations left to reach the highest index [m] whose address has
    history on the chain stops there, with the addresses of the indices
    above [m] in front of the window. *)
Lemma walk_stops_at_history (lsa : option Address) (br : Z)
    (addrAt : Z -> Address) (used : Z -> bool) (w : W) (m : Z) :
  0 < m ->
  used m = true ->
  forall (k : nat) (n : nat) (i : Z) (window : list string),
  i = m + Z.of_nat k ->
  (k < n)%nat ->
  (forall j, m <= j <= i ->
     GetAddress j DefaultAccountNum br w = (Some (addrAt j), None, w) /\
     existsAddressOnChain (Some (addrAt j)) w = (used j, None, w)) ->
  (forall j, m < j <= i -> used j = false) ->
  walk true lsa br n i window w =
    (WalkLeft m (map (fun j => EncodeAddress (addrAt j)) (indices (m + 1) i)
                 ++ window),
     w, flat_map (queried br addrAt) (rev (indices m i))).
Proof.
  intros Hm Hhit.
  induction k as [| k IH]; intros n i window Hi Hn Hget Hmiss;
    (destruct n as [| n]; [lia |]); simpl.
  - replace (m + Z.of_nat 0) with m in Hi by lia. subst i.
    destruct (m =? 0) eqn:Hz; [lia |].
    destruct (Hget m ltac:(lia)) as [-> ->]. simpl.
    rewrite Hhit, indices_single, indices_empty by lia. reflexivity.
  - destruct (i =? 0) eqn:Hz; [lia |].
    destruct (Hget i ltac:(lia)) as [-> ->]. simpl.
    rewrite (Hmiss i) by lia.
    rewrite (IH n (i - 1) (EncodeAddress (addrAt i) :: window));
      [| lia | lia | intros j Hj; apply Hget; lia
       | intros j Hj; apply Hmiss; lia].
    rewrite (indices_last (m + 1) i), (indices_last m i) by lia.
    rewrite map_app, rev_app_distr, <- app_assoc. reflexivity.
Qed.

(** X6. With address reuse enabled, [initialize] on a branch that has
    addresses asks the chain about each address it looks up and stops at
    the first one that has history on the chain, at index [m] say; the
    window is then made of the addresses at the indices strictly above [m]
    up to the highest known index (the used address is not in it), the
    index of the pool is [m], and the stored next-to-use address plays no
    part. *)
Theorem initialize_window_above_history
    (a : addressPool) (br : Z) (wl : Wallet) (w w1 w2 : W)
    (ext int : option Address) (lastIndex m : Z)
    (ev2 : list Event) (addrAt : Z -> Address) (used : Z -> bool) :
  started a = false ->
  addressReuse wl = true ->
  NextToUseAddresses w = (ext, int, None, w1) ->
  br = ExternalBranch \/ br = InternalBranch ->
  getLastAddressIndex br w1 = (lastIndex, None, w2, ev2) ->
  0 < m <= lastIndex ->
  lastIndex - m < addressPoolBuffer ->
  (forall j, m <= j <= lastIndex ->
     GetAddress j DefaultAccountNum br w2 = (Some (addrAt j), None, w2) /\
     existsAddressOnChain (Some (addrAt j)) w2 = (used j, None, w2)) ->
  used m = true ->
  (forall j, m < j <= lastIndex -> used j = false) ->
  result_of (initialize a br wl w) = Returned None /\
  visited (events_of (initialize a br wl w)) = rev (indices m lastIndex) /\
  addresses (pool_of (initialize a br wl w)) =
    map (fun j => EncodeAddress (addrAt j)) (indices (m + 1) lastIndex) /\
  index (pool_of (initialize a br wl w)) = m /\
  cursor (pool_of (initialize a br wl w)) = 0 /\
  started (pool_of (initialize a br wl w)) = true.
Proof.
  intros Hst Hreuse Hnext Hbr Hlast Hm Hnear Hget Hhit Hmiss.
  assert (Hsaved : exists lsa,
            (if br =? ExternalBranch then Some ext
             else if br =? InternalBranch then Some int else None)
            = Some lsa).
  { destruct Hbr as [-> | ->]; simpl; eauto. }
  destruct Hsaved as [lsa Hsaved].
  pose proof (walk_stops_at_history lsa br addrAt used w2 m
                ltac:(lia) Hhit (Z.to_nat (lastIndex - m))
                (Z.to_nat addressPoolBuffer) lastIndex []
                ltac:(lia) ltac:(unfold addressPoolBuffer in *; lia)
                Hget Hmiss) as Hw.
  rewrite app_nil_r in Hw.
  pose proof (getLastAddressIndex_answer _ _ _ _ _ _ Hlast) as [_ Hv2].
  unfold initialize. rewrite Hst, Hnext, Hsaved, Hreuse.
  rewrite (loadWindow_walk _ _ _ _ _ _ _ _ _ _ _ _ Hlast Hw).
  destruct (lastIndex =? 0) eqn:Hz; [lia |].
  unfold result_of, events_of, pool_of. simpl.
  repeat split.
  rewrite visited_app, Hv2, visited_app. simpl. rewrite app_nil_r.
  generalize (rev (indices m lastIndex)). intros l.
  induction l as [| j l IH]; simpl; [reflexivity | now rewrite IH].
Qed.

(** A walk that finds nothing to stop at goes on until its iterations are
    used up or it gets to index 0, and puts every address it looks up in
    front of the window. *)
Lemma walk_goes_on (reuse : bool) (lsa : option Address) (br : Z)
    (addrAt : Z -> Address) (w : W) :
  forall (n : nat) (i : Z) (window : list string),
  0 <= i ->
  (forall j, 0 < j <= i -> i - Z.of_nat n < j ->
     goesOn reuse lsa br addrAt w j) ->
  exists ev,
    walk reuse lsa br n i window w =
      (WalkLeft (i - Z.min (Z.of_nat n) i)
         (map (fun j => EncodeAddress (addrAt j))
              (indices (i - Z.min (Z.of_nat n) i + 1) i) ++ window),
       w, ev) /\
    visited ev = descending i (Z.to_nat (Z.min (Z.of_nat n) i)).
Proof.
  induction n as [| n IH]; intros i window Hi Hgo.
  { exists []. simpl. replace (Z.min 0 i) with 0 by lia.
    rewrite Z.sub_0_r, indices_empty by lia. split; reflexivity. }
  simpl walk.
  destruct (i =? 0) eqn:Hz.
  { exists []. replace (Z.min (Z.of_nat (S n)) i) with 0 by lia.
    rewrite Z.sub_0_r, indices_empty by lia. split; reflexivity. }
  destruct (Hgo i ltac:(lia) ltac:(lia)) as [Hget Hon]. rewrite Hget.
  destruct (IH (i - 1) (EncodeAddress (addrAt i) :: window) ltac:(lia))
    as (ev & Hrec & Hvis).
  { intros j Hj Hn. apply Hgo; lia. }
  assert (Hmin : Z.min (Z.of_nat (S n)) i = 1 + Z.min (Z.of_nat n) (i - 1))
    by lia.
  assert (Hwin : map (fun j => EncodeAddress (addrAt j))
                     (indices (i - Z.min (Z.of_nat (S n)) i + 1) i) ++ window
                 = map (fun j => EncodeAddress (addrAt j))
                       (indices (i - 1 - Z.min (Z.of_nat n) (i - 1) + 1)
                                (i - 1))
                   ++ EncodeAddress (addrAt i) :: window).
  { rewrite (indices_last _ i) by lia.
    rewrite map_app, <- app_assoc. simpl. do 3 f_equal. lia. }
  assert (Hdesc : forall tl,
            visited tl = [] ->
            visited ((CallGetAddress i DefaultAccountNum br
                        (Some (addrAt i)) None :: tl) ++ ev)
            = descending i (Z.to_nat (Z.min (Z.of_nat (S n)) i))).
  { intros tl Htl.
    replace (Z.to_nat (Z.min (Z.of_nat (S n)) i))
      with (S (Z.to_nat (Z.min (Z.of_nat n) (i - 1)))) by lia.
    rewrite descending_S, visited_app, <- Hvis.
    cbn [visited]. now rewrite Htl. }
  assert (Hres : WalkLeft (i - 1 - Z.min (Z.of_nat n) (i - 1))
                    (map (fun j => EncodeAddress (addrAt j))
                         (indices (i - 1 - Z.min (Z.of_nat n) (i - 1) + 1)
                                  (i - 1))
                     ++ EncodeAddress (addrAt i) :: window)
                = WalkLeft (i - Z.min (Z.of_nat (S n)) i)
                    (map (fun j => EncodeAddress (addrAt j))
                         (indices (i - Z.min (Z.of_nat (S n)) i + 1) i)
                     ++ window)).
  { rewrite Hwin. f_equal. lia. }
  destruct reuse; simpl.
  - rewrite Hon, Hrec, Hres. eexists. split; [reflexivity |].
    now apply (Hdesc [CallExistsAddressOnChain (Some (addrAt i))]).
  - destruct lsa as [l |].
    + assert (Hne : hash160_eqb (Hash160 l) (Hash160 (addrAt i)) = false).
      { destruct (hash160_eqb (Hash160 l) (Hash160 (addrAt i))) eqn:E;
          [| reflexivity].
        apply hash160_eqb_eq in E. now destruct Hon. }
      rewrite Hne, Hrec, Hres. eexists. split; [reflexivity |].
      now apply (Hdesc []).
    + rewrite Hrec, Hres. eexists. split; [reflexivity |].
      now apply (Hdesc []).
Qed.

(** X7. When [initialize] finds nothing to stop at among the addresses it
    may look up (no history on the chain with reuse; without, no stored
    next-to-use address, or one that is none of them), it gives up after
    20 lookups or at index 1: the window is made of the last 20 known
    addresses (of all those above index 0 when there are fewer) and the
    index of the pool is 20 below the last known index (or 0). *)
Theorem initialize_window_without_stop
    (a : addressPool) (br : Z) (wl : Wallet) (w w1 w2 : W)
    (ext int lsa : option Address) (lastIndex : Z)
    (ev2 : list Event) (addrAt : Z -> Address) :
  started a = false ->
  NextToUseAddresses w = (ext, int, None, w1) ->
  br = ExternalBranch /\ lsa = ext \/ br = InternalBranch /\ lsa = int ->
  getLastAddressIndex br w1 = (lastIndex, None, w2, ev2) ->
  0 < lastIndex ->
  (forall j, 0 < j <= lastIndex -> lastIndex - addressPoolBuffer < j ->
     goesOn (addressReuse wl) lsa br addrAt w2 j) ->
  result_of (initialize a br wl w) = Returned None /\
  index (pool_of (initialize a br wl w))
    = lastIndex - Z.min addressPoolBuffer lastIndex /\
  addresses (pool_of (initialize a br wl w))
    = map (fun j => EncodeAddress (addrAt j))
          (indices (lastIndex - Z.min addressPoolBuffer lastIndex + 1)
                   lastIndex) /\
  len (addresses (pool_of (initialize a br wl w)))
    = Z.min addressPoolBuffer lastIndex /\
  cursor (pool_of (initialize a br wl w)) = 0 /\
  started (pool_of (initialize a br wl w)) = true.
Proof.
  intros Hst Hnext Hbr Hlast Hpos Hgo.
  destruct (walk_goes_on (addressReuse wl) lsa br addrAt w2
              (Z.to_nat addressPoolBuffer) lastIndex [] ltac:(lia))
    as (ev & Hw & _).
  { intros j Hj Hn. apply Hgo; [exact Hj |].
    unfold addressPoolBuffer in *. lia. }
  replace (Z.of_nat (Z.to_nat addressPoolBuffer)) with addressPoolBuffer
    in Hw by (unfold addressPoolBuffer; lia).
  rewrite app_nil_r in Hw.
  assert (Hsaved : (if br =? ExternalBranch then Some ext
                    else if br =? InternalBranch then Some int else None)
                   = Some lsa).
  { destruct Hbr as [[-> ->] | [-> ->]]; reflexivity. }
  unfold initialize. rewrite Hst, Hnext, Hsaved.
  rewrite (loadWindow_walk _ _ _ _ _ _ _ _ _ _ _ _ Hlast Hw).
  destruct (lastIndex =? 0) eqn:Hz; [lia |].
  unfold result_of, pool_of. simpl.
  repeat split.
  unfold len, indices. rewrite length_map, length_map, length_seq.
  unfold addressPoolBuffer. lia.
Qed.

(** ** Allocation, once more *)

(** X8. A call of [GetNewAddress] notifies the watcher at most once, and
    of the address at the cursor only.  It moves the cursor and the index
    exactly when it notifies: a call that ends before the notification
    (pool not started, derivation failed, window too short) leaves cursor
    and index alone, and a call that returns an address has notified the
    watcher of that address, successfully. *)
Theorem GetNewAddress_moves_when_it_notifies (a : addressPool) (w : W) :
  (filter isNotify (events_of (GetNewAddress a w)) = [] /\
   (forall x, result_of (GetNewAddress a w) <> Returned (inl x)) /\
   cursor (pool_of (GetNewAddress a w)) = cursor a /\
   index (pool_of (GetNewAddress a w)) = index a) \/
  (exists s err,
     at_index (addresses (pool_of (GetNewAddress a w))) (cursor a) = Some s /\
     filter isNotify (events_of (GetNewAddress a w))
       = [CallNotifyReceived [DecodeAddress s] err] /\
     result_of (GetNewAddress a w)
       = Returned (match err with
                   | Some e => inr e
                   | None => inl (DecodeAddress s)
                   end) /\
     cursor (pool_of (GetNewAddress a w)) = cursor a + 1 /\
     index (pool_of (GetNewAddress a w)) = uint32 (index a + 1)).
Proof.
  destruct (GetNewAddress_allocated a w) as [(Hnot & Hno & Hpool) | [s Hs]].
  - left. rewrite Hpool. repeat split; assumption.
  - right. destruct Hs as [_ Hat Hpool [err [Hnot Hres]]].
    exists s, err. rewrite Hpool. simpl. repeat split; assumption.
Qed.

Lemma GetNewAddress_committedIndex (a : addressPool) (w : W) :
  committedIndex (pool_of (GetNewAddress a w)) = committedIndex a.
Proof.
  unfold committedIndex.
  destruct (GetNewAddress_allocated a w) as [(_ & _ & Hpool) | [s Hs]].
  - rewrite Hpool. reflexivity.
  - destruct Hs as [_ _ Hpool _]. rewrite Hpool. simpl.
    rewrite uint32_uint32_sub. f_equal. lia.
Qed.

(** X9. The index without the advancement of the batch in progress,
    [index - cursor] as a [uint32], is left as it is by every call of
    [GetNewAddress], whether it returns an address, fails or panics; so a
    [BatchRollback] after any such calls sets the index to what it was
    when the batch began, and the cursor to 0.  [BatchFinish] is what
    moves it: to the index reached. *)
Theorem rollback_restores_committed_index
    (a : addressPool) (ops : list (@Op W)) (w : W) :
  forallb isAllocation ops = true ->
  committedIndex (fst (fst (exec a ops))) = committedIndex a /\
  index (fst (BatchRollback (fst (fst (exec a ops))))) = committedIndex a /\
  cursor (fst (BatchRollback (fst (fst (exec a ops))))) = 0 /\
  (0 <= cursor (fst (fst (exec a ops))) ->
   committedIndex (pool_of (BatchFinish (fst (fst (exec a ops))) w))
     = uint32 (index (fst (fst (exec a ops))))).
Proof.
  intros Hops.
  assert (Hinv : committedIndex (fst (fst (exec a ops))) = committedIndex a).
  { revert a. induction ops as [| op ops IH]; intros a; [reflexivity |].
    simpl in Hops. apply andb_true_iff in Hops as [Hop Hops].
    destruct op as [br wl w0 | w0 | w0 |]; try discriminate. simpl.
    pose proof (GetNewAddress_committedIndex a w0) as Hstep.
    unfold pool_of in Hstep.
    destruct (GetNewAddress a w0) as [[[r a1] w1] ev1]. simpl in Hstep.
    specialize (IH Hops a1).
    destruct (exec a1 ops) as [[a2 got2] ev2]. simpl in *. congruence. }
  split; [exact Hinv |].
  split; [| split; [reflexivity |]].
  - unfold BatchRollback. simpl. rewrite uint32_sub_uint32. exact Hinv.
  - intros Hc. destruct (BatchFinish_pool _ w Hc) as (_ & -> & _).
    unfold committedIndex, committed. simpl. f_equal. lia.
Qed.

Lemma exec1_keeps (a : addressPool) (op : @Op W) :
  started a = true ->
  started (fst (fst (exec1 a op))) = true /\
  branch (fst (fst (exec1 a op))) = branch a /\
  mutex (fst (fst (exec1 a op))) = mutex a.
Proof.
  intros Hst. destruct op as [br wl w | w | w |]; simpl.
  - unfold initialize. rewrite Hst. simpl. repeat split. exact Hst.
  - destruct (GetNewAddress_allocated a w) as [(_ & _ & Hpool) | [s Hs]].
    + unfold pool_of in Hpool.
      destruct (GetNewAddress a w) as [[[r a1] w1] ev]. simpl in *.
      subst a1. simpl. repeat split. exact Hst.
    + destruct Hs as [_ _ Hpool _]. unfold pool_of in Hpool.
      destruct (GetNewAddress a w) as [[[r a1] w1] ev]. simpl in *.
      subst a1. simpl. repeat split. exact Hst.
  - unfold BatchFinish.
    destruct (len (addresses a) <=? cursor a); simpl;
      [repeat split; exact Hst |].
    destruct (GetAddress _ _ _ w) as [[addr err] w1].
    destruct (branch a =? ExternalBranch);
      [| destruct (branch a =? InternalBranch)];
      try destruct (StoreNextToUseAddresses _ _ w1) as [err2 w2];
      destruct (cursor a <? 0); simpl; repeat split; exact Hst.
  - repeat split. exact Hst.
Qed.

(** X10. Once a pool is started it stays started, and its branch and its
    mutex are never changed again, whatever is called on it, [initialize]
    for another branch included. *)
Theorem started_pool_keeps_branch (a : addressPool) (ops : list (@Op W)) :
  started a = true ->
  started (fst (fst (exec a ops))) = true /\
  branch (fst (fst (exec a ops))) = branch a /\
  mutex (fst (fst (exec a ops))) = mutex a.
Proof.
  revert a. induction ops as [| op ops IH]; intros a Hst; simpl;
    [repeat split; exact Hst |].
  destruct (exec1_keeps a op Hst) as (Hst1 & Hbr1 & Hmx1).
  destruct (exec1 a op) as [[a1 got1] ev1]. simpl in *.
  destruct (IH a1 Hst1) as (Hst2 & Hbr2 & Hmx2).
  destruct (exec a1 ops) as [[a2 got2] ev2]. simpl in *.
  repeat split; congruence.
Qed.

Lemma uint32_idem (z : Z) : uint32 (uint32 z) = uint32 z.
Proof. apply uint32_small, uint32_range. Qed.

(** X11. Commit and rollback do not undo each other.  A [BatchRollback]
    after a [BatchFinish] changes nothing: what was committed stays
    consumed.  A [BatchFinish] after a [BatchRollback] consumes nothing:
    the window stays whole.  And each of them done twice is as done
    once. *)
Theorem commit_and_rollback_compose (a : addressPool) (w w' : W) :
  0 <= cursor a ->
  0 <= index a < 2 ^ 32 ->
  fst (BatchRollback (pool_of (BatchFinish a w))) = pool_of (BatchFinish a w)
  /\
  pool_of (BatchFinish (fst (BatchRollback a)) w') = fst (BatchRollback a) /\
  pool_of (BatchFinish (pool_of (BatchFinish a w)) w')
    = pool_of (BatchFinish a w) /\
  fst (BatchRollback (fst (BatchRollback a))) = fst (BatchRollback a).
Proof.
  intros Hc Hi.
  destruct (BatchFinish_pool a w Hc) as (_ & Hpool & _).
  rewrite Hpool.
  destruct (BatchFinish_pool (committed a) w' ltac:(simpl; lia))
    as (_ & -> & _).
  destruct (BatchFinish_pool (fst (BatchRollback a)) w' ltac:(simpl; lia))
    as (_ & -> & _).
  assert (H0 : uint32 0 = 0) by reflexivity.
  unfold BatchRollback, committed, set_cursor, set_index, set_addresses.
  cbn [fst addresses cursor branch index started mutex skipn Z.to_nat].
  rewrite !H0, !Z.sub_0_r, uint32_idem, (uint32_small (index a) Hi).
  repeat split.
Qed.



Lemma skipn_nth_error {A : Type} (l : list A) (n : nat) (x : A) :
  nth_error l n = Some x -> skipn n l = x :: skipn (S n) l.
Proof.
  revert n. induction l as [| y l IH]; intros [| n] Hx;
    try discriminate; simpl in *.
  - now injection Hx as ->.
  - now apply IH.
Qed.

(** X13. A caller that allocates and commits, every allocation returning
    an address, is handed the addresses of the window and of the
    deliveries of the manager in their order, each once: the strings
    handed out, followed by what is left of the window behind the cursor,
    are the window behind the cursor at the beginning followed by all that
    the manager delivered.  No derived address is skipped and none is
    handed out twice. *)
Theorem session_hands_out_in_order (calls : list (@BatchCall W)) :
  forall (a a' : addressPool) got ev,
  cursorInWindow a ->
  session a calls = Some (got, a', ev) ->
  exists strs,
    got = map DecodeAddress strs /\
    strs ++ skipn (Z.to_nat (cursor a')) (addresses a')
      = skipn (Z.to_nat (cursor a)) (addresses a) ++ delivered ev.
Proof.
  induction calls as [| [w | w] calls IH]; intros a a' got ev Hc Hs;
    simpl in Hs.
  - injection Hs as <- <- <-. exists []. simpl. now rewrite app_nil_r.
  - destruct (GetNewAddress a w) as [[[r a1] w1] ev1] eqn:Hg.
    destruct r as [[x | e] | why]; try discriminate.
    destruct (session a1 calls) as [[[got2 a2] ev2] |] eqn:Hrec;
      [| discriminate].
    injection Hs as <- <- <-.
    pose proof (GetNewAddress_success a w x) as Hok.
    rewrite Hg in Hok. unfold result_of, pool_of, events_of in Hok.
    simpl in Hok.
    destruct (Hok eq_refl) as (_ & (s & Hat & ->) & Hwin & Hc1 & _).
    apply at_index_Some in Hat as [Hrange Hnth].
    destruct (IH a1 a2 got2 ev2) as (strs & -> & Hrest);
      [unfold cursorInWindow; lia | exact Hrec |].
    exists (s :: strs). split; [reflexivity |].
    simpl. rewrite Hrest, Hc1, delivered_app, app_assoc.
    replace (Z.to_nat (cursor a + 1)) with (S (Z.to_nat (cursor a))) by lia.
    rewrite app_comm_cons, <- (skipn_nth_error _ _ _ Hnth), Hwin.
    f_equal. rewrite skipn_app.
    replace (Z.to_nat (cursor a) - List.length (addresses a))%nat
      with 0%nat by (destruct Hc; unfold len in *; lia).
    reflexivity.
  - destruct (BatchFinish_pool a w (proj1 Hc)) as (_ & Hpool & Hdel).
    unfold pool_of, events_of in *.
    destruct (BatchFinish a w) as [[[r a1] w1] ev1]. simpl in *.
    destruct r as [[] | why]; [| discriminate].
    destruct (session a1 calls) as [[[got2 a2] ev2] |] eqn:Hrec;
      [| discriminate].
    injection Hs as <- <- <-. subst a1.
    destruct (IH (committed a) a2 got2 ev2) as (strs & -> & Hrest);
      [| exact Hrec |].
    { unfold cursorInWindow, committed. simpl.
      pose proof (len_nonneg (skipn (Z.to_nat (cursor a)) (addresses a))).
      lia. }
    exists strs. split; [reflexivity |].
    rewrite Hrest, delivered_app, Hdel. reflexivity.
Qed.

(** X14. [CloseAddressPools] does something only to a wallet with both
    pools set, both started and both with their mutex set: on any other
    wallet it returns at once, takes no mutex, calls no collaborator and
    leaves wallet and collaborators as they are; on such a wallet it takes
    the mutexes, so its events are not empty. *)
Theorem CloseAddressPools_only_when_closable (wl : Wallet) (w : W) :
  ((forall ep ip, ~ closable wl ep ip) ->
   CloseAddressPools wl w = (Returned tt, wl, w, [])) /\
  (forall ep ip, closable wl ep ip ->
   exists ev,
     events_of (CloseAddressPools wl w)
       = MutexLock InternalPool :: MutexLock ExternalPool :: ev).
Proof.
  split.
  - intros Hno. unfold CloseAddressPools.
    destruct (internalPool wl) as [ip |] eqn:HiP; [| reflexivity].
    destruct (externalPool wl) as [ep |] eqn:HeP; [| reflexivity].
    destruct (started ip) eqn:HiS; [| reflexivity].
    destruct (started ep) eqn:HeS; [| reflexivity].
    destruct (mutex ip) as [mI |] eqn:HiM; [| reflexivity].
    destruct (mutex ep) as [mE |] eqn:HeM; [| reflexivity].
    exfalso. apply (Hno ep ip). unfold closable.
    rewrite HiM, HeM. repeat split; try assumption; discriminate.
  - intros ep ip (HeP & HiP & HeS & HiS & HeM & HiM).
    unfold CloseAddressPools. rewrite HeP, HiP, HeS, HiS.
    destruct (mutex ip) as [mI |]; [| now destruct HiM].
    destruct (mutex ep) as [mE |]; [| now destruct HeM].
    simpl.
    destruct (GetNewAddress ep w) as [[[r1 ep1] w1] ev1].
    destruct r1 as [[x | e] | why]; try (eexists; reflexivity).
    destruct (GetNewAddress ip w1) as [[[r2 ip2] w2] ev2].
    destruct r2 as [[y | e] | why]; try (eexists; reflexivity).
    destruct (StoreNextToUseAddresses x y w2) as [err w3].
    eexists; reflexivity.
Qed.

Lemma GetNewAddress_quiet (a : addressPool) (w : W) r a1 w1 ev :
  GetNewAddress a w = (r, a1, w1, ev) ->
  filter isStore ev = [] /\ filter isLogErrorf ev = [].
Proof.
  intros Hg. split.
  { pose proof (GetNewAddress_no_store a w) as Hs. now rewrite Hg in Hs. }
  revert Hg. unfold GetNewAddress.
  destruct (started a); [| now intros [= _ _ _ <-]].
  destruct (replenish a w) as [[[err a2] w2] ev2] eqn:Hrep.
  assert (Hr : filter isLogErrorf ev2 = []).
  { revert Hrep. unfold replenish.
    destruct (needsReplenish a); [| now intros [= <- <- <- <-]].
    destruct (branch a =? InternalBranch);
      [| destruct (branch a =? ExternalBranch)];
      try destruct (NextInternalAddresses _ _ w) as [[addrs e] w'];
      try destruct (NextExternalAddresses _ _ w) as [[addrs e] w'];
      try destruct e; now intros [= <- <- <- <-]. }
  destruct err; [now intros [= _ _ _ <-] |].
  destruct (at_index (addresses a2) (cursor a2));
    [| now intros [= _ _ _ <-]].
  destruct (NotifyReceived _ w2) as [err w3].
  destruct err; intros [= _ _ _ <-]; rewrite !filter_app, Hr; reflexivity.
Qed.

(** X15. [CloseAddressPools] stores the next-to-use pair only when both
    pools gave an address.  When the external pool gives none (an error or
    a panic), the internal pool is not touched and nothing is stored.
    When the external pool gives one and the internal pool none, the
    address of the external pool stays handed out and nothing is stored.
    When both give one, the pair is stored, and a failure of the store is
    logged and not returned. *)
Theorem CloseAddressPools_stores_only_a_pair
    (wl : Wallet) (w : W) (ep ip : addressPool) :
  closable wl ep ip ->
  ((forall x, result_of (GetNewAddress ep w) <> Returned (inl x)) ->
   pool_of (CloseAddressPools wl w)
     = mkWallet (Some (pool_of (GetNewAddress ep w))) (Some ip)
                (addressReuse wl) /\
   world_of (CloseAddressPools wl w) = world_of (GetNewAddress ep w) /\
   filter isStore (events_of (CloseAddressPools wl w)) = []) /\
  (forall x,
     result_of (GetNewAddress ep w) = Returned (inl x) ->
     (forall y,
        result_of (GetNewAddress ip (world_of (GetNewAddress ep w)))
        <> Returned (inl y)) ->
     pool_of (CloseAddressPools wl w)
       = mkWallet
           (Some (pool_of (GetNewAddress ep w)))
           (Some (pool_of (GetNewAddress ip (world_of (GetNewAddress ep w)))))
           (addressReuse wl) /\
     filter isStore (events_of (CloseAddressPools wl w)) = []) /\
  (forall x y,
     result_of (GetNewAddress ep w) = Returned (inl x) ->
     result_of (GetNewAddress ip (world_of (GetNewAddress ep w)))
       = Returned (inl y) ->
     result_of (CloseAddressPools wl w) = Returned tt /\
     exists err,
       filter isStore (events_of (CloseAddressPools wl w))
         = [CallStoreNextToUseAddresses x y err] /\
       List.length (filter isLogErrorf (events_of (CloseAddressPools wl w)))
         = match err with Some _ => 1%nat | None => 0%nat end).
Proof.
  intros (HeP & HiP & HeS & HiS & HeM & HiM).
  unfold CloseAddressPools. rewrite HeP, HiP, HeS, HiS.
  destruct (mutex ip) as [mI |]; [| now destruct HiM].
  destruct (mutex ep) as [mE |]; [| now destruct HeM].
  simpl.
  destruct (GetNewAddress ep w) as [[[r1 ep1] w1] ev1] eqn:Hg1.
  destruct (GetNewAddress_quiet _ _ _ _ _ _ Hg1) as [Hs1 Hl1].
  unfold result_of, pool_of, world_of, events_of. simpl.
  destruct r1 as [[x | e] | why]; simpl.
  - split; [intros Hno; now destruct (Hno x) |].
    destruct (GetNewAddress ip w1) as [[[r2 ip2] w2] ev2] eqn:Hg2.
    destruct (GetNewAddress_quiet _ _ _ _ _ _ Hg2) as [Hs2 Hl2].
    simpl. destruct r2 as [[y | e] | why]; simpl.
    + split; [intros x' _ Hno; now destruct (Hno y) |].
      intros x' y' [= <-] [= <-].
      destruct (StoreNextToUseAddresses x y w2) as [err w3]. simpl.
      split; [reflexivity |]. exists err.
      rewrite !filter_app, Hs1, Hs2, Hl1, Hl2.
      destruct err; split; reflexivity.
    + split; [| intros x' y' _ [=]].
      intros x' _ _. split; [reflexivity |].
      rewrite !filter_app, Hs1, Hs2. reflexivity.
    + split; [| intros x' y' _ [=]].
      intros x' _ _. split; [reflexivity |].
      rewrite !filter_app, Hs1, Hs2. reflexivity.
  - split; [| split; [intros x [=] | intros x y [=]]].
    intros _. repeat split. rewrite !filter_app, Hs1. reflexivity.
  - split; [| split; [intros x [=] | intros x y [=]]].
    intros _. repeat split. rewrite !filter_app, Hs1. reflexivity.
Qed.

Lemma holding_app (l1 l2 : list LockAction) :
  forall held,
  holding held (l1 ++ l2) =
  match holding held l1 with
  | Some held' => holding held' l2
  | None => None
  end.
Proof.
  induction l1 as [| [p | p] l1 IH]; intros held; simpl; [reflexivity | |].
  - destruct (existsb (PoolId_eqb p) held); [reflexivity | apply IH].
  - destruct (existsb (PoolId_eqb p) held); [apply IH | reflexivity].
Qed.

(** [GetNewAddress] changes the window, the cursor and the index of a
    pool, and nothing else. *)
Lemma GetNewAddress_same_pool (a : addressPool) (w : W) :
  started (pool_of (GetNewAddress a w)) = started a /\
  branch (pool_of (GetNewAddress a w)) = branch a /\
  mutex (pool_of (GetNewAddress a w)) = mutex a.
Proof.
  destruct (GetNewAddress_allocated a w) as [(_ & _ & Hpool) | [s Hs]].
  - rewrite Hpool. repeat split.
  - destruct Hs as [_ _ Hpool _]. rewrite Hpool. repeat split.
Qed.

(** The wallet that [CloseAddressPools] leaves: the wallet it was given,
    or that wallet with the external pool, or both pools, after a call of
    [GetNewAddress]. *)
Lemma CloseAddressPools_wallet (wl : Wallet) (w : W) :
  pool_of (CloseAddressPools wl w) = wl \/
  exists ep ip,
    externalPool wl = Some ep /\ internalPool wl = Some ip /\
    (pool_of (CloseAddressPools wl w)
       = mkWallet (Some (pool_of (GetNewAddress ep w))) (Some ip)
                  (addressReuse wl) \/
     exists w1,
       pool_of (CloseAddressPools wl w)
         = mkWallet (Some (pool_of (GetNewAddress ep w)))
                    (Some (pool_of (GetNewAddress ip w1)))
                    (addressReuse wl)).
Proof.
  unfold CloseAddressPools.
  destruct (internalPool wl) as [ip |] eqn:Hip; [| now left].
  destruct (externalPool wl) as [ep |] eqn:Hep; [| now left].
  destruct (negb (started ip) || negb (started ep)); [now left |].
  destruct (mutex ip); [| now left].
  destruct (mutex ep); [| now left].
  right. exists ep, ip. split; [reflexivity |]. split; [reflexivity |].
  unfold pool_of.
  destruct (GetNewAddress ep w) as [[[r1 ep1] w1] ev1]. cbn [fst snd].
  destruct r1 as [[x | e] | why]; [| now left | now left].
  right. exists w1.
  destruct (GetNewAddress ip w1) as [[[r2 ip2] w2] ev2]. cbn [fst snd].
  destruct r2 as [[y | e] | why]; [| reflexivity | reflexivity].
  now destruct (StoreNextToUseAddresses x y w2) as [err w3].
Qed.

Lemma GetNewAddressExternal_wallet (wl : Wallet) (w : W) :
  pool_of (GetNewAddressExternal wl w) = wl \/
  exists ep,
    externalPool wl = Some ep /\
    pool_of (GetNewAddressExternal wl w)
      = mkWallet (Some (pool_of (GetNewAddress ep w))) (internalPool wl)
                 (addressReuse wl).
Proof.
  unfold GetNewAddressExternal.
  destruct (externalPool wl) as [ep |] eqn:Hep; [| now left].
  destruct (mutex ep); [| now left].
  right. exists ep. split; [reflexivity |]. unfold pool_of.
  now destruct (GetNewAddress ep w) as [[[r ep1] w1] ev].
Qed.

Lemma GetNewAddressInternal_wallet (wl : Wallet) (w : W) :
  pool_of (GetNewAddressInternal wl w) = wl \/
  exists ip,
    internalPool wl = Some ip /\
    pool_of (GetNewAddressInternal wl w)
      = mkWallet (externalPool wl) (Some (pool_of (GetNewAddress ip w)))
                 (addressReuse wl).
Proof.
  unfold GetNewAddressInternal.
  destruct (internalPool wl) as [ip |] eqn:Hip; [| now left].
  destruct (mutex ip); [| now left].
  right. exists ip. split; [reflexivity |]. unfold pool_of.
  now destruct (GetNewAddress ip w) as [[[r ip1] w1] ev].
Qed.

Lemma keeps_refl (wl : Wallet) : keeps wl wl.
Proof.
  split; [tauto |]. split; [reflexivity |].
  intros ep ip Hc. now exists ep, ip.
Qed.

Lemma keeps_trans (wl1 wl2 wl3 : Wallet) :
  keeps wl1 wl2 -> keeps wl2 wl3 -> keeps wl1 wl3.
Proof.
  intros (Hi1 & Hr1 & Hc1) (Hi2 & Hr2 & Hc2).
  split; [tauto |]. split; [congruence |].
  intros ep ip Hc.
  destruct (Hc1 ep ip Hc) as (ep' & ip' & Hc' & Hbe & Hbi).
  destruct (Hc2 ep' ip' Hc') as (ep'' & ip'' & Hc'' & Hbe' & Hbi').
  exists ep'', ip''. split; [exact Hc'' |]. split; congruence.
Qed.

(** A wallet keeps all this when [GetNewAddress] is called on its
    external pool, and when it is called on its internal pool. *)
Lemma keeps_external (wl : Wallet) (ep : addressPool) (w : W) :
  externalPool wl = Some ep ->
  keeps wl (mkWallet (Some (pool_of (GetNewAddress ep w)))
                     (internalPool wl) (addressReuse wl)).
Proof.
  intros Hep.
  destruct (GetNewAddress_same_pool ep w) as (Hst & Hbr & Hmu).
  split; [| split; [reflexivity |]].
  - intros [He Hi]. split; simpl.
    + intros ep' [= <-]. apply GetNewAddress_poolInv. now apply He.
    + exact Hi.
  - intros ep0 ip (He & Hi & Hse & Hsi & Hme & Hmi).
    assert (ep0 = ep) as -> by congruence.
    exists (pool_of (GetNewAddress ep w)), ip.
    split; [| split; [exact Hbr | reflexivity]].
    unfold closable. simpl. rewrite Hst, Hmu. now repeat split.
Qed.

Lemma keeps_internal (wl : Wallet) (ip : addressPool) (w : W) :
  internalPool wl = Some ip ->
  keeps wl (mkWallet (externalPool wl)
                     (Some (pool_of (GetNewAddress ip w)))
                     (addressReuse wl)).
Proof.
  intros Hip.
  destruct (GetNewAddress_same_pool ip w) as (Hst & Hbr & Hmu).
  split; [| split; [reflexivity |]].
  - intros [He Hi]. split; simpl.
    + exact He.
    + intros ip' [= <-]. apply GetNewAddress_poolInv. now apply Hi.
  - intros ep ip0 (He & Hi & Hse & Hsi & Hme & Hmi).
    assert (ip0 = ip) as -> by congruence.
    exists ep, (pool_of (GetNewAddress ip w)).
    split; [| split; [reflexivity | exact Hbr]].
    unfold closable. simpl. rewrite Hst, Hmu. now repeat split.
Qed.

Lemma call1_keeps (wl : Wallet) (c : WalletCall) :
  keeps wl (fst (call1 wl c)) /\
  holding [] (lockActions (snd (call1 wl c))) = Some [].
Proof.
  destruct c as [w | w | w]; cbn [call1 fst snd]; split.
  - destruct (GetNewAddressExternal_wallet wl w) as [-> | (ep & Hep & ->)];
      [apply keeps_refl | now apply keeps_external].
  - unfold GetNewAddressExternal, events_of.
    destruct (externalPool wl) as [ep |]; [| reflexivity].
    destruct (mutex ep); [| reflexivity].
    pose proof (GetNewAddress_no_locks ep w) as Hl. unfold events_of in Hl.
    destruct (GetNewAddress ep w) as [[[r ep1] w1] ev]. cbn [snd] in *.
    now rewrite !lockActions_app, Hl.
  - destruct (GetNewAddressInternal_wallet wl w) as [-> | (ip & Hip & ->)];
      [apply keeps_refl | now apply keeps_internal].
  - unfold GetNewAddressInternal, events_of.
    destruct (internalPool wl) as [ip |]; [| reflexivity].
    destruct (mutex ip); [| reflexivity].
    pose proof (GetNewAddress_no_locks ip w) as Hl. unfold events_of in Hl.
    destruct (GetNewAddress ip w) as [[[r ip1] w1] ev]. cbn [snd] in *.
    now rewrite !lockActions_app, Hl.
  - destruct (CloseAddressPools_wallet wl w)
      as [-> | (ep & ip & Hep & Hip & [-> | (w1 & ->)])].
    + apply keeps_refl.
    + rewrite <- Hip. now apply keeps_external.
    + eapply keeps_trans; [apply (keeps_external wl ep w Hep) |].
      apply (keeps_internal
               (mkWallet (Some (pool_of (GetNewAddress ep w)))
                         (internalPool wl) (addressReuse wl)) ip w1 Hip).
  - destruct (CloseAddressPools_locks wl w) as [[-> | ->] _]; reflexivity.
Qed.

(** X16. Calls of [GetNewAddressExternal], [GetNewAddressInternal] and
    [CloseAddressPools] on a wallet, one after the other in any order and
    whatever each of them returns (an address, an error, a panic): every
    mutex that a call takes is free when it is taken and released before
    the next call, so that none is held at the end; the pools keep their
    cursor inside their window; address reuse stays as it is; and a
    wallet with both pools started on their mutexes remains one, each
    pool on its branch, so that [CloseAddressPools] finds it ready. *)
Theorem wallet_calls_release_mutexes_and_keep_pools
    (cs : list (@WalletCall W)) :
  forall wl : Wallet,
  poolsInv wl ->
  poolsInv (fst (callAll wl cs)) /\
  holding [] (lockActions (snd (callAll wl cs))) = Some [] /\
  addressReuse (fst (callAll wl cs)) = addressReuse wl /\
  forall ep ip, closable wl ep ip ->
    exists ep' ip',
      closable (fst (callAll wl cs)) ep' ip' /\
      branch ep' = branch ep /\ branch ip' = branch ip.
Proof.
  assert (Hall : forall wl,
            keeps wl (fst (callAll wl cs)) /\
            holding [] (lockActions (snd (callAll wl cs))) = Some []).
  { induction cs as [| c cs IH]; intros wl.
    - split; [apply keeps_refl | reflexivity].
    - destruct (call1_keeps wl c) as [Hk1 Hl1].
      cbn [callAll]. destruct (call1 wl c) as [wl1 ev1]. cbn [fst snd] in *.
      destruct (IH wl1) as [Hk2 Hl2].
      destruct (callAll wl1 cs) as [wl2 ev2]. cbn [fst snd] in *.
      split; [now apply keeps_trans with wl1 |].
      now rewrite lockActions_app, holding_app, Hl1. }
  intros wl Hinv. destruct (Hall wl) as [(Hi & Hr & Hc) Hl].
  split; [now apply Hi |]. split; [exact Hl |]. split; [exact Hr | exact Hc].
Qed.

End Further.

(** * The further properties on the reference wallet *)

Lemma uninitialized_pool_is_inert_witness :
  exec NewAddressPool
       [DoGetNewAddress w0; DoBatchFinish w0; DoBatchRollback;
        DoGetNewAddress w4]
  = (NewAddressPool, [], snd (exec NewAddressPool
       [DoGetNewAddress w0; DoBatchFinish w0; DoBatchRollback;
        DoGetNewAddress w4])) /\
  filter isCollaboratorCall
    (snd (exec NewAddressPool
            [DoGetNewAddress w0; DoBatchFinish w0; DoBatchRollback;
             DoGetNewAddress w4])) = [].
Proof.
  destruct (uninitialized_pool_is_inert
              [DoGetNewAddress w0; DoBatchFinish w0; DoBatchRollback;
               DoGetNewAddress w4]
              ltac:(reflexivity)) as (Ha & Hg & Hc).
  split; [| exact Hc].
  destruct (exec NewAddressPool _) as [[a got] ev].
  simpl in Ha, Hg. now subst.
Defined.

Lemma initialize_drops_last_address_error_witness :
  @initialize _ closedDatabase NewAddressPool ExternalBranch noReuse w4
  = (Returned None, Ref.freshPool ExternalBranch, w4,
     [CallNextToUseAddresses;
      CallLastAddress ExternalBranch DefaultAccountNum;
      LogInfof "Last actual index on pool branch %v start: %v"]).
Proof.
  exact (proj2 (@initialize_drops_last_address_error
                  _ closedDatabase
                  NewAddressPool ExternalBranch noReuse w4 w4 w4
                  (Some (Ref.addressAt ExternalBranch 2)) None
                  (@LastExternalAddress _ closedDatabase) 7
                  (OtherError "database not open")
                  ltac:(reflexivity) ltac:(reflexivity)
                  ltac:(right; split; reflexivity)
                  ltac:(reflexivity) ltac:(discriminate))).
Defined.

Lemma initialize_retry_as_new_witness :
  started leftOver = false /\
  pool_of (initialize leftOver ExternalBranch noReuse w4)
  = pool_of (initialize NewAddressPool ExternalBranch noReuse w4).
Proof.
  split; [reflexivity |].
  destruct (initialize_retry_as_new leftOver ExternalBranch noReuse w4
              ltac:(reflexivity)) as (_ & _ & _ & _ & Hp).
  apply Hp. reflexivity.
Defined.

Lemma initialize_walk_is_bounded_witness :
  lastKnownIndex ExternalBranch w4 = 3 /\
  exists (k : nat),
    (k <= 20)%nat /\
    visited (events_of (initialize NewAddressPool ExternalBranch noReuse w4))
      = descending 3 k /\
    (List.length
       (addresses
          (pool_of (initialize NewAddressPool ExternalBranch noReuse w4)))
     <= k)%nat.
Proof.
  split; [reflexivity |].
  destruct (@initialize_walk_is_bounded
              _ Ref.services
              NewAddressPool ExternalBranch noReuse w4 ltac:(reflexivity))
    as (k & Hk & Htop & Hv & Hlen & _).
  exists k. split; [exact Hk |]. split; [exact Hv | exact Hlen].
Defined.

Lemma initialize_window_above_history_witness :
  addresses (pool_of (initialize NewAddressPool ExternalBranch reuse w5))
    = ["E3"; "E4"] /\
  index (pool_of (initialize NewAddressPool ExternalBranch reuse w5)) = 2 /\
  visited (events_of (initialize NewAddressPool ExternalBranch reuse w5))
    = [4; 3; 2].
Proof.
  destruct (initialize_window_above_history
              NewAddressPool ExternalBranch reuse w5 w5 w5
              None None 4 2
              [CallLastAddress ExternalBranch DefaultAccountNum]
              (Ref.addressAt ExternalBranch) usedIn5
              ltac:(reflexivity) ltac:(reflexivity) ltac:(reflexivity)
              ltac:(left; reflexivity)
              ltac:(reflexivity)
              ltac:(lia)
              ltac:(unfold addressPoolBuffer; lia)
              ltac:(intros j _; split; reflexivity)
              ltac:(reflexivity)
              ltac:(intros j Hj;
                    assert (j = 3 \/ j = 4) as [-> | ->] by lia;
                    reflexivity))
    as (_ & Hv & Hw & Hi & _).
  split; [exact Hw |]. split; [exact Hi | exact Hv].
Defined.

Lemma initialize_window_without_stop_witness :
  addresses (pool_of (initialize NewAddressPool ExternalBranch noReuse w4'))
    = ["E1"; "E2"; "E3"] /\
  index (pool_of (initialize NewAddressPool ExternalBranch noReuse w4')) = 0.
Proof.
  destruct (initialize_window_without_stop
              NewAddressPool ExternalBranch noReuse w4' w4' w4'
              None None None 3
              [CallLastAddress ExternalBranch DefaultAccountNum]
              (Ref.addressAt ExternalBranch)
              ltac:(reflexivity) ltac:(reflexivity)
              ltac:(left; split; reflexivity)
              ltac:(reflexivity)
              ltac:(lia)
              ltac:(intros j _ _; split; [reflexivity | exact I]))
    as (_ & Hi & Hw & _).
  split; [exact Hw | exact Hi].
Defined.

Lemma rollback_restores_committed_index_witness :
  index (fst (BatchRollback
                (fst (fst (exec midBatch
                             [DoGetNewAddress w4; DoGetNewAddress w4])))))
  = 0.
Proof.
  destruct (rollback_restores_committed_index
              midBatch [DoGetNewAddress w4; DoGetNewAddress w4] w4
              ltac:(reflexivity)) as (_ & Hi & _).
  exact Hi.
Defined.

Lemma started_pool_keeps_branch_witness :
  branch (fst (fst (exec midBatch
                      [DoInitialize InternalBranch noReuse w4;
                       DoGetNewAddress w4; DoBatchFinish w4])))
  = ExternalBranch.
Proof.
  destruct (started_pool_keeps_branch
              midBatch
              [DoInitialize InternalBranch noReuse w4;
               DoGetNewAddress w4; DoBatchFinish w4]
              ltac:(reflexivity)) as (_ & Hb & _).
  exact Hb.
Defined.

Lemma commit_and_rollback_compose_witness :
  fst (BatchRollback (pool_of (BatchFinish midBatch w4)))
  = pool_of (BatchFinish midBatch w4) /\
  pool_of (BatchFinish (fst (BatchRollback midBatch)) w4)
  = fst (BatchRollback midBatch).
Proof.
  destruct (commit_and_rollback_compose
              midBatch w4 w4
              ltac:(unfold midBatch; simpl; lia)
              ltac:(unfold midBatch; simpl; lia)) as (H1 & H2 & _).
  split; [exact H1 | exact H2].
Defined.


Lemma session_hands_out_in_order_witness :
  match session (Ref.freshPool ExternalBranch)
                [Allocate w0; Allocate w0; Commit w0; Allocate w0] with
  | Some (got, a', ev) =>
      exists strs,
        got = map DecodeAddress strs /\
        strs ++ skipn (Z.to_nat (cursor a')) (addresses a') = delivered ev
  | None => False
  end.
Proof.
  destruct (session (Ref.freshPool ExternalBranch)
                    [Allocate w0; Allocate w0; Commit w0; Allocate w0])
    as [[[got a'] ev] |] eqn:Hs; [| vm_compute in Hs; discriminate].
  exact (session_hands_out_in_order
           [Allocate w0; Allocate w0; Commit w0; Allocate w0]
           (Ref.freshPool ExternalBranch) a' got ev
           ltac:(unfold cursorInWindow, len; simpl; lia) Hs).
Defined.

Lemma CloseAddressPools_stores_only_a_pair_witness :
  closable (Ref.wallet (Ref.freshPool ExternalBranch)
                       (Ref.freshPool InternalBranch))
           (Ref.freshPool ExternalBranch) (Ref.freshPool InternalBranch) /\
  filter isStore
    (events_of
       (CloseAddressPools
          (Ref.wallet (Ref.freshPool ExternalBranch)
                      (Ref.freshPool InternalBranch)) w0))
  = [CallStoreNextToUseAddresses (Some (Ref.addressOf "E0"))
                                 (Some (Ref.addressOf "I0")) None].
Proof.
  assert (Hc : closable (Ref.wallet (Ref.freshPool ExternalBranch)
                                    (Ref.freshPool InternalBranch))
                        (Ref.freshPool ExternalBranch)
                        (Ref.freshPool InternalBranch)).
  { repeat split; discriminate. }
  split; [exact Hc |].
  destruct (CloseAddressPools_stores_only_a_pair
              (Ref.wallet (Ref.freshPool ExternalBranch)
                          (Ref.freshPool InternalBranch))
              w0 (Ref.freshPool ExternalBranch)
              (Ref.freshPool InternalBranch) Hc) as (_ & _ & Hpair).
  destruct (Hpair (Some (Ref.addressOf "E0")) (Some (Ref.addressOf "I0"))
                  ltac:(reflexivity) ltac:(reflexivity))
    as (_ & [[e |] [Hst Hlog]]).
  - vm_compute in Hlog. discriminate.
  - exact Hst.
Defined.

Lemma initialize_only_once_witness :
  initialize (pool_of (initialize NewAddressPool ExternalBranch noReuse w0))
             InternalBranch reuse w4
  = (Returned None, Ref.freshPool ExternalBranch, w4, []).
Proof.
  exact (proj2 (@initialize_only_once _ Ref.services NewAddressPool
                                      ExternalBranch noReuse w0)
               ltac:(reflexivity) InternalBranch reuse w4).
Defined.

Lemma CloseAddressPools_only_when_closable_witness :
  CloseAddressPools noReuse w0 = (Returned tt, noReuse, w0, []) /\
  exists ev,
    events_of
      (CloseAddressPools
         (Ref.wallet (Ref.freshPool ExternalBranch)
                     (Ref.freshPool InternalBranch)) w0)
    = MutexLock InternalPool :: MutexLock ExternalPool :: ev.
Proof.
  split.
  - apply (proj1 (CloseAddressPools_only_when_closable noReuse w0)).
    intros ep ip (Hep & _). discriminate.
  - apply (proj2 (CloseAddressPools_only_when_closable
                    (Ref.wallet (Ref.freshPool ExternalBranch)
                                (Ref.freshPool InternalBranch)) w0)
                 (Ref.freshPool ExternalBranch)
                 (Ref.freshPool InternalBranch)).
    repeat split; discriminate.
Defined.

Lemma wallet_calls_release_mutexes_and_keep_pools_witness :
  lockActions
    (snd (callAll (Ref.wallet midBatch (Ref.freshPool InternalBranch))
                  [GetExternal w4; ClosePools w0; GetInternal w0]))
  = [Acquire ExternalPool; Release ExternalPool;
     Acquire InternalPool; Acquire ExternalPool;
     Release ExternalPool; Release InternalPool;
     Acquire InternalPool; Release InternalPool] /\
  holding []
    (lockActions
       (snd (callAll (Ref.wallet midBatch (Ref.freshPool InternalBranch))
                     [GetExternal w4; ClosePools w0; GetInternal w0])))
  = Some [] /\
  exists ep' ip',
    closable
      (fst (callAll (Ref.wallet midBatch (Ref.freshPool InternalBranch))
                    [GetExternal w4; ClosePools w0; GetInternal w0]))
      ep' ip' /\
    branch ep' = ExternalBranch /\ branch ip' = InternalBranch.
Proof.
  assert (Hinv : poolsInv
                   (Ref.wallet midBatch (Ref.freshPool InternalBranch))).
  { split; intros a [= <-]; (split; [| discriminate]);
      unfold cursorInWindow, len; simpl; lia. }
  destruct (@wallet_calls_release_mutexes_and_keep_pools
              _ Ref.services
              [GetExternal w4; ClosePools w0; GetInternal w0]
              (Ref.wallet midBatch (Ref.freshPool InternalBranch)) Hinv)
    as (_ & Hl & _ & Hc).
  split; [reflexivity |]. split; [exact Hl |].
  apply (Hc midBatch (Ref.freshPool InternalBranch)).
  repeat split; discriminate.
Defined.

(** * Properties of the wallet setup *)

Section SetupProperties.

Import Setup SetupWords.

Context {St : Type} `{Setup.Services St}.

Lemma filter_nothing {A : Type} (f : A -> bool) (l : list A) :
  Forall (fun x => f x = false) l -> filter f l = [].
Proof.
  induction 1 as [| x l Hx _ IH]; simpl; [reflexivity |].
  now rewrite Hx.
Qed.

Lemma filter_everything {A : Type} (f : A -> bool) (l : list A) :
  Forall (fun x => f x = true) l -> filter f l = l.
Proof.
  induction 1 as [| x l Hx _ IH]; simpl; [reflexivity |].
  now rewrite Hx, IH.
Qed.

(** ** [convertLegacyKeystore] *)

(** One address gives one outcome: an import that succeeded, or one
    warning. *)
Lemma convertAddress_outcome (m : Handle) (np : Params) (bs : BlockStamp)
    (a : WalletAddress) (s : St) :
  (List.length (filter isImported (snd (convertAddress m np bs a s))) +
   List.length (filter isPrinted (snd (convertAddress m np bs a s))) = 1)%nat.
Proof.
  destruct a as [addr [key | e] | addr script | addr]; simpl.
  - destruct (NewWIF key np) as [wif | e]; [| reflexivity].
    destruct (ImportPrivateKey m wif bs s) as [[e |] s1]; reflexivity.
  - reflexivity.
  - destruct (ImportScript m script bs s) as [[e |] s1]; reflexivity.
  - reflexivity.
Qed.

Lemma convertAddress_imports (m : Handle) (np : Params) (bs : BlockStamp)
    (a : WalletAddress) (s : St) :
  imports (snd (convertAddress m np bs a s)) =
  if importable np a then [(addressOf a, bs)] else [].
Proof.
  destruct a as [addr [key | e] | addr script | addr]; simpl.
  - destruct (NewWIF key np) as [wif | e]; [| reflexivity].
    destruct (ImportPrivateKey m wif bs s) as [[e |] s1]; reflexivity.
  - reflexivity.
  - destruct (ImportScript m script bs s) as [[e |] s1]; reflexivity.
  - reflexivity.
Qed.

Lemma convertAddress_does (m : Handle) (np : Params) (bs : BlockStamp)
    (a : WalletAddress) (s : St) :
  Forall (fun d => isImport d = true \/ isPrinted d = true)
         (snd (convertAddress m np bs a s)).
Proof.
  assert (Hi : forall d, isImport d = true ->
                 isImport d = true \/ isPrinted d = true) by auto.
  assert (Hp : forall d, isPrinted d = true ->
                 isImport d = true \/ isPrinted d = true) by auto.
  destruct a as [addr [key | e] | addr script | addr]; simpl.
  - destruct (NewWIF key np) as [wif | e]; [| now repeat constructor].
    destruct (ImportPrivateKey m wif bs s) as [[e |] s1]; simpl;
      repeat first [apply Forall_nil | apply Forall_cons];
      solve [now apply Hi | now apply Hp].
  - now repeat constructor.
  - destruct (ImportScript m script bs s) as [[e |] s1]; simpl;
      repeat first [apply Forall_nil | apply Forall_cons];
      solve [now apply Hi | now apply Hp].
  - now repeat constructor.
Qed.

Lemma convertAddresses_cons (m : Handle) (np : Params) (bs : BlockStamp)
    (a : WalletAddress) (addrs : list WalletAddress) (s : St) :
  snd (convertAddresses m np bs (a :: addrs) s) =
  snd (convertAddress m np bs a s) ++
  snd (convertAddresses m np bs addrs (fst (convertAddress m np bs a s))).
Proof.
  simpl. destruct (convertAddress m np bs a s) as [s1 ev1]. simpl.
  now destruct (convertAddresses m np bs addrs s1) as [s2 ev2].
Qed.

Lemma convertAddresses_outcomes (m : Handle) (np : Params) (bs : BlockStamp)
    (addrs : list WalletAddress) :
  forall s : St,
  (List.length (filter isImported (snd (convertAddresses m np bs addrs s))) +
   List.length (filter isPrinted (snd (convertAddresses m np bs addrs s))) =
   List.length addrs)%nat.
Proof.
  induction addrs as [| a addrs IH]; intros s; [reflexivity |].
  rewrite convertAddresses_cons, !filter_app, !length_app.
  pose proof (convertAddress_outcome m np bs a s) as H1.
  specialize (IH (fst (convertAddress m np bs a s))).
  cbn [List.length]. lia.
Qed.

Lemma imports_app (ev1 ev2 : list Did) :
  imports (ev1 ++ ev2) = imports ev1 ++ imports ev2.
Proof. unfold imports. apply flat_map_app. Qed.

Lemma convertAddresses_imports (m : Handle) (np : Params) (bs : BlockStamp)
    (addrs : list WalletAddress) :
  forall s : St,
  imports (snd (convertAddresses m np bs addrs s)) =
  map (fun a => (addressOf a, bs)) (filter (importable np) addrs).
Proof.
  induction addrs as [| a addrs IH]; intros s; [reflexivity |].
  rewrite convertAddresses_cons, imports_app, convertAddress_imports, IH.
  simpl. now destruct (importable np a).
Qed.

Lemma convertAddresses_does (m : Handle) (np : Params) (bs : BlockStamp)
    (addrs : list WalletAddress) :
  forall s : St,
  Forall (fun d => isImport d = true \/ isPrinted d = true)
         (snd (convertAddresses m np bs addrs s)).
Proof.
  induction addrs as [| a addrs IH]; intros s; [constructor |].
  rewrite convertAddresses_cons. apply Forall_app. split.
  - apply convertAddress_does.
  - apply IH.
Qed.

Lemma convertLegacyKeystore_events (ks m : Handle) (s : St) :
  convertLegacyKeystore ks m s =
  (None,
   fst (convertAddresses m (KeystoreNet ks)
          (mkBlockStamp 0 (GenesisHash (KeystoreNet ks)))
          (ActiveAddresses ks s) s),
   snd (convertAddresses m (KeystoreNet ks)
          (mkBlockStamp 0 (GenesisHash (KeystoreNet ks)))
          (ActiveAddresses ks s) s)).
Proof.
  unfold convertLegacyKeystore.
  now destruct (convertAddresses _ _ _ _ _) as [s1 ev].
Qed.

(** X17. [convertLegacyKeystore] never returns an error, whatever fails
    inside its loop, and every active address of the legacy key store has
    exactly one outcome: an import that succeeded, or one printed
    warning. *)
Theorem convertLegacyKeystore_one_outcome_per_address
    (legacyKeyStore manager : Handle) (s : St) :
  let '(err, _, ev) := convertLegacyKeystore legacyKeyStore manager s in
  err = None /\
  (List.length (filter isImported ev) + List.length (filter isPrinted ev) =
   List.length (ActiveAddresses legacyKeyStore s))%nat.
Proof.
  rewrite convertLegacyKeystore_events. split; [reflexivity |].
  apply convertAddresses_outcomes.
Qed.

(** X18. [convertLegacyKeystore] hands to the manager every script address
    and every public key address whose private key and wallet import
    format it obtains, in the order of the key store, each with the block
    stamp of height 0 and the genesis hash of the key store's network: an
    import that fails does not keep the later addresses from being
    tried. *)
Theorem convertLegacyKeystore_attempts_every_importable
    (legacyKeyStore manager : Handle) (s : St) :
  let '(_, _, ev) := convertLegacyKeystore legacyKeyStore manager s in
  imports ev =
  map (fun a =>
         (addressOf a,
          mkBlockStamp 0 (GenesisHash (KeystoreNet legacyKeyStore))))
      (filter (importable (KeystoreNet legacyKeyStore))
              (ActiveAddresses legacyKeyStore s)).
Proof.
  rewrite convertLegacyKeystore_events.
  apply convertAddresses_imports.
Qed.

(** ** The import of the legacy keys *)

Ltac run :=
  repeat (match goal with
          | |- context [match ?x with _ => _ end] =>
              lazymatch x with
              | context [match _ with _ => _ end] => fail
              | _ => destruct x
              end
          end; cbn beta iota zeta).

Lemma convertAddresses_keeps (f : Did -> bool) (m : Handle) (np : Params)
    (bs : BlockStamp) (addrs : list WalletAddress) (s : St) :
  (forall d, isImport d = true \/ isPrinted d = true -> f d = true) ->
  filter f (snd (convertAddresses m np bs addrs s)) =
  snd (convertAddresses m np bs addrs s).
Proof.
  intros Hf. apply filter_everything.
  eapply Forall_impl; [| apply convertAddresses_does]. exact Hf.
Qed.

Lemma convertAddresses_drops (f : Did -> bool) (m : Handle) (np : Params)
    (bs : BlockStamp) (addrs : list WalletAddress) (s : St) :
  (forall d, isImport d = true \/ isPrinted d = true -> f d = false) ->
  filter f (snd (convertAddresses m np bs addrs s)) = [].
Proof.
  intros Hf. apply filter_nothing.
  eapply Forall_impl; [| apply convertAddresses_does]. exact Hf.
Qed.

(** X19. The function that imports the legacy keys after the load locks
    again what it unlocked, on every path: its last actions are the lock
    of the manager of the new wallet, if it unlocked it, and then the lock
    of the legacy key store, and it locks nothing before. *)
Theorem importLegacyKeys_locks_again (legacyKeyStore : Handle)
    (privPass keystorePath : string) (manager : Handle) (s : St) :
  let ev := snd (importLegacyKeys legacyKeyStore privPass keystorePath
                                  manager s) in
  ev = filter (fun d => negb (isLock d)) ev ++
       (if existsb isManagerUnlocked ev
        then [LockedManager; LockedKeystore]
        else [LockedKeystore]).
Proof.
  unfold importLegacyKeys.
  destruct (ManagerUnlock manager privPass s) as [[e |] s1];
    [reflexivity |].
  rewrite convertLegacyKeystore_events.
  set (conv := convertAddresses _ _ _ _ _).
  assert (Hkeep : filter (fun d => negb (isLock d)) (snd conv) = snd conv).
  { apply convertAddresses_keeps. intros d [Hd | Hd]; now destruct d. }
  destruct (Remove keystorePath (fst conv)) as [[e |] s3];
    cbn [snd app filter existsb isLock isManagerUnlocked negb orb];
    rewrite !filter_app, Hkeep; cbn [filter isLock negb app];
    now rewrite <- app_assoc.
Qed.

(** X20. When the manager of the new wallet is unlocked, the file of the
    legacy key store is removed once, after every import was attempted,
    whatever the imports did (also when none succeeded); when the manager
    cannot be unlocked, nothing is imported and nothing removed. *)
Theorem importLegacyKeys_removes_keystore_whatever_was_imported
    (legacyKeyStore : Handle) (privPass keystorePath : string)
    (manager : Handle) (s : St) :
  let ev := snd (importLegacyKeys legacyKeyStore privPass keystorePath
                                  manager s) in
  match ManagerUnlock manager privPass s with
  | (None, s1) =>
      exists err before after,
        ev = before ++ Removed keystorePath err :: after /\
        imports before =
          imports (snd (convertLegacyKeystore legacyKeyStore manager s1)) /\
        filter isRemoved before = [] /\
        imports after = [] /\ filter isRemoved after = []
  | (Some _, _) => imports ev = [] /\ filter isRemoved ev = []
  end.
Proof.
  unfold importLegacyKeys.
  destruct (ManagerUnlock manager privPass s) as [[e |] s1];
    [split; reflexivity |].
  rewrite convertLegacyKeystore_events.
  set (conv := convertAddresses _ _ _ _ _).
  assert (Hdrop : filter isRemoved (snd conv) = []).
  { apply convertAddresses_drops. intros d [Hd | Hd]; now destruct d. }
  destruct (Remove keystorePath (fst conv)) as [err s3].
  exists err,
    ([Printed "Importing addresses from existing wallet..."] ++
     [UnlockedManager None] ++ snd conv),
    (match err with
     | Some _ => [Printed "WARN: Failed to remove legacy wallet from'%s'\n"]
     | None => []
     end ++ [LockedManager; LockedKeystore]).
  cbn [snd]. split; [| split; [| split; [| split]]].
  - destruct err; simpl; try rewrite <- app_assoc; reflexivity.
  - reflexivity.
  - rewrite !filter_app, Hdrop. reflexivity.
  - now destruct err.
  - now destruct err.
Qed.


(** ** [createWallet] *)

(** X21. [createWallet] returns no error exactly when the wallet was
    created: then the passphrase it returns is the private passphrase the
    wallet was created with, after the three prompts were answered, and
    the manager of the new wallet is closed; on an error it returns false
    and no passphrase, and no wallet was created and no manager closed. *)
Theorem createWallet_returns_passphrase_of_created_wallet
    (cfg : config) (s : St) :
  let '(restored, privPass, err, _, ev) := createWallet cfg s in
  match err with
  | None =>
      exists pubPass pass seed legacy,
        privPass = Some pass /\
        filter isWalletStep ev =
          [CreatedWallet pubPass pass seed None; ClosedWalletManager] /\
        filter isPrompt ev =
          [AskedPrivatePass legacy None; AskedPublicPass None;
           AskedSeed None]
  | Some _ =>
      restored = false /\ privPass = None /\ filter isWalletStep ev = []
  end.
Proof.
  unfold createWallet. cbv zeta. run;
    first [ split; [reflexivity | split; reflexivity]
          | do 4 eexists; split; [reflexivity | split; reflexivity] ].
Qed.


(** X22. When the file of the legacy key store is there but cannot be
    examined, or the key store cannot be opened, [createWallet] returns an
    error before it asks the user anything, and creates and registers
    nothing. *)
Theorem createWallet_keystore_trouble_before_prompts
    (cfg : config) (s : St) :
  keystoreTrouble cfg s = true ->
  let '(_, _, err, _, ev) := createWallet cfg s in
  err <> None /\ filter isPrompt ev = [] /\ filter isCreation ev = [].
Proof.
  unfold keystoreTrouble, keystorePathOf, createWallet. cbv zeta.
  destruct (Stat _ s) as [[isDir | e | e] s1]; [| discriminate |].
  - destruct (OpenDir _ s1) as [[ks [e |]] s2]; [| discriminate].
    intros _. repeat split. discriminate.
  - intros _. repeat split. discriminate.
Qed.

(** X23. [createWallet] asks the loader for the wallet only after the
    three prompts, for the private passphrase, the public passphrase and
    the seed, were answered without an error, in this order. *)
Theorem createWallet_creates_after_three_answers (cfg : config) (s : St) :
  let '(_, _, _, _, ev) := createWallet cfg s in
  forall pubPass privPass seed err,
    In (CreatedWallet pubPass privPass seed err) ev ->
    exists legacy,
      filter isPrompt ev =
        [AskedPrivatePass legacy None; AskedPublicPass None; AskedSeed None].
Proof.
  unfold createWallet. cbv zeta. run; intros pubPass privPass seed err Hin;
    simpl in Hin;
    repeat match goal with
           | Hor : _ \/ _ |- _ => destruct Hor as [Hor | Hor]
           end;
    try discriminate; try contradiction;
    eexists; reflexivity.
Qed.

(** X24. [createWallet] registers the import of the legacy keys exactly
    when it unlocked a legacy key store, and then for the path it looked
    for at the start; it unlocks a key store only after it opened it, in
    the network directory, and was given its passphrase. *)
Theorem createWallet_registers_import_of_unlocked_keystore
    (cfg : config) (s : St) :
  let '(_, _, _, _, ev) := createWallet cfg s in
  In (Stated (keystorePathOf cfg)) ev /\
  (forall path,
     In (RegisteredImport path) ev <->
     path = keystorePathOf cfg /\ In (UnlockedKeystore None) ev) /\
  (forall err,
     In (UnlockedKeystore err) ev ->
     In (OpenedKeystore (networkDir (DataDir cfg) activeNet) None) ev /\
     In (AskedPrivatePass true None) ev).
Proof.
  unfold keystorePathOf, createWallet. cbv zeta. run;
    (split; [simpl; tauto |]);
    (split; [intros path | intros err]); simpl;
    intuition (try discriminate; try congruence).
Qed.


(** ** [createSimulationWallet] and [createWatchingOnlyWallet] *)

(** X25. On every path, [createSimulationWallet] closes as its last
    actions what it opened, the database, the manager and the stake
    store, each once and in the reverse order of their opening, and
    closes nothing else. *)
Theorem createSimulationWallet_closes_what_it_opened
    (cfg : config) (s : St) :
  let '(_, _, ev) := createSimulationWallet cfg s in
  ev = filter (fun d => negb (isClose d)) ev ++ filter isClose ev /\
  flat_map closed ev = rev (flat_map opened ev).
Proof.
  unfold createSimulationWallet. cbv zeta. run; split; reflexivity.
Qed.

(** X26. On every path, [createWatchingOnlyWallet] closes as its last
    actions what it opened, the database, the manager and the stake
    store, each once and in the reverse order of their opening, and
    closes nothing else. *)
Theorem createWatchingOnlyWallet_closes_what_it_opened
    (cfg : config) (s : St) :
  let '(_, _, ev) := createWatchingOnlyWallet cfg s in
  ev = filter (fun d => negb (isClose d)) ev ++ filter isClose ev /\
  flat_map closed ev = rev (flat_map opened ev).
Proof.
  unfold createWatchingOnlyWallet, promptHDPublicKey. cbv zeta.
  run; split; reflexivity.
Qed.

(** X27. [createSimulationWallet] creates the database only after it
    wrote the words of the generated seed to the file seed of the network
    directory, without an error; the manager it creates afterwards is
    given this seed, the default public passphrase and the simulation
    passphrase. *)
Theorem createSimulationWallet_seed_on_disk_before_database
    (cfg : config) (s : St) :
  let '(_, _, ev) := createSimulationWallet cfg s in
  let seed := fst (fst (GenerateSeed RecommendedSeedLen s)) in
  let netDir := networkDir (DataDir cfg) activeNet in
  forall path err,
    In (CreatedDb path err) ev ->
    path = Join netDir walletDbName /\
    exists before after,
      ev = before ++ CreatedDb path err :: after /\
      In (WroteFile (Join netDir "seed") (fst (ToStringChecksum seed)) 420
                    None) before /\
      forall sd pubPass privPass err',
        In (CreatedManager sd pubPass privPass err') after ->
        sd = seed /\ pubPass = InsecurePubPassphrase /\
        privPass = simulationPassphrase.
Proof.
  unfold createSimulationWallet. cbv zeta.
  destruct (GenerateSeed RecommendedSeedLen s) as [[seed e0] s1].
  cbn [fst].
  destruct (ToStringChecksum seed) as [words e1] eqn:Hwords. cbn [fst].
  run; intros path err Hin; simpl in Hin;
    repeat match goal with
           | Hor : _ \/ _ |- _ => destruct Hor as [Hor | Hor]
           end;
    try discriminate; try contradiction;
    injection Hin as <- <-; (split; [reflexivity |]);
    exists [GeneratedSeed RecommendedSeedLen None;
            WroteFile (Join (networkDir (DataDir cfg) activeNet) "seed")
                      words 420 None;
            Printed "Creating the wallet..."];
    eexists; (split; [reflexivity |]); (split; [simpl; tauto |]);
    intros sd pubPass privPass err' Hm; simpl in Hm;
    repeat match goal with
           | Hor : _ \/ _ |- _ => destruct Hor as [Hor | Hor]
           end;
    try discriminate; try contradiction;
    injection Hm as <- <- <-; repeat split.
Qed.

(** X28. When the line with the public key cannot be read,
    [createWatchingOnlyWallet] returns the error of the read and asks and
    creates nothing more; otherwise a manager is only created after the
    prompt for the public passphrase was answered, and from the line that
    was read, trimmed. *)
Theorem createWatchingOnlyWallet_key_as_read (cfg : config) (s : St) :
  let '(err, _, ev) := createWatchingOnlyWallet cfg s in
  match ReadString s with
  | (_, Some e, _) =>
      err = Some e /\ filter isPrompt ev = [AskedPublicKey (Some e)] /\
      filter isCreation ev = []
  | (line, None, _) =>
      forall key pubPass e,
        In (CreatedWatchOnlyManager key pubPass e) ev ->
        key = TrimSpace line /\
        filter isPrompt ev = [AskedPublicKey None; AskedPublicPass None]
  end.
Proof.
  unfold createWatchingOnlyWallet, promptHDPublicKey. cbv zeta.
  destruct (ReadString s) as [[line [e |]] s1]; [repeat split |].
  run; intros key pubPass err' Hin; simpl in Hin;
    repeat match goal with
           | Hor : _ \/ _ |- _ => destruct Hor as [Hor | Hor]
           end;
    try discriminate; try contradiction;
    injection Hin as <- <- <-; split; reflexivity.
Qed.


End SetupProperties.

(** * The properties of the wallet setup on the reference instance *)

Lemma createWallet_keystore_trouble_before_prompts_witness :
  let '(restored, privPass, err, _, ev) :=
    Setup.createWallet SetupRef.cfg
      (SetupRef.mkWorld
         (Setup.StatOk false) (Some (OtherError "bad key store"))
         None None [] (fun _ => None) None ("private", None)
         ("public", None) ("seed", false, None) None (fun _ => None)
         None None) in
  err = Some (OtherError "bad key store") /\
  filter SetupWords.isPrompt ev = [].
Proof.
  pose proof (@createWallet_keystore_trouble_before_prompts
                _ SetupRef.services SetupRef.cfg
                (SetupRef.mkWorld
                   (Setup.StatOk false) (Some (OtherError "bad key store"))
                   None None [] (fun _ => None) None ("private", None)
                   ("public", None) ("seed", false, None) None
                   (fun _ => None) None None)
                ltac:(reflexivity)) as Ht.
  simpl in Ht. destruct Ht as (_ & Hp & _).
  simpl. split; [reflexivity | exact Hp].
Defined.

Lemma createWallet_creates_after_three_answers_witness :
  exists legacy,
    filter SetupWords.isPrompt
           (snd (Setup.createWallet SetupRef.cfg SetupRef.legacy))
    = [Setup.AskedPrivatePass legacy None; Setup.AskedPublicPass None;
       Setup.AskedSeed None].
Proof.
  pose proof (@createWallet_creates_after_three_answers
                _ SetupRef.services SetupRef.cfg SetupRef.legacy) as Ht.
  simpl in Ht. simpl.
  apply (Ht "public" "private" "seed" None).
  repeat (try (left; reflexivity); right).
Defined.

Lemma createSimulationWallet_seed_on_disk_before_database_witness :
  exists before after,
    snd (Setup.createSimulationWallet SetupRef.cfg SetupRef.legacy)
    = before ++ Setup.CreatedDb "/data/simnet/wallet.db" None :: after /\
    In (Setup.WroteFile "/data/simnet/seed" "words of seed" 420 None) before.
Proof.
  pose proof (@createSimulationWallet_seed_on_disk_before_database
                _ SetupRef.services SetupRef.cfg SetupRef.legacy) as Ht.
  simpl in Ht.
  destruct (Ht "/data/simnet/wallet.db" None
               ltac:(repeat (try (left; reflexivity); right)))
    as (_ & before & after & Hev & Hin & _).
  exists before, after. split; [exact Hev | exact Hin].
Defined.

Lemma createWatchingOnlyWallet_key_as_read_witness :
  filter SetupWords.isPrompt
         (snd (Setup.createWatchingOnlyWallet SetupRef.cfg SetupRef.legacy))
  = [Setup.AskedPublicKey None; Setup.AskedPublicPass None].
Proof.
  pose proof (@createWatchingOnlyWallet_key_as_read
                _ SetupRef.services SetupRef.cfg SetupRef.legacy) as Ht.
  simpl in Ht.
  exact (proj2 (Ht "xpub" "public" None
                   ltac:(repeat (try (left; reflexivity); right)))).
Defined.
